(** * trento3d: nucleon participation and the 2-D random field generator

    A shallow embedding of [src/nucleon.h] and [src/rft2d.cxx].

    Conventions of the embedding.
    - A C++ [double] is a real number of [R]: arithmetic is exact, so
      rounding, infinities and NaN are outside the model.
    - A C++ [int] is an integer of [Z] and its arithmetic is exact.  Signed
      overflow is undefined behaviour in C++: a theorem which says that code
      runs through carries the bound under which the integers the code
      computes are values of [int] ([Cpp.INT_MIN] to [Cpp.INT_MAX]).
    - Arrays are lists; an access outside the allocated range is undefined
      behaviour in C++ and is [None] here.  Memory is not exhausted: an
      allocation of a number of cells that is not negative yields that many
      cells.
    - Mutable objects are records threaded through the functions that
      mutate them; the process-wide random engine is an explicit state.
    - [std::exp], [std::sqrt] and [M_PI] are the exponential, the square
      root and [PI] of the reals.  The special functions of GSL, the
      transforms of FFTW and the members declared in headers that are not
      among the sources are parameters of the sections that use them. *)

From Stdlib Require Import Reals Machin ZArith List Sorted FinFun Bool Lia Lra.
Import ListNotations.

(** ** C++ scalar operations *)

Module Cpp.

Local Open Scope R_scope.

(** [a < b] on doubles, as a boolean. *)
Definition ltb (a b : R) : bool := if Rlt_dec a b then true else false.

(** [a > b] on doubles. *)
Definition gtb (a b : R) : bool := ltb b a.

(** [int(r)]: conversion of a double to an int truncates toward zero.  The
    conversion is undefined in C++ when the truncated value is not a value
    of [int]; where it matters the result is bounded by [int_range]
    below. *)
Definition int_of_double (r : R) : Z :=
  if Rle_dec 0 r then Int_part r else (- Int_part (- r))%Z.

(** The values of a 32-bit [int]. *)
Definition INT_MIN : Z := (- 2 ^ 31)%Z.
Definition INT_MAX : Z := (2 ^ 31 - 1)%Z.

(** An integer that [int] arithmetic yields without overflow. *)
Definition int_range (z : Z) : Prop := (INT_MIN <= z <= INT_MAX)%Z.

(** [0, 1, ..., n-1]: the values taken by [i] in
    [for (int i = 0; i < n; i++)]. *)
Definition zrange (n : Z) : list Z := map Z.of_nat (seq 0 (Z.to_nat n)).

(** A loop whose body may hit undefined behaviour: the state is threaded
    through the iterations and the first failure aborts the loop. *)
Fixpoint foldM {A S : Type} (body : A -> S -> option S) (l : list A) (s : S)
  : option S :=
  match l with
  | [] => Some s
  | a :: l' =>
      match body a s with
      | Some s' => foldM body l' s'
      | None => None
      end
  end.

(** [for (int i = 0; i < n; i++) body(i)]. *)
Definition for_upto {S : Type} (n : Z) (body : Z -> S -> option S) (s : S)
  : option S :=
  foldM body (zrange n) s.

(** [fftw_complex] is [double[2]]: real channel [0], imaginary channel [1]. *)
Abbreviation complex := (R * R)%type.

Fixpoint list_upd {A : Type} (n : nat) (f : A -> A) (l : list A) : list A :=
  match l, n with
  | [], _ => []
  | a :: l', O => f a :: l'
  | a :: l', S n' => a :: list_upd n' f l'
  end.

(** Whether flat index [k] addresses a cell of an array of [len] cells. *)
Definition in_bounds (len : nat) (k : Z) : bool :=
  (0 <=? k)%Z && (k <? Z.of_nat len)%Z.

(** In-place update [a[k] = f(a[k])] of an array; [None] out of range. *)
Definition upd {A : Type} (a : list A) (k : Z) (f : A -> A) : option (list A) :=
  if in_bounds (length a) k then Some (list_upd (Z.to_nat k) f a) else None.

(** [fftw_malloc] of [n] cells: the contents are whatever the heap holds. *)
Definition alloc {A : Type} (n : Z) (heap : nat -> A) : list A :=
  map heap (seq 0 (Z.to_nat n)).

End Cpp.

(** ** The process-wide random engine ([random.h], not among the sources) *)

Module random.

Local Open Scope Z_scope.

(** The state of the engine: the sequence of raw outputs it will produce
    and how many of them have been consumed. *)
Record Engine : Type := mkEngine {
  raw : nat -> Z;
  consumed : nat
}.

(** Modelled from the spec: [random::engine()], missing with [random.h];
    one call takes the next raw output of the single ordered global stream,
    an unsigned 64-bit integer. *)
Definition engine (e : Engine) : Z * Engine :=
  (raw e (consumed e) mod 2 ^ 64,
   {| raw := raw e; consumed := S (consumed e) |}).

(** Modelled from the spec: [random::canonical<double>()], missing with
    [random.h]; one uniform real in [0,1) drawn from the same stream. *)
Definition canonical (e : Engine) : R * Engine :=
  let (r, e') := engine e in ((IZR r / IZR (2 ^ 64))%R, e').

End random.

(** ** [rft2d.cxx]: inverse CDF sampler and random field generator *)

Module RFT.

Import Cpp.
Local Open Scope R_scope.

(** A C++ exception leaving a constructor. *)
Inductive exception : Type :=
| bad_array_new_length.

(** [new T[n]]: a negative length throws, otherwise [n] cells [init 0],
    ..., [init (n-1)] are obtained. *)
Definition new_array {A : Type} (n : Z) (init : Z -> A)
  : exception + list A :=
  if (n <? 0)%Z then inl bad_array_new_length else inr (map init (zrange n)).

(** Read [a[k]]; [None] outside the array. *)
Definition load {A : Type} (a : list A) (k : Z) : option A :=
  if (0 <=? k)%Z then nth_error a (Z.to_nat k) else None.

(** One segment of GSL's linear interpolation ([gsl_interp_linear]). *)
Definition linear_segment (x_lo x_hi y_lo y_hi x : R) : R :=
  let dx := x_hi - x_lo in
  if Rlt_dec 0 dx then y_lo + (x - x_lo) / dx * (y_hi - y_lo) else 0.

(** [gsl_spline_eval] for a spline of type [gsl_interp_linear] initialised
    on abscissae [xa] and ordinates [ya]: the segment [xa[i], xa[i+1]] that
    holds [x] is looked up (the last one takes its right end point too) and
    interpolated linearly.  The callers below keep [x] within
    [xa[0], xa[N-1]]. *)
Fixpoint gsl_spline_eval (xa ya : list R) (x : R) : R :=
  match xa, ya with
  | x_lo :: ((x_hi :: xr) as xt), y_lo :: ((y_hi :: _) as yt) =>
      match xr with
      | [] => linear_segment x_lo x_hi y_lo y_hi x
      | _ :: _ =>
          if Rlt_dec x x_hi then linear_segment x_lo x_hi y_lo y_hi x
          else gsl_spline_eval xt yt x
      end
  | _, _ => 0
  end.

(** *** [RFT::iCDF] *)

Record iCDF : Type := mk_iCDF {
  N : Z;
  fluct : R;
  dx_gamma : R;
  x_gamma : list R;
  y_gamma_cdf : list R
}.

Section iCDF_ops.

(** GSL special functions: the regularised lower incomplete gamma function
    [P(a, x)] and the upper tail [Q(x)] of the standard normal law. *)
Variable gsl_sf_gamma_inc_P : R -> R -> R.
Variable gsl_sf_erf_Q : R -> R.

(** [iCDF::iCDF(int N_, double fluct_)].  Both arrays have [N_] cells; the
    loop fills [x_gamma[i]] and then [y_gamma_cdf[i]] from it.  The spline
    is initialised with [y_gamma_cdf] as abscissae and [x_gamma] as
    ordinates and holds no other data.  GSL's own error handler (argument
    domains, table sizes) is outside the model: its functions are total. *)
Definition iCDF_new (N_ : Z) (fluct_ : R) : exception + iCDF :=
  let dx := 10 * sqrt fluct_ / IZR N_ in
  match new_array N_ (fun i => IZR i * dx) with
  | inl e => inl e
  | inr xs =>
      inr {| N := N_; fluct := fluct_; dx_gamma := dx;
             x_gamma := xs;
             y_gamma_cdf := map (gsl_sf_gamma_inc_P fluct_) xs |}
  end.

(** [double iCDF::operator()(double gaussian_X)]; the table cells are read
    in the order of the source. *)
Definition iCDF_call (c : iCDF) (gaussian_X : R) : option R :=
  let cdf := 1 - gsl_sf_erf_Q gaussian_X in
  match load (y_gamma_cdf c) 0 with
  | None => None
  | Some y_first =>
      if ltb cdf y_first then
        match load (x_gamma c) 0 with
        | Some x_first => Some (x_first / fluct c)
        | None => None
        end
      else
        match load (y_gamma_cdf c) (N c - 1) with
        | None => None
        | Some y_last =>
            if gtb cdf y_last then
              match load (x_gamma c) (N c - 1) with
              | Some x_last => Some (x_last / fluct c)
              | None => None
              end
            else
              let result :=
                gsl_spline_eval (y_gamma_cdf c) (x_gamma c) cdf / fluct c in
              if ltb result 0 then Some 0 else Some result
        end
  end.

End iCDF_ops.

(** *** [RFT::rft2d] *)

(** The seeded generator behind [white_noise_generator(generator)]: the
    standard-normal deviates it will hand out and how many were taken. *)
Record noise_source : Type := mk_noise {
  deviate : nat -> R;
  taken : nat
}.

(** [white_noise_generator(generator)]: the next standard-normal deviate. *)
Definition white_noise_generator (g : noise_source) : R * noise_source :=
  (deviate g (taken g), {| deviate := deviate g; taken := S (taken g) |}).

Record rft2d : Type := mk_rft2d {
  N1 : Z; N2 : Z;
  L1 : R; L2 : R;
  Var_x : R; Var_k : R;
  lx : R; coeff_k : R;
  dx1 : R; dx2 : R;
  dk1 : R; dk2 : R;
  icdf : iCDF;
  width : R;
  dxy2 : R;
  dxy : R;
  Ncut : Z;
  generator : noise_source;
  phi_x : list complex;
  phi_k : list complex;
  TAB_clip : list (list R)
}.

Definition set_phi_x (r : rft2d) (a : list complex) (g : noise_source) : rft2d :=
  mk_rft2d (N1 r) (N2 r) (L1 r) (L2 r) (Var_x r) (Var_k r) (lx r) (coeff_k r)
    (dx1 r) (dx2 r) (dk1 r) (dk2 r) (icdf r) (width r) (dxy2 r) (dxy r)
    (Ncut r) g a (phi_k r) (TAB_clip r).

Definition set_phi_k (r : rft2d) (a : list complex) : rft2d :=
  mk_rft2d (N1 r) (N2 r) (L1 r) (L2 r) (Var_x r) (Var_k r) (lx r) (coeff_k r)
    (dx1 r) (dx2 r) (dk1 r) (dk2 r) (icdf r) (width r) (dxy2 r) (dxy r)
    (Ncut r) (generator r) (phi_x r) a (TAB_clip r).

(** The entry [TAB_clip[i][j]] as the constructor computes it.  The
    squared distance [ic*ic+jc*jc] is computed in [int]; the exponential is
    the exact one, which never vanishes, while [std::exp] underflows to [0]
    far from the centre. *)
Definition TAB_clip_entry (Ncut_ : Z) (dxy2_ width_ : R) (i j : Z) : R :=
  let ic := (i - Ncut_)%Z in
  let jc := (j - Ncut_)%Z in
  exp (IZR (- (ic * ic + jc * jc)) * dxy2_ / width_ / width_)
    * dxy2_ / (PI * width_ * width_).

Section rft2d_ops.

Variable gsl_sf_gamma_inc_P : R -> R -> R.

(** The deviates produced by [generator] once seeded with [seed_]. *)
Variable seeded_deviates : Z -> nat -> R.

(** What [fftw_malloc] finds in the two workspaces. *)
Variable heap_x heap_k : nat -> complex.

(** FFTW's forward and backward 2-D transforms of an [n0] by [n1] row-major
    array, as planned by [fftw_plan_dft_2d]. *)
Variable fftw_forward fftw_backward : Z -> Z -> list complex -> list complex.

(** [rft2d::rft2d(N1_, N2_, L1_, L2_, Var_Phi_, lx_, seed_, width_)].
    The member initialisers run first, then the body.  The rows of
    [TAB_clip] are allocated inside the loop with the length of the outer
    array, which is not negative once the outer allocation has passed.
    [Ncut] and the length [Ncut*2+1] are computed in [int] by the source. *)
Definition rft2d_new (N1_ N2_ : Z) (L1_ L2_ Var_Phi_ lx_ : R) (seed_ : Z)
  (width_ : R) : exception + rft2d :=
  let dxy2_ := L1_ * L2_ / IZR N1_ / IZR N2_ in
  let Ncut_ := int_of_double (3 * width_ * IZR N1_ / L1_) in
  match iCDF_new gsl_sf_gamma_inc_P 500 Var_Phi_ with
  | inl e => inl e
  | inr icdf_ =>
      match new_array (Ncut_ * 2 + 1)
              (fun i => map (TAB_clip_entry Ncut_ dxy2_ width_ i)
                          (zrange (Ncut_ * 2 + 1))) with
      | inl e => inl e
      | inr rows =>
          inr {| N1 := N1_; N2 := N2_; L1 := L1_; L2 := L2_;
                 Var_x := Var_Phi_;
                 Var_k := sqrt (PI * 2 * lx_ * lx_
                                / IZR N1_ / IZR N2_ / L1_ / L2_);
                 lx := lx_; coeff_k := - PI * PI * 2 * lx_ * lx_;
                 dx1 := L1_ / IZR N1_; dx2 := L2_ / IZR N2_;
                 dk1 := 1 / L1_; dk2 := 1 / L2_;
                 icdf := icdf_;
                 width := width_;
                 dxy2 := dxy2_;
                 dxy := L1_ / IZR N1_;
                 Ncut := Ncut_;
                 generator := {| deviate := seeded_deviates seed_; taken := O |};
                 phi_x := alloc (N1_ * N2_) heap_x;
                 phi_k := alloc (N1_ * N2_) heap_k;
                 TAB_clip := rows |}
      end
  end.

(** [rft2d::real_space_white_noise()].  The subscript [i*N1+j] is computed
    in [int] by the source, here and in the filter below. *)
Definition real_space_white_noise (r : rft2d) : option rft2d :=
  match
    for_upto (N1 r) (fun i =>
      for_upto (N2 r) (fun j (s : list complex * noise_source) =>
        let (a, g) := s in
        let (v, g') := white_noise_generator g in
        match upd a (i * N1 r + j) (fun c => (v, snd c)) with
        | Some a1 =>
            match upd a1 (i * N1 r + j) (fun c => (fst c, 0)) with
            | Some a2 => Some (a2, g')
            | None => None
            end
        | None => None
        end))
      (phi_x r, generator r)
  with
  | Some (a, g) => Some (set_phi_x r a g)
  | None => None
  end.

(** The factor [ker] computed in the body of
    [apply_k_spcae_propagation] at loop indices [i], [j]. *)
Definition ker (r : rft2d) (i j : Z) : R :=
  let si := IZR (Z.min i (N1 r - i)) / L1 r in
  let sj := IZR (Z.min j (N2 r - j)) / L2 r in
  let nr2 := 0.5 * coeff_k r * (si ^ 2 + sj ^ 2) in
  Var_k r * exp nr2.

(** [rft2d::apply_k_spcae_propagation()]. *)
Definition apply_k_spcae_propagation (r : rft2d) : option rft2d :=
  match
    for_upto (N1 r) (fun i =>
      for_upto (N2 r) (fun j (a : list complex) =>
        match upd a (i * N1 r + j) (fun c => (fst c * ker r i j, snd c)) with
        | Some a1 => upd a1 (i * N1 r + j) (fun c => (fst c, snd c * ker r i j))
        | None => None
        end))
      (phi_k r)
  with
  | Some a => Some (set_phi_k r a)
  | None => None
  end.

(** [fftw_execute(plan_x2k)] and [fftw_execute(plan_k2x)]. *)
Definition fftw_execute_x2k (r : rft2d) : rft2d :=
  set_phi_k r (fftw_forward (N1 r) (N2 r) (phi_x r)).

Definition fftw_execute_k2x (r : rft2d) : rft2d :=
  set_phi_x r (fftw_backward (N1 r) (N2 r) (phi_k r)) (generator r).

(** [rft2d::run()]. *)
Definition run (r : rft2d) : option rft2d :=
  match real_space_white_noise r with
  | Some r1 =>
      match apply_k_spcae_propagation (fftw_execute_x2k r1) with
      | Some r2 => Some (fftw_execute_k2x r2)
      | None => None
      end
  | None => None
  end.

End rft2d_ops.

End RFT.

(** ** [nucleon.h]: nucleons and the nucleon profile *)

Module trento.

Import Cpp.
Local Open Scope R_scope.

(** [class Nucleon]. *)
Record Nucleon : Type := mk_Nucleon {
  x_ : R;
  y_ : R;
  fi_ : Z;
  fj_ : Z;
  participant_ : bool
}.

Definition x (n : Nucleon) : R := x_ n.
Definition y (n : Nucleon) : R := y_ n.
Definition fi (n : Nucleon) : Z := fi_ n.
Definition fj (n : Nucleon) : Z := fj_ n.
Definition is_participant (n : Nucleon) : bool := participant_ n.

(** [Nucleon::set_position(x, y)]: every member is overwritten; the two
    anchor indices take one raw engine output each, [fi_] first. *)
Definition set_position (n : Nucleon) (x y : R) (e : random.Engine)
  : Nucleon * random.Engine :=
  let (r1, e1) := random.engine e in
  let (r2, e2) := random.engine e1 in
  ({| x_ := x; y_ := y;
      fi_ := (r1 mod 1950 + 25)%Z;
      fj_ := (r2 mod 1950 + 25)%Z;
      participant_ := false |}, e2).

(** [Nucleon::set_participant()]. *)
Definition set_participant (n : Nucleon) : Nucleon :=
  {| x_ := x_ n; y_ := y_ n; fi_ := fi_ n; fj_ := fj_ n;
     participant_ := true |}.

(** [class NucleonProfile]; [fast_exp_] is the [FastExp<double>] member,
    a function object whose header is not among the sources. *)
Record NucleonProfile : Type := mk_NucleonProfile {
  field_generator : RFT.rft2d;
  width_sqr_ : R;
  trunc_radius_sqr_ : R;
  max_impact_sqr_ : R;
  neg_one_div_two_width_sqr_ : R;
  cross_sec_param_ : R;
  fast_exp_ : R -> R;
  prefactor_ : R
}.

(** [NucleonProfile::radius()] and [NucleonProfile::max_impact()].  The
    square root is the exact one; the source returns its rounding, whose
    square need not be the member again. *)
Definition radius (p : NucleonProfile) : R := sqrt (trunc_radius_sqr_ p).
Definition max_impact (p : NucleonProfile) : R := sqrt (max_impact_sqr_ p).

(** [NucleonProfile::thickness(distance_sqr)]. *)
Definition thickness (p : NucleonProfile) (distance_sqr : R) : R :=
  if gtb distance_sqr (trunc_radius_sqr_ p) then 0
  else prefactor_ p * fast_exp_ p (neg_one_div_two_width_sqr_ p * distance_sqr).

(** The local [distance_sqr] of [participate]: the squared transverse
    distance of the pair. *)
Definition distance_sqr (A B : Nucleon) : R :=
  (x A - x B) * (x A - x B) + (y A - y B) * (y A - y B).

Section participation.

(** [rft2d::calculate_fluct_norm(fiA, fjA, fiB, fjB, dx, dy)], a member
    of the field generator declared in [rft2d.h], which is not among the
    sources; [participate] is [const], so the call reads the generator and
    leaves it and the engine alone. *)
Variable calculate_fluct_norm : RFT.rft2d -> Z -> Z -> Z -> Z -> R -> R -> R.

(** [NucleonProfile::participate(A, B)]: the result, the two nucleons and
    the engine after the call. *)
Definition participate (p : NucleonProfile) (A B : Nucleon) (e : random.Engine)
  : bool * Nucleon * Nucleon * random.Engine :=
  if is_participant A && is_participant B then (true, A, B, e)
  else
    let dx := x A - x B in
    let dy := y A - y B in
    let distance_sqr := dx * dx + dy * dy in
    if gtb distance_sqr (max_impact_sqr_ p) then (false, A, B, e)
    else
      let Kf := calculate_fluct_norm (field_generator p)
                  (fi A) (fj A) (fi B) (fj B) dx dy in
      let one_minus_prob :=
        exp (- Kf * exp (cross_sec_param_ p
                         - 0.25 * distance_sqr / width_sqr_ p)) in
      let (u, e') := random.canonical e in
      if ltb one_minus_prob u
      then (true, set_participant A, set_participant B, e')
      else (false, A, B, e').

End participation.

(** [math::double_constants::one_div_two_pi] of Boost. *)
Definition one_div_two_pi : R := 1 / (2 * PI).

Section fluctuation.

(** The member [fluct_dist_], a [std::gamma_distribution<double>]: a call
    on the engine hands out one deviate and may change both the state the
    distribution object keeps and the engine. *)
Variable gamma_state : Type.
Variable fluct_dist_ :
  gamma_state -> random.Engine -> R * gamma_state * random.Engine.

(** [NucleonProfile::fluctuate()]: the profile, the distribution object and
    the engine after the call. *)
Definition fluctuate (p : NucleonProfile) (d : gamma_state)
  (e : random.Engine) : NucleonProfile * gamma_state * random.Engine :=
  let '(g, d', e') := fluct_dist_ d e in
  ({| field_generator := field_generator p;
      width_sqr_ := width_sqr_ p;
      trunc_radius_sqr_ := trunc_radius_sqr_ p;
      max_impact_sqr_ := max_impact_sqr_ p;
      neg_one_div_two_width_sqr_ := neg_one_div_two_width_sqr_ p;
      cross_sec_param_ := cross_sec_param_ p;
      fast_exp_ := fast_exp_ p;
      prefactor_ := g * one_div_two_pi / width_sqr_ p |}, d', e').

End fluctuation.

End trento.

(** * Sample instances

    Concrete stand-ins for the external functions and concrete objects, on
    which the properties below are exercised. *)

Module sample.

Local Open Scope R_scope.

(** A cumulative distribution function on [[0, +oo)] in the role of
    [gsl_sf_gamma_inc_P]: zero at zero, strictly increasing, below one. *)
Definition P (a x : R) : R := x / (1 + x).

(** A strictly decreasing upper-tail function in the role of
    [gsl_sf_erf_Q]. *)
Definition Q (g : R) : R := 1 / (1 + exp g).

Definition deviates (seed : Z) (n : nat) : R := IZR seed + INR n.

Definition heap (n : nat) : Cpp.complex := (0, 0).

(** An engine whose raw outputs are all [1000]. *)
Definition engine_1000 : random.Engine :=
  {| random.raw := fun _ => 1000%Z; random.consumed := O |}.

(** An engine whose uniforms are all [1/2]. *)
Definition engine_half : random.Engine :=
  {| random.raw := fun _ => (2 ^ 63)%Z; random.consumed := O |}.

Definition nucleon_at (x y : R) (participant : bool) : trento.Nucleon :=
  {| trento.x_ := x; trento.y_ := y; trento.fi_ := 25; trento.fj_ := 25;
     trento.participant_ := participant |}.

(** The field generator that [rft2d(2, 3, 1., 1., 1., 1., 0, 1.)] builds
    with the stand-ins above: a grid of 2 rows and 3 columns, shape,
    correlation length and width [1], kernel half-width [int(6.) = 6]. *)
Definition rect_generator : RFT.rft2d :=
  {| RFT.N1 := 2; RFT.N2 := 3; RFT.L1 := 1; RFT.L2 := 1;
     RFT.Var_x := 1;
     RFT.Var_k := sqrt (PI * 2 * 1 * 1 / IZR 2 / IZR 3 / 1 / 1);
     RFT.lx := 1; RFT.coeff_k := - PI * PI * 2 * 1 * 1;
     RFT.dx1 := 1 / IZR 2; RFT.dx2 := 1 / IZR 3;
     RFT.dk1 := 1 / 1; RFT.dk2 := 1 / 1;
     RFT.icdf :=
       {| RFT.N := 500; RFT.fluct := 1;
          RFT.dx_gamma := 10 * sqrt 1 / IZR 500;
          RFT.x_gamma :=
            map (fun i => IZR i * (10 * sqrt 1 / IZR 500)) (Cpp.zrange 500);
          RFT.y_gamma_cdf :=
            map (P 1)
              (map (fun i => IZR i * (10 * sqrt 1 / IZR 500))
                 (Cpp.zrange 500)) |};
     RFT.width := 1;
     RFT.dxy2 := 1 * 1 / IZR 2 / IZR 3;
     RFT.dxy := 1 / IZR 2;
     RFT.Ncut := 6;
     RFT.generator := {| RFT.deviate := deviates 0; RFT.taken := O |};
     RFT.phi_x := Cpp.alloc (2 * 3) heap;
     RFT.phi_k := Cpp.alloc (2 * 3) heap;
     RFT.TAB_clip :=
       map (fun i => map (RFT.TAB_clip_entry 6 (1 * 1 / IZR 2 / IZR 3) 1 i)
                       (Cpp.zrange (6 * 2 + 1)))
           (Cpp.zrange (6 * 2 + 1)) |}.

(** A profile of squared width [1/2], truncated at squared radius [25/2],
    with maximum impact parameter squared [10], the exact exponential as
    [fast_exp_] and prefactor [1], over the generator above. *)
Definition profile : trento.NucleonProfile :=
  {| trento.field_generator := rect_generator;
     trento.width_sqr_ := 1 / 2;
     trento.trunc_radius_sqr_ := 25 / 2;
     trento.max_impact_sqr_ := 10;
     trento.neg_one_div_two_width_sqr_ := -1;
     trento.cross_sec_param_ := ln (ln 2);
     trento.fast_exp_ := exp;
     trento.prefactor_ := 1 |}.

(** A field generator answer [Kf = 1] for every pair. *)
Definition unit_fluct_norm (g : RFT.rft2d) (fiA fjA fiB fjB : Z) (dx dy : R)
  : R := 1.

(** [rft2d(N1_, N2_, L1_, L2_, Var_Phi_, lx_, seed_, width_)] with the
    stand-ins above. *)
Definition rft2d_new := RFT.rft2d_new P deviates heap heap.

End sample.

(** * Vocabulary of the properties *)

Module Spec.

Local Open Scope R_scope.

(** The spacing [10 sqrt(k) / N] of the quantile grid of an [iCDF] built
    for table size [N] and shape [k], and its [i]-th point. *)
Definition quantile_step (N_ : Z) (k : R) : R := 10 * sqrt k / IZR N_.

Definition quantile (N_ : Z) (k : R) (i : Z) : R := IZR i * quantile_step N_ k.

(** The pairs [(i, j)] visited by
    [for (i = 0; i < N1; i++) for (j = 0; j < N2; j++)], in order. *)
Definition grid (N1_ N2_ : Z) : list (Z * Z) :=
  flat_map (fun i => map (pair i) (Cpp.zrange N2_)) (Cpp.zrange N1_).

(** The flat index [i*N1+j] used by both passes over the workspace. *)
Definition flat_index (N1_ : Z) (p : Z * Z) : Z := (fst p * N1_ + snd p)%Z.

(** The flat indices a pass touches, in order. *)
Definition accessed (N1_ N2_ : Z) : list Z :=
  map (flat_index N1_) (grid N1_ N2_).

(** The largest flat index of a pass over a grid of positive sizes. *)
Definition last_index (N1_ N2_ : Z) : Z := ((N1_ - 1) * N1_ + (N2_ - 1))%Z.

(** No subscript of a pass overflows: the product [i*N1] and the sum
    [i*N1+j] are values of [int] at every pair of the loop nest. *)
Definition subscripts_in_int (N1_ N2_ : Z) : Prop :=
  forall i j : Z, (0 <= i < N1_)%Z -> (0 <= j < N2_)%Z ->
    Cpp.int_range (i * N1_) /\ Cpp.int_range (i * N1_ + j).

(** Every access of a pass falls inside the workspace of [N1*N2] cells and
    every cell of the workspace is touched exactly once. *)
Definition pass_exactly_once (N1_ N2_ : Z) : Prop :=
  Forall (fun k => (0 <= k < N1_ * N2_)%Z) (accessed N1_ N2_)
  /\ forall k, (0 <= k < N1_ * N2_)%Z ->
               count_occ Z.eq_dec (accessed N1_ N2_) k = 1%nat.

(** Both channels of a cell multiplied by [c]. *)
Definition scale (c : R) (z : Cpp.complex) : Cpp.complex :=
  (fst z * c, snd z * c).





(** The entry [t[i][j]] of a table; [None] outside it. *)
Definition table_at (t : list (list R)) (i j : Z) : option R :=
  match RFT.load t i with
  | Some row => RFT.load row j
  | None => None
  end.

(** The same field generator with other contents of the two workspaces and
    another state of its noise generator. *)
Definition with_state (r : RFT.rft2d) (x k : list Cpp.complex)
  (g : RFT.noise_source) : RFT.rft2d :=
  RFT.set_phi_x (RFT.set_phi_k r k) x g.

(** Two field generators agree on everything the constructor computes from
    its arguments: sizes, extents, derived constants, sampler and kernel
    table. *)
Definition same_configuration (r r' : RFT.rft2d) : Prop :=
  RFT.N1 r' = RFT.N1 r /\ RFT.N2 r' = RFT.N2 r
  /\ RFT.L1 r' = RFT.L1 r /\ RFT.L2 r' = RFT.L2 r
  /\ RFT.Var_x r' = RFT.Var_x r /\ RFT.Var_k r' = RFT.Var_k r
  /\ RFT.lx r' = RFT.lx r /\ RFT.coeff_k r' = RFT.coeff_k r
  /\ RFT.dx1 r' = RFT.dx1 r /\ RFT.dx2 r' = RFT.dx2 r
  /\ RFT.dk1 r' = RFT.dk1 r /\ RFT.dk2 r' = RFT.dk2 r
  /\ RFT.icdf r' = RFT.icdf r /\ RFT.width r' = RFT.width r
  /\ RFT.dxy2 r' = RFT.dxy2 r /\ RFT.dxy r' = RFT.dxy r
  /\ RFT.Ncut r' = RFT.Ncut r /\ RFT.TAB_clip r' = RFT.TAB_clip r.

End Spec.

(** * Properties *)

Import Cpp.

(** ** Scalars *)

Lemma ltb_true (a b : R) : ltb a b = true <-> (a < b)%R.
Proof.
  unfold ltb. destruct (Rlt_dec a b); split; intros; try easy.
Qed.

Lemma ltb_false (a b : R) : ltb a b = false <-> (b <= a)%R.
Proof.
  unfold ltb. destruct (Rlt_dec a b); split; intros; try easy; lra.
Qed.

Lemma gtb_true (a b : R) : gtb a b = true <-> (a > b)%R.
Proof. unfold gtb. rewrite ltb_true. lra. Qed.

Lemma gtb_false (a b : R) : gtb a b = false <-> (a <= b)%R.
Proof. unfold gtb. apply ltb_false. Qed.

(** ** The random engine *)

Lemma engine_range (e : random.Engine) :
  (0 <= fst (random.engine e) < 2 ^ 64)%Z.
Proof. cbn [random.engine fst]. apply Z.mod_pos_bound. lia. Qed.

Lemma canonical_advances (e : random.Engine) :
  random.consumed (snd (random.canonical e)) = S (random.consumed e)
  /\ random.raw (snd (random.canonical e)) = random.raw e.
Proof. split; reflexivity. Qed.

Lemma canonical_range (e : random.Engine) :
  (0 <= fst (random.canonical e) < 1)%R.
Proof.
  unfold random.canonical.
  pose proof (engine_range e) as Hr.
  destruct (random.engine e) as [r e']. cbn [fst] in *.
  assert (Hpos : (0 < IZR (2 ^ 64))%R) by (apply IZR_lt; lia).
  assert (H0 : (0 <= IZR r)%R) by (apply IZR_le; lia).
  assert (H1 : (IZR r < IZR (2 ^ 64))%R) by (apply IZR_lt; lia).
  split.
  - apply Rmult_le_pos; [assumption | left; apply Rinv_0_lt_compat; assumption].
  - apply (Rmult_lt_reg_r (IZR (2 ^ 64))); [assumption |].
    unfold Rdiv. rewrite Rmult_assoc, Rinv_l by lra. lra.
Qed.

(** ** Participation *)

Section participation_facts.

Import trento.
Local Open Scope R_scope.

Variable calculate_fluct_norm : RFT.rft2d -> Z -> Z -> Z -> Z -> R -> R -> R.

(** The code's [.25*distance_sqr/width_sqr_] is the spec's
    [d²/(4·width²)]. *)
Lemma quarter_div (d w : R) : 0.25 * d / w = d / (4 * w).
Proof.
  unfold Rdiv. rewrite Rinv_mult. lra.
Qed.

(** C1. A pair that is not already participating on both sides and lies
    within the maximum impact parameter reaches the sampling step: [Kf] is
    obtained from the field generator for the two anchors,
    [q = exp(-Kf * exp(cross_sec_param - d²/(4 width²)))] is formed, exactly
    one uniform [u] of [0,1) is drawn, and the pair is marked and [true]
    returned when [q < u]; otherwise [false] is returned and neither
    nucleon changes. *)
Theorem participate_samples_pair (p : NucleonProfile) (A B : Nucleon)
  (e : random.Engine) :
  is_participant A && is_participant B = false ->
  distance_sqr A B <= max_impact_sqr_ p ->
  let Kf := calculate_fluct_norm (field_generator p) (fi A) (fj A) (fi B) (fj B)
              (x A - x B) (y A - y B) in
  let q := exp (- Kf * exp (cross_sec_param_ p
                            - distance_sqr A B / (4 * width_sqr_ p))) in
  exists (u : R) (e' : random.Engine),
    random.canonical e = (u, e')
    /\ 0 <= u < 1
    /\ random.consumed e' = S (random.consumed e)
    /\ random.raw e' = random.raw e
    /\ (q < u ->
        participate calculate_fluct_norm p A B e = (true, set_participant A, set_participant B, e')
        /\ is_participant (set_participant A) = true
        /\ is_participant (set_participant B) = true)
    /\ (~ q < u -> participate calculate_fluct_norm p A B e = (false, A, B, e')).
Proof.
  intros Hboth Hd Kf q.
  pose proof (canonical_range e) as Hu.
  pose proof (canonical_advances e) as [Hc Hr].
  destruct (random.canonical e) as [u e'] eqn:Hcan.
  cbn [fst snd] in *.
  apply gtb_false in Hd. unfold distance_sqr in Hd.
  assert (Hrun : participate calculate_fluct_norm p A B e =
                 if ltb q u
                 then (true, set_participant A, set_participant B, e')
                 else (false, A, B, e')).
  { unfold trento.participate. rewrite Hboth, Hd, Hcan, quarter_div.
    reflexivity. }
  exists u, e'.
  split; [reflexivity |]. split; [exact Hu |].
  split; [exact Hc |]. split; [exact Hr |]. split.
  - intros Hq. apply ltb_true in Hq. rewrite Hrun, Hq. auto.
  - intros Hq. rewrite Hrun.
    replace (ltb q u) with false; [reflexivity |].
    symmetry. apply ltb_false. lra.
Qed.

(** C2. The two early exits of [participate] draw nothing and change
    nothing: a pair whose two nucleons both participate already yields
    [true]; a pair not in that case whose squared distance exceeds the
    maximum impact parameter squared yields [false], whatever the field
    generator holds.  Every other call draws exactly one uniform. *)
Theorem participate_draw_count (p : NucleonProfile) (A B : Nucleon)
  (e : random.Engine) :
  let '(res, A', B', e') := participate calculate_fluct_norm p A B e in
  random.raw e' = random.raw e
  /\ (if is_participant A && is_participant B
      then res = true /\ A' = A /\ B' = B /\ e' = e
      else if gtb (distance_sqr A B) (max_impact_sqr_ p)
           then res = false /\ A' = A /\ B' = B /\ e' = e
           else random.consumed e' = S (random.consumed e)).
Proof.
  unfold trento.participate, distance_sqr.
  destruct (is_participant A && is_participant B).
  - repeat split.
  - destruct (gtb _ (max_impact_sqr_ p)).
    + repeat split.
    + pose proof (canonical_advances e) as [Hc Hr].
      destruct (random.canonical e) as [u e']. cbn [snd] in *.
      match goal with |- context [ltb ?a ?b] => destruct (ltb a b) end;
        split; assumption.
Qed.

End participation_facts.

(** ** Anchor indices *)

Lemma int_of_double_IZR (z : Z) : int_of_double (IZR z) = z.
Proof.
  unfold int_of_double. destruct (Rle_dec 0 (IZR z)) as [H | H].
  - symmetry. apply Int_part_spec. lra.
  - rewrite <- opp_IZR.
    assert (Hz : (- z)%Z = Int_part (IZR (- z))) by (apply Int_part_spec; lra).
    lia.
Qed.

(** What the constructor stores: sizes as given and the half-width
    [int(3.0*width_*N1_/L1_)]. *)
Lemma rft2d_new_fields (P : R -> R -> R) (dev : Z -> nat -> R)
  (hx hk : nat -> complex) (N1_ N2_ : Z) (L1_ L2_ Var_Phi_ lx_ : R)
  (seed_ : Z) (width_ : R) (r : RFT.rft2d) :
  RFT.rft2d_new P dev hx hk N1_ N2_ L1_ L2_ Var_Phi_ lx_ seed_ width_ = inr r ->
  RFT.N1 r = N1_ /\ RFT.N2 r = N2_
  /\ RFT.Ncut r = int_of_double (3 * width_ * IZR N1_ / L1_)%R
  /\ RFT.width r = width_
  /\ RFT.dxy2 r = (L1_ * L2_ / IZR N1_ / IZR N2_)%R.
Proof.
  unfold RFT.rft2d_new, RFT.iCDF_new, RFT.new_array. cbn [Z.ltb Z.compare].
  destruct (_ <? 0)%Z; [discriminate |].
  intros H. injection H as <-. cbn. repeat split.
Qed.

(** Every anchor index is [25] plus a remainder modulo [1950]. *)
Lemma set_position_anchor_range (n : trento.Nucleon) (x y : R)
  (e : random.Engine) :
  let n' := fst (trento.set_position n x y e) in
  (25 <= trento.fi n' <= 1974 /\ 25 <= trento.fj n' <= 1974)%Z.
Proof.
  unfold trento.set_position, random.engine, trento.fi, trento.fj.
  cbn [fst trento.fi_ trento.fj_ random.raw random.consumed].
  pose proof (Z.mod_pos_bound (random.raw e (random.consumed e) mod 2 ^ 64) 1950).
  pose proof (Z.mod_pos_bound (random.raw e (S (random.consumed e)) mod 2 ^ 64) 1950).
  lia.
Qed.

(** C3, as the code has it. The anchors drawn by [set_position] lie in
    [25, 1974] whatever the grid is; for a generator whose half-width [cut]
    is at most [25] on a grid of at least [1975 + cut] cells per side, both
    [anchor - cut] and [anchor + cut] are indices of the grid. *)
Theorem anchors_within_grid (P : R -> R -> R) (dev : Z -> nat -> R)
  (hx hk : nat -> complex) (N1_ N2_ : Z) (L1_ L2_ Var_Phi_ lx_ : R)
  (seed_ : Z) (width_ : R) (r : RFT.rft2d)
  (n : trento.Nucleon) (x y : R) (e : random.Engine) :
  RFT.rft2d_new P dev hx hk N1_ N2_ L1_ L2_ Var_Phi_ lx_ seed_ width_ = inr r ->
  let cut := int_of_double (3 * width_ * IZR N1_ / L1_)%R in
  (cut <= 25)%Z -> (1975 + cut <= N1_)%Z -> (1975 + cut <= N2_)%Z ->
  let n' := fst (trento.set_position n x y e) in
  (25 <= trento.fi n' <= 1974 /\ 25 <= trento.fj n' <= 1974
   /\ 0 <= trento.fi n' - RFT.Ncut r /\ trento.fi n' + RFT.Ncut r <= RFT.N1 r - 1
   /\ 0 <= trento.fj n' - RFT.Ncut r /\ trento.fj n' + RFT.Ncut r <= RFT.N2 r - 1)%Z.
Proof.
  intros Hnew cut Hcut H1 H2 n'.
  apply rft2d_new_fields in Hnew as (-> & -> & -> & _).
  fold cut.
  pose proof (set_position_anchor_range n x y e) as Hr. cbv zeta in Hr.
  fold n' in Hr. lia.
Qed.

Lemma anchors_within_grid_witness :
  exists r : RFT.rft2d,
    sample.rft2d_new 2000 2000 20 20 1 1 0 (1 / 20) = inr r
    /\ (0 <= trento.fi (fst (trento.set_position (sample.nucleon_at 0 0 false)
                               0 0 sample.engine_1000)) - RFT.Ncut r)%Z.
Proof.
  assert (Hcut : int_of_double (3 * (1 / 20) * IZR 2000 / 20)%R = 15%Z).
  { replace (3 * (1 / 20) * IZR 2000 / 20)%R with (IZR 15) by lra.
    apply int_of_double_IZR. }
  destruct (sample.rft2d_new 2000 2000 20 20 1 1 0 (1 / 20)) as [ex | r] eqn:Hnew.
  - exfalso. revert Hnew.
    unfold sample.rft2d_new, RFT.rft2d_new, RFT.iCDF_new, RFT.new_array.
    rewrite Hcut. cbn [Z.ltb Z.compare Z.mul Z.add Pos.mul Pos.add Pos.succ].
    discriminate.
  - exists r. split; [reflexivity |].
    apply (anchors_within_grid sample.P sample.deviates sample.heap sample.heap
             2000 2000 20 20 1 1 0 (1 / 20) r
             (sample.nucleon_at 0 0 false) 0 0 sample.engine_1000 Hnew);
      rewrite Hcut; lia.
Defined.

(** The claim of C3 for every grid fails: on a 100 by 100 grid with
    [cut = 3] an anchor drawn by [set_position] is [1025]. *)
Lemma anchors_escape_small_grid :
  ~ (forall (N1_ N2_ : Z) (L1_ L2_ Var_Phi_ lx_ : R) (seed_ : Z) (width_ : R)
            (r : RFT.rft2d) (n : trento.Nucleon) (x y : R) (e : random.Engine),
        sample.rft2d_new N1_ N2_ L1_ L2_ Var_Phi_ lx_ seed_ width_ = inr r ->
        let n' := fst (trento.set_position n x y e) in
        (0 <= trento.fi n' - RFT.Ncut r
         /\ trento.fi n' + RFT.Ncut r <= RFT.N1 r - 1
         /\ 0 <= trento.fj n' - RFT.Ncut r
         /\ trento.fj n' + RFT.Ncut r <= RFT.N2 r - 1)%Z).
Proof.
  intros H.
  assert (Hcut : int_of_double (3 * 1 * IZR 100 / 100)%R = 3%Z).
  { replace (3 * 1 * IZR 100 / 100)%R with (IZR 3) by lra.
    apply int_of_double_IZR. }
  destruct (sample.rft2d_new 100 100 100 100 1 1 0 1) as [ex | r] eqn:Hnew.
  - revert Hnew.
    unfold sample.rft2d_new, RFT.rft2d_new, RFT.iCDF_new, RFT.new_array.
    rewrite Hcut. cbn [Z.ltb Z.compare Z.mul Z.add Pos.mul Pos.add Pos.succ].
    discriminate.
  - specialize (H 100%Z 100%Z 100%R 100%R 1%R 1%R 0%Z 1%R r
                  (sample.nucleon_at 0 0 false) 0%R 0%R sample.engine_1000 Hnew).
    apply rft2d_new_fields in Hnew as (HN1 & _ & HNcut & _).
    rewrite Hcut in HNcut. rewrite HN1, HNcut in H.
    cbn in H. lia.
Qed.

Lemma participate_samples_pair_witness :
  exists (u : R) (e' : random.Engine),
    random.canonical sample.engine_half = (u, e')
    /\ random.consumed e' = 1%nat.
Proof.
  destruct (participate_samples_pair sample.unit_fluct_norm sample.profile
              (sample.nucleon_at 0 0 false) (sample.nucleon_at 1 1 true)
              sample.engine_half)
    as (u & e' & Hcan & _ & Hc & _).
  - reflexivity.
  - unfold trento.distance_sqr. cbn. lra.
  - exists u, e'. split; [exact Hcan | exact Hc].
Defined.

(** ** Thickness *)

Section thickness_facts.

Import trento.
Local Open Scope R_scope.

Lemma thickness_beyond (p : NucleonProfile) (d : R) :
  d > trunc_radius_sqr_ p -> thickness p d = 0.
Proof.
  intros H. unfold thickness. apply gtb_true in H. rewrite H. reflexivity.
Qed.

Lemma thickness_within (p : NucleonProfile) (d : R) :
  d <= trunc_radius_sqr_ p ->
  thickness p d
  = prefactor_ p * fast_exp_ p (neg_one_div_two_width_sqr_ p * d).
Proof.
  intros H. unfold thickness. apply gtb_false in H. rewrite H. reflexivity.
Qed.

(** A function that vanishes to the right of [t] and is continuous at [t]
    vanishes at [t]. *)
Lemma continuity_forces_zero (f : R -> R) (t : R) :
  (forall d, d > t -> f d = 0) -> continuity_pt f t -> f t = 0.
Proof.
  intros Hright Hcont.
  destruct (Req_dec (f t) 0) as [Hz | Hnz]; [exact Hz | exfalso].
  assert (Heps : Rabs (f t) > 0) by (apply Rabs_pos_lt; exact Hnz).
  destruct (Hcont (Rabs (f t)) Heps) as (alp & Halp & Hclose).
  specialize (Hclose (t + alp / 2)).
  unfold D_x, no_cond, dist in Hclose. cbn in Hclose. unfold R_dist in Hclose.
  rewrite (Hright (t + alp / 2)) in Hclose by lra.
  replace (t + alp / 2 - t) with (alp / 2) in Hclose by lra.
  rewrite Rabs_pos_eq in Hclose by lra.
  replace (0 - f t) with (- f t) in Hclose by lra.
  rewrite Rabs_Ropp in Hclose.
  assert (Rabs (f t) < Rabs (f t)); [| lra].
  apply Hclose. split; [split; [exact I | lra] | lra].
Qed.

(** C4, as the code has it. With the cached coefficient equal to
    [-1/(2 width²)], [thickness] is exactly [0] beyond the truncation radius
    squared and [prefactor * fast_exp(-d/(2 width²))] up to and including it;
    at the truncation radius the value is the Gaussian one while it is [0]
    immediately beyond, so [thickness] is continuous there only when that
    boundary value is [0]. *)
Theorem thickness_truncated_gaussian (p : NucleonProfile) (d : R) :
  neg_one_div_two_width_sqr_ p = -1 / (2 * width_sqr_ p) ->
  (d > trunc_radius_sqr_ p -> thickness p d = 0)
  /\ (d <= trunc_radius_sqr_ p ->
      thickness p d = prefactor_ p * fast_exp_ p (- d / (2 * width_sqr_ p)))
  /\ (continuity_pt (thickness p) (trunc_radius_sqr_ p) ->
      prefactor_ p
      * fast_exp_ p (- trunc_radius_sqr_ p / (2 * width_sqr_ p)) = 0).
Proof.
  intros Hneg.
  assert (Hcoef : forall t, neg_one_div_two_width_sqr_ p * t
                            = - t / (2 * width_sqr_ p)).
  { intros t. rewrite Hneg. unfold Rdiv. ring. }
  split; [apply thickness_beyond |]. split.
  - intros H. rewrite thickness_within by exact H. rewrite Hcoef. reflexivity.
  - intros Hcont. rewrite <- Hcoef.
    rewrite <- (thickness_within p (trunc_radius_sqr_ p)) by lra.
    apply continuity_forces_zero; [| exact Hcont].
    intros t Ht. apply thickness_beyond. exact Ht.
Qed.

End thickness_facts.

Lemma thickness_truncated_gaussian_witness :
  trento.thickness sample.profile 2
  = (trento.prefactor_ sample.profile
     * trento.fast_exp_ sample.profile
         (- 2 / (2 * trento.width_sqr_ sample.profile)))%R.
Proof.
  apply (thickness_truncated_gaussian sample.profile 2).
  - cbn. lra.
  - cbn. lra.
Defined.

(** The claim of C4 that [thickness] is continuous at the truncation
    boundary fails: for the sample profile the value at the boundary is
    [exp(-25/2)], not [0]. *)
Lemma thickness_jumps_at_truncation :
  ~ continuity_pt (trento.thickness sample.profile)
      (trento.trunc_radius_sqr_ sample.profile).
Proof.
  intros Hcont.
  pose proof (continuity_forces_zero _ _
                (fun d H => thickness_beyond sample.profile d H) Hcont) as Hz.
  rewrite thickness_within in Hz by lra.
  cbn in Hz. rewrite Rmult_1_l in Hz.
  pose proof (exp_pos (-1 * (25 / 2))). lra.
Qed.

(** ** Linear interpolation *)

Section interpolation.

Local Open Scope R_scope.

Lemma linear_segment_mono (x0 x1 y0 y1 u v : R) :
  y0 <= y1 -> u <= v ->
  RFT.linear_segment x0 x1 y0 y1 u <= RFT.linear_segment x0 x1 y0 y1 v.
Proof.
  intros Hy Huv. unfold RFT.linear_segment.
  destruct (Rlt_dec 0 (x1 - x0)) as [Hdx | Hdx]; [| lra].
  apply Rplus_le_compat_l, Rmult_le_compat_r; [lra |].
  apply Rmult_le_compat_r; [| lra].
  left. apply Rinv_0_lt_compat. exact Hdx.
Qed.

Lemma linear_segment_left (x0 x1 y0 y1 : R) :
  x0 < x1 -> RFT.linear_segment x0 x1 y0 y1 x0 = y0.
Proof.
  intros Hx. unfold RFT.linear_segment.
  destruct (Rlt_dec 0 (x1 - x0)) as [Hdx | Hdx]; [| lra].
  unfold Rdiv. ring.
Qed.

Lemma linear_segment_right (x0 x1 y0 y1 : R) :
  x0 < x1 -> RFT.linear_segment x0 x1 y0 y1 x1 = y1.
Proof.
  intros Hx. unfold RFT.linear_segment.
  destruct (Rlt_dec 0 (x1 - x0)) as [Hdx | Hdx]; [| lra].
  field. lra.
Qed.

Lemma spline_eval_last (x0 x1 y0 y1 : R) (yt : list R) (x : R) :
  RFT.gsl_spline_eval [x0; x1] (y0 :: y1 :: yt) x
  = RFT.linear_segment x0 x1 y0 y1 x.
Proof. reflexivity. Qed.

Lemma spline_eval_step (x0 x1 x2 y0 y1 : R) (xr yt : list R) (x : R) :
  RFT.gsl_spline_eval (x0 :: x1 :: x2 :: xr) (y0 :: y1 :: yt) x
  = if Rlt_dec x x1 then RFT.linear_segment x0 x1 y0 y1 x
    else RFT.gsl_spline_eval (x1 :: x2 :: xr) (y1 :: yt) x.
Proof. reflexivity. Qed.

(** At or right of the first abscissa the interpolant is at least the first
    ordinate. *)
Lemma spline_eval_lower (xa ya : list R) (v : R) :
  length xa = length ya -> (2 <= length xa)%nat ->
  Sorted Rlt xa -> Sorted Rle ya ->
  hd 0 xa <= v -> hd 0 ya <= RFT.gsl_spline_eval xa ya v.
Proof.
  revert ya. induction xa as [| x0 xt IH]; intros ya Hlen Hn Hxs Hys Hv.
  - cbn in Hn. lia.
  - destruct xt as [| x1 xr]; [cbn in Hn; lia |].
    destruct ya as [| y0 [| y1 yt]]; try discriminate.
    apply Sorted_inv in Hxs as [Hxs Hx01]. apply HdRel_inv in Hx01.
    apply Sorted_inv in Hys as [Hys Hy01]. apply HdRel_inv in Hy01.
    cbn [hd] in *.
    assert (Hseg : y0 <= RFT.linear_segment x0 x1 y0 y1 v).
    { rewrite <- (linear_segment_left x0 x1 y0 y1 Hx01) at 1.
      apply linear_segment_mono; assumption. }
    destruct xr as [| x2 xr].
    + rewrite spline_eval_last. exact Hseg.
    + rewrite spline_eval_step. destruct (Rlt_dec v x1) as [Hlt | Hge].
      * exact Hseg.
      * apply Rle_trans with y1; [exact Hy01 |].
        apply (IH (y1 :: yt)); cbn [length hd] in *; try lia; try assumption.
        lra.
Qed.

Lemma sorted_head_le_last (a : R) (l : list R) :
  Sorted Rle (a :: l) -> a <= last (a :: l) 0.
Proof.
  revert a. induction l as [| b l IH]; intros a Hs.
  - cbn. lra.
  - apply Sorted_inv in Hs as [Hs Hab]. apply HdRel_inv in Hab.
    change (last (a :: b :: l) 0) with (last (b :: l) 0).
    apply Rle_trans with b; [exact Hab | apply IH; exact Hs].
Qed.

(** At or left of the last abscissa the interpolant is at most the last
    ordinate. *)
Lemma spline_eval_upper (xa ya : list R) (u : R) :
  length xa = length ya -> (2 <= length xa)%nat ->
  Sorted Rlt xa -> Sorted Rle ya ->
  u <= last xa 0 -> RFT.gsl_spline_eval xa ya u <= last ya 0.
Proof.
  revert ya. induction xa as [| x0 xt IH]; intros ya Hlen Hn Hxs Hys Hu.
  - cbn in Hn. lia.
  - destruct xt as [| x1 xr]; [cbn in Hn; lia |].
    destruct ya as [| y0 [| y1 yt]]; try discriminate.
    apply Sorted_inv in Hxs as [Hxs Hx01]. apply HdRel_inv in Hx01.
    apply Sorted_inv in Hys as [Hys Hy01]. apply HdRel_inv in Hy01.
    assert (Hseg : forall t, t <= x1 -> RFT.linear_segment x0 x1 y0 y1 t <= y1).
    { intros t Ht. rewrite <- (linear_segment_right x0 x1 y0 y1 Hx01) at 2.
      apply linear_segment_mono; assumption. }
    destruct xr as [| x2 xr].
    + destruct yt as [| y2 yt]; [| discriminate].
      rewrite spline_eval_last. cbn [last] in *. apply Hseg. exact Hu.
    + destruct yt as [| y2 yt]; [discriminate |].
      rewrite spline_eval_step.
      change (last (x0 :: x1 :: x2 :: xr) 0) with (last (x1 :: x2 :: xr) 0) in Hu.
      change (last (y0 :: y1 :: y2 :: yt) 0) with (last (y1 :: y2 :: yt) 0).
      destruct (Rlt_dec u x1) as [Hlt | Hge].
      * apply Rle_trans with y1; [apply Hseg; lra |].
        apply sorted_head_le_last. exact Hys.
      * apply (IH (y1 :: y2 :: yt)); cbn [length] in *; try lia; assumption.
Qed.

(** The interpolant of nondecreasing ordinates over increasing abscissae is
    nondecreasing. *)
Lemma spline_eval_mono (xa ya : list R) (u v : R) :
  length xa = length ya -> (2 <= length xa)%nat ->
  Sorted Rlt xa -> Sorted Rle ya ->
  u <= v -> RFT.gsl_spline_eval xa ya u <= RFT.gsl_spline_eval xa ya v.
Proof.
  revert ya. induction xa as [| x0 xt IH]; intros ya Hlen Hn Hxs Hys Huv.
  - cbn in Hn. lia.
  - destruct xt as [| x1 xr]; [cbn in Hn; lia |].
    destruct ya as [| y0 [| y1 yt]]; try discriminate.
    pose proof Hxs as Hxs0. pose proof Hys as Hys0.
    apply Sorted_inv in Hxs as [Hxs Hx01]. apply HdRel_inv in Hx01.
    apply Sorted_inv in Hys as [Hys Hy01]. apply HdRel_inv in Hy01.
    destruct xr as [| x2 xr].
    + rewrite !spline_eval_last. apply linear_segment_mono; assumption.
    + rewrite !spline_eval_step.
      destruct (Rlt_dec u x1) as [Hu | Hu], (Rlt_dec v x1) as [Hv | Hv].
      * apply linear_segment_mono; assumption.
      * apply Rle_trans with y1.
        -- rewrite <- (linear_segment_right x0 x1 y0 y1 Hx01) at 2.
           apply linear_segment_mono; [assumption | lra].
        -- apply (spline_eval_lower (x1 :: x2 :: xr) (y1 :: yt));
             cbn [length hd] in *; try lia; try assumption. lra.
      * lra.
      * apply (IH (y1 :: yt)); cbn [length] in *; try lia; assumption.
Qed.

(** On the segment that holds [u] the interpolant is the straight line
    through the two tabulated points. *)
Lemma spline_eval_interpolates (xa ya : list R) (i : nat) (u : R)
  (x_lo x_hi y_lo y_hi : R) :
  length xa = length ya -> Sorted Rlt xa ->
  nth_error xa i = Some x_lo -> nth_error xa (S i) = Some x_hi ->
  nth_error ya i = Some y_lo -> nth_error ya (S i) = Some y_hi ->
  x_lo <= u <= x_hi ->
  RFT.gsl_spline_eval xa ya u
  = y_lo + (u - x_lo) / (x_hi - x_lo) * (y_hi - y_lo).
Proof.
  revert xa ya.
  induction i as [| i IH]; intros xa ya Hlen Hxs Hx0 Hx1 Hy0 Hy1 Hu.
  - destruct xa as [| x0 [| x1 xr]]; try discriminate.
    destruct ya as [| y0 [| y1 yt]]; try discriminate.
    cbn in Hx0, Hx1, Hy0, Hy1.
    injection Hx0 as ->. injection Hx1 as ->.
    injection Hy0 as ->. injection Hy1 as ->.
    apply Sorted_inv in Hxs as [Hxs Hx01]. apply HdRel_inv in Hx01.
    assert (Hseg : forall t, RFT.linear_segment x_lo x_hi y_lo y_hi t
                   = y_lo + (t - x_lo) / (x_hi - x_lo) * (y_hi - y_lo)).
    { intros t. unfold RFT.linear_segment.
      destruct (Rlt_dec 0 (x_hi - x_lo)); [reflexivity | lra]. }
    destruct xr as [| x2 xr].
    + rewrite spline_eval_last. apply Hseg.
    + rewrite spline_eval_step. destruct (Rlt_dec u x_hi) as [Hlt | Hge].
      * apply Hseg.
      * assert (u = x_hi) by lra. subst u.
        apply Sorted_inv in Hxs as [Hxs Hx12]. apply HdRel_inv in Hx12.
        replace (y_lo + (x_hi - x_lo) / (x_hi - x_lo) * (y_hi - y_lo))
          with y_hi by (field; lra).
        destruct yt as [| y2 yt]; [discriminate |].
        destruct xr as [| x3 xr].
        -- rewrite spline_eval_last. apply linear_segment_left. exact Hx12.
        -- rewrite spline_eval_step. destruct (Rlt_dec x_hi x2); [| lra].
           apply linear_segment_left. exact Hx12.
  - destruct xa as [| x0 [| x1 xr]];
      try discriminate; try (destruct i; discriminate).
    destruct ya as [| y0 [| y1 yt]];
      try discriminate; try (destruct i; discriminate).
    cbn [nth_error] in Hx0, Hx1, Hy0, Hy1.
    apply Sorted_inv in Hxs as [Hxs Hx01]. apply HdRel_inv in Hx01.
    assert (Hx1u : x1 <= u).
    { apply Rle_trans with x_lo; [| lra].
      clear - Hxs Hx0. revert x1 xr Hxs Hx0.
      induction i as [| i IHi]; intros x1 xr Hxs Hx0.
      - cbn in Hx0. injection Hx0 as ->. lra.
      - destruct xr as [| x2 xr]; [destruct i; discriminate |].
        apply Sorted_inv in Hxs as [Hxs H]. apply HdRel_inv in H.
        apply Rle_trans with x2; [lra |].
        apply (IHi x2 xr Hxs). exact Hx0. }
    destruct xr as [| x2 xr]; [destruct i; discriminate |].
    rewrite spline_eval_step. destruct (Rlt_dec u x1) as [Hlt | Hge]; [lra |].
    apply (IH (x1 :: x2 :: xr) (y1 :: yt)); try assumption.
    cbn [length] in *. lia.
Qed.

End interpolation.

(** ** Loop ranges and tables *)

Lemma zrange_length (n : Z) : length (zrange n) = Z.to_nat n.
Proof. unfold zrange. rewrite length_map, length_seq. reflexivity. Qed.

Lemma zrange_nth_error (n i : Z) :
  (0 <= i < n)%Z -> nth_error (zrange n) (Z.to_nat i) = Some i.
Proof.
  intros Hi. unfold zrange.
  rewrite nth_error_map.
  rewrite (nth_error_nth' _ O) by (rewrite length_seq; lia).
  rewrite seq_nth by lia. cbn. f_equal. lia.
Qed.

Lemma load_map_zrange {A : Type} (f : Z -> A) (n i : Z) :
  (0 <= i < n)%Z -> RFT.load (map f (zrange n)) i = Some (f i).
Proof.
  intros Hi. unfold RFT.load.
  destruct (Z.leb_spec 0 i); [| lia].
  rewrite nth_error_map, zrange_nth_error by lia. reflexivity.
Qed.

Lemma zrange_succ (n : Z) : (0 <= n)%Z -> zrange (n + 1) = zrange n ++ [n].
Proof.
  intros Hn. unfold zrange.
  replace (Z.to_nat (n + 1)) with (S (Z.to_nat n)) by lia.
  rewrite seq_S, map_app. cbn. do 2 f_equal. lia.
Qed.

Lemma last_map_zrange (f : Z -> R) (n : Z) :
  (1 <= n)%Z -> last (map f (zrange n)) 0%R = f (n - 1)%Z.
Proof.
  intros Hn. replace n with (n - 1 + 1)%Z at 1 by lia.
  rewrite zrange_succ by lia. rewrite map_app. cbn [map].
  apply last_last.
Qed.

Lemma hd_map_zrange (f : Z -> R) (n : Z) :
  (1 <= n)%Z -> hd 0%R (map f (zrange n)) = f 0%Z.
Proof.
  intros Hn. unfold zrange.
  destruct (Z.to_nat n) as [| m] eqn:Hm; [lia |]. reflexivity.
Qed.

Lemma Sorted_map_seq {A : Type} (rel : A -> A -> Prop) (f : nat -> A)
  (a m : nat) :
  (forall i, (a <= i)%nat -> (S i < a + m)%nat -> rel (f i) (f (S i))) ->
  Sorted rel (map f (seq a m)).
Proof.
  revert a. induction m as [| m IH]; intros a Hstep.
  - constructor.
  - cbn [seq map]. constructor.
    + apply IH. intros i H1 H2. apply Hstep; lia.
    + destruct m as [| m]; cbn [seq map]; constructor.
      apply Hstep; lia.
Qed.

Lemma Sorted_map_zrange {A : Type} (rel : A -> A -> Prop) (f : Z -> A) (n : Z) :
  (forall i, (0 <= i)%Z -> (i + 1 < n)%Z -> rel (f i) (f (i + 1)%Z)) ->
  Sorted rel (map f (zrange n)).
Proof.
  intros Hstep. unfold zrange. rewrite map_map.
  apply Sorted_map_seq. intros i H1 H2.
  replace (Z.of_nat (S i)) with (Z.of_nat i + 1)%Z by lia.
  apply Hstep; lia.
Qed.

(** ** The inverse CDF sampler *)

Section iCDF_facts.

Local Open Scope R_scope.

Variable gsl_sf_gamma_inc_P : R -> R -> R.
Variable gsl_sf_erf_Q : R -> R.
Variable N_ : Z.
Variable k : R.

Local Abbreviation dx := (Spec.quantile_step N_ k).
Local Abbreviation xq := (Spec.quantile N_ k).

Lemma iCDF_new_tables (c : RFT.iCDF) :
  (0 <= N_)%Z ->
  RFT.iCDF_new gsl_sf_gamma_inc_P N_ k = inr c ->
  RFT.N c = N_ /\ RFT.fluct c = k /\ RFT.dx_gamma c = dx
  /\ RFT.x_gamma c = map xq (zrange N_)
  /\ RFT.y_gamma_cdf c = map (fun i => gsl_sf_gamma_inc_P k (xq i)) (zrange N_).
Proof.
  intros HN. unfold RFT.iCDF_new, RFT.new_array.
  destruct (Z.ltb_spec N_ 0); [lia |].
  intros Hc. injection Hc as <-. cbn. rewrite map_map. repeat split.
Qed.

Hypothesis shape_positive : 0 < k.
Hypothesis table_size : (2 <= N_)%Z.

Lemma dx_positive : 0 < dx.
Proof.
  unfold Spec.quantile_step. apply Rdiv_lt_0_compat.
  - apply Rmult_lt_0_compat; [lra | apply sqrt_lt_R0; exact shape_positive].
  - apply IZR_lt. lia.
Qed.

Lemma xq_increasing (i j : Z) : (i < j)%Z -> xq i < xq j.
Proof.
  intros Hij. unfold Spec.quantile. apply Rmult_lt_compat_r; [apply dx_positive |].
  apply IZR_lt. exact Hij.
Qed.

Lemma xq_nonneg (i : Z) : (0 <= i)%Z -> 0 <= xq i.
Proof.
  intros Hi. unfold Spec.quantile. apply Rmult_le_pos; [apply IZR_le; exact Hi |].
  left. apply dx_positive.
Qed.

Lemma xq_below_top (i : Z) : (i < N_)%Z -> xq i < 10 * sqrt k.
Proof.
  intros Hi. unfold Spec.quantile, Spec.quantile_step.
  assert (HN : 0 < IZR N_) by (apply IZR_lt; lia).
  assert (Hs : 0 < 10 * sqrt k)
    by (apply Rmult_lt_0_compat; [lra | apply sqrt_lt_R0; exact shape_positive]).
  replace (10 * sqrt k) with (IZR N_ * (10 * sqrt k / IZR N_)) at 2
    by (field; lra).
  apply Rmult_lt_compat_r; [| apply IZR_lt; exact Hi].
  apply Rdiv_lt_0_compat; assumption.
Qed.

Lemma x_gamma_sorted : Sorted Rlt (map xq (zrange N_)).
Proof.
  apply Sorted_map_zrange. intros i _ _. apply xq_increasing. lia.
Qed.

Lemma Sorted_lt_le (l : list R) : Sorted Rlt l -> Sorted Rle l.
Proof.
  induction 1 as [| a l Hs IH Hhd]; constructor; [exact IH |].
  destruct Hhd; constructor. lra.
Qed.

(** [P(k, .)] is strictly increasing on the nonnegative reals. *)
Hypothesis P_increasing :
  forall x1 x2, 0 <= x1 -> x1 < x2 ->
                gsl_sf_gamma_inc_P k x1 < gsl_sf_gamma_inc_P k x2.

Lemma y_gamma_cdf_sorted :
  Sorted Rlt (map (fun i => gsl_sf_gamma_inc_P k (xq i)) (zrange N_)).
Proof.
  apply Sorted_map_zrange. intros i Hi _.
  apply P_increasing; [apply xq_nonneg; exact Hi | apply xq_increasing; lia].
Qed.

(** [Q] is nonincreasing, as the upper tail of a distribution is. *)
Hypothesis Q_decreasing :
  forall g1 g2, g1 < g2 -> gsl_sf_erf_Q g2 <= gsl_sf_erf_Q g1.

Local Abbreviation Pk := (gsl_sf_gamma_inc_P k).

(** The value returned by [operator()] as a function of [cdf], for the
    tables of a constructed sampler. *)
Lemma iCDF_call_branches (c : RFT.iCDF) (g : R) :
  RFT.iCDF_new gsl_sf_gamma_inc_P N_ k = inr c ->
  let cdf := 1 - gsl_sf_erf_Q g in
  RFT.iCDF_call gsl_sf_erf_Q c g =
  Some (if ltb cdf (Pk (xq 0)) then xq 0 / k
        else if gtb cdf (Pk (xq (N_ - 1))) then xq (N_ - 1) / k
        else
          let result :=
            RFT.gsl_spline_eval (RFT.y_gamma_cdf c) (RFT.x_gamma c) cdf / k in
          if ltb result 0 then 0 else result).
Proof.
  intros Hnew cdf.
  destruct (iCDF_new_tables c ltac:(lia) Hnew) as (HN & Hk & _ & Hx & Hy).
  unfold RFT.iCDF_call. rewrite HN, Hk, Hx, Hy.
  rewrite !load_map_zrange by lia. subst cdf. cbv zeta.
  repeat match goal with |- context [if ?b then _ else _] => destruct b end;
    reflexivity.
Qed.

Lemma interpolant_range (c : RFT.iCDF) (u : R) :
  RFT.iCDF_new gsl_sf_gamma_inc_P N_ k = inr c ->
  Pk (xq 0) <= u <= Pk (xq (N_ - 1)) ->
  xq 0 <= RFT.gsl_spline_eval (RFT.y_gamma_cdf c) (RFT.x_gamma c) u
       <= xq (N_ - 1).
Proof.
  intros Hnew [Hlo Hhi].
  destruct (iCDF_new_tables c ltac:(lia) Hnew) as (_ & _ & _ & Hx & Hy).
  rewrite Hx, Hy.
  assert (Hlen : length (map (fun i => Pk (xq i)) (zrange N_))
                 = length (map xq (zrange N_)))
    by (rewrite !length_map; reflexivity).
  assert (Hn : (2 <= length (map (fun i => Pk (xq i)) (zrange N_)))%nat)
    by (rewrite length_map, zrange_length; lia).
  split.
  - rewrite <- (hd_map_zrange xq N_) by lia.
    apply spline_eval_lower; try assumption.
    + apply y_gamma_cdf_sorted.
    + apply Sorted_lt_le, x_gamma_sorted.
    + rewrite (hd_map_zrange (fun i => Pk (xq i))) by lia. exact Hlo.
  - rewrite <- (last_map_zrange xq N_) by lia.
    apply spline_eval_upper; try assumption.
    + apply y_gamma_cdf_sorted.
    + apply Sorted_lt_le, x_gamma_sorted.
    + rewrite (last_map_zrange (fun i => Pk (xq i))) by lia. exact Hhi.
Qed.

Lemma xq_zero : xq 0 = 0.
Proof. unfold Spec.quantile. ring. Qed.

(** C5. The sampler built for a positive shape [k] with a table of at
    least two points, from a [P(k, .)] increasing on the nonnegative reals
    and a nonincreasing [Q], returns a value for every deviate; the value is
    nonnegative, and for [g1 < g2] the value at [g1] is at most the value at
    [g2]. *)
Theorem iCDF_total_monotone_nonnegative (c : RFT.iCDF) :
  RFT.iCDF_new gsl_sf_gamma_inc_P N_ k = inr c ->
  (forall g, exists v, RFT.iCDF_call gsl_sf_erf_Q c g = Some v /\ 0 <= v)
  /\ (forall g1 g2 v1 v2,
        g1 < g2 ->
        RFT.iCDF_call gsl_sf_erf_Q c g1 = Some v1 ->
        RFT.iCDF_call gsl_sf_erf_Q c g2 = Some v2 ->
        v1 <= v2).
Proof.
  intros Hnew.
  pose proof (xq_nonneg (N_ - 1) ltac:(lia)) as HxL.
  pose proof xq_zero as Hx0.
  assert (Hdiv : forall a b, a <= b -> a / k <= b / k).
  { intros a b Hab. apply Rmult_le_compat_r; [| exact Hab].
    left. apply Rinv_0_lt_compat. exact shape_positive. }
  assert (Hnonneg : forall g v,
             RFT.iCDF_call gsl_sf_erf_Q c g = Some v -> 0 <= v).
  { intros g v. rewrite (iCDF_call_branches c g Hnew). cbv zeta.
    intros Hv. injection Hv as <-.
    destruct (ltb _ (Pk (xq 0))).
    - rewrite Hx0. unfold Rdiv. lra.
    - destruct (gtb _ (Pk (xq (N_ - 1)))).
      + replace 0 with (0 / k) by (unfold Rdiv; ring). apply Hdiv. exact HxL.
      + destruct (ltb _ 0) eqn:Hneg; [lra |].
        apply ltb_false in Hneg. exact Hneg. }
  split.
  - intros g. rewrite (iCDF_call_branches c g Hnew). cbv zeta.
    eexists. split; [reflexivity |].
    apply (Hnonneg g). rewrite (iCDF_call_branches c g Hnew). reflexivity.
  - intros g1 g2 v1 v2 Hg H1 H2.
    pose proof (Hnonneg _ _ H2) as Hv2.
    revert H1 H2.
    rewrite (iCDF_call_branches c g1 Hnew), (iCDF_call_branches c g2 Hnew).
    cbv zeta.
    pose proof (Q_decreasing g1 g2 Hg) as HQ.
    set (c1 := 1 - gsl_sf_erf_Q g1). set (c2 := 1 - gsl_sf_erf_Q g2).
    assert (Hc : c1 <= c2) by (unfold c1, c2; lra).
    intros H1 H2. injection H1 as <-. revert H2 Hv2.
    destruct (ltb c1 (Pk (xq 0))) eqn:E1.
    { intros _ Hv2. rewrite Hx0. unfold Rdiv. rewrite Rmult_0_l. exact Hv2. }
    apply ltb_false in E1.
    destruct (ltb c2 (Pk (xq 0))) eqn:E2; [apply ltb_true in E2; lra |].
    destruct (gtb c1 (Pk (xq (N_ - 1)))) eqn:E3.
    { apply gtb_true in E3.
      destruct (gtb c2 (Pk (xq (N_ - 1)))) eqn:E4;
        [| apply gtb_false in E4; lra].
      intros H2 _. injection H2 as <-. lra. }
    apply gtb_false in E3.
    pose proof (interpolant_range c c1 Hnew (conj E1 E3)) as [_ Hup1].
    destruct (gtb c2 (Pk (xq (N_ - 1)))) eqn:E4.
    { intros H2 Hv2. injection H2 as <-.
      destruct (ltb _ 0); [exact Hv2 | apply Hdiv; exact Hup1]. }
    apply gtb_false in E4.
    intros H2 Hv2. injection H2 as <-.
    assert (Hmono : RFT.gsl_spline_eval (RFT.y_gamma_cdf c) (RFT.x_gamma c) c1 / k
                    <= RFT.gsl_spline_eval (RFT.y_gamma_cdf c) (RFT.x_gamma c) c2 / k).
    { apply Hdiv.
      destruct (iCDF_new_tables c ltac:(lia) Hnew) as (_ & _ & _ & Hx & Hy).
      rewrite Hx, Hy. apply spline_eval_mono.
      - rewrite !length_map. reflexivity.
      - rewrite length_map, zrange_length. lia.
      - apply y_gamma_cdf_sorted.
      - apply Sorted_lt_le, x_gamma_sorted.
      - exact Hc. }
    destruct (ltb _ 0) eqn:N1; destruct (ltb _ 0) eqn:N2 in |- *;
      try apply ltb_true in N1; try apply ltb_false in N1;
      try apply ltb_true in N2; try apply ltb_false in N2; lra.
Qed.

(** A value between the first and the last point of a table lies between
    two neighbouring points. *)
Lemma segment_exists (f : Z -> R) (n : Z) (u : R) :
  (1 <= n)%Z -> f 0%Z <= u <= f n ->
  exists i, (0 <= i < n)%Z /\ f i <= u <= f (i + 1)%Z.
Proof.
  intros Hn. rewrite <- (Z2Nat.id n) by lia.
  assert (Hm : (1 <= Z.to_nat n)%nat) by lia.
  induction (Z.to_nat n) as [| m IH]; [lia |].
  intros [Hlo Hhi].
  destruct m as [| m].
  - exists 0%Z. split; [lia |]. split; assumption.
  - destruct (Rle_dec u (f (Z.of_nat (S m)))) as [Hle | Hgt].
    + destruct (IH ltac:(lia) (conj Hlo Hle)) as (i & Hi & Hseg).
      exists i. split; [lia | exact Hseg].
    + exists (Z.of_nat (S m)). split; [lia |].
      replace (Z.of_nat (S m) + 1)%Z with (Z.of_nat (S (S m))) by lia.
      split; [lra | exact Hhi].
Qed.

(** C6. Construction: the table holds [N] quantiles [i * (10 sqrt(k) / N)],
    [i = 0 .. N-1], evenly spaced within [[0, 10 sqrt(k)]], each with its
    value [P(k, x)]; both columns increase.  Evaluation at [g] with
    [u = 1 - Q(g)]: below the smallest tabulated CDF value the smallest
    quantile over [k] is returned, above the largest the largest quantile
    over [k], and in between the linear interpolation between the two
    neighbouring table points over [k], with a negative result replaced by
    [0]. *)
Theorem iCDF_table_and_evaluation (c : RFT.iCDF) :
  RFT.iCDF_new gsl_sf_gamma_inc_P N_ k = inr c ->
  (length (RFT.x_gamma c) = Z.to_nat N_
   /\ length (RFT.y_gamma_cdf c) = Z.to_nat N_)
  /\ (forall i, (0 <= i < N_)%Z ->
        RFT.load (RFT.x_gamma c) i = Some (IZR i * (10 * sqrt k / IZR N_))
        /\ RFT.load (RFT.y_gamma_cdf c) i
           = Some (gsl_sf_gamma_inc_P k (IZR i * (10 * sqrt k / IZR N_)))
        /\ 0 <= IZR i * (10 * sqrt k / IZR N_) <= 10 * sqrt k)
  /\ Sorted Rlt (RFT.x_gamma c)
  /\ Sorted Rlt (RFT.y_gamma_cdf c)
  /\ (forall g,
        let u := 1 - gsl_sf_erf_Q g in
        let y_min := Pk (xq 0) in
        let y_max := Pk (xq (N_ - 1)) in
        (u < y_min ->
         RFT.iCDF_call gsl_sf_erf_Q c g = Some (xq 0 / k))
        /\ (y_min <= u -> y_max < u ->
            RFT.iCDF_call gsl_sf_erf_Q c g = Some (xq (N_ - 1) / k))
        /\ (y_min <= u <= y_max ->
            exists i,
              (0 <= i < N_ - 1)%Z
              /\ Pk (xq i) <= u <= Pk (xq (i + 1))
              /\ RFT.iCDF_call gsl_sf_erf_Q c g
                 = Some (Rmax 0
                           ((xq i
                             + (u - Pk (xq i)) / (Pk (xq (i + 1)) - Pk (xq i))
                               * (xq (i + 1) - xq i)) / k)))).
Proof.
  intros Hnew.
  destruct (iCDF_new_tables c ltac:(lia) Hnew) as (_ & _ & _ & Hx & Hy).
  split.
  { rewrite Hx, Hy, !length_map, zrange_length. split; reflexivity. }
  split.
  { intros i Hi. rewrite Hx, Hy, !load_map_zrange by lia.
    split; [reflexivity |]. split; [reflexivity |].
    change (IZR i * (10 * sqrt k / IZR N_)) with (xq i).
    split; [apply xq_nonneg; lia | left; apply xq_below_top; lia]. }
  split; [rewrite Hx; apply x_gamma_sorted |].
  split; [rewrite Hy; apply y_gamma_cdf_sorted |].
  intros g u y_min y_max.
  pose proof (iCDF_call_branches c g Hnew) as Hcall. cbv zeta in Hcall.
  fold u y_min y_max in Hcall. rewrite Hcall. clear Hcall.
  split; [| split].
  - intros Hu. apply ltb_true in Hu. rewrite Hu. reflexivity.
  - intros Hlo Hhi.
    replace (ltb u y_min) with false by (symmetry; apply ltb_false; exact Hlo).
    replace (gtb u y_max) with true by (symmetry; apply gtb_true; lra).
    reflexivity.
  - intros [Hlo Hhi].
    replace (ltb u y_min) with false by (symmetry; apply ltb_false; exact Hlo).
    replace (gtb u y_max) with false by (symmetry; apply gtb_false; exact Hhi).
    destruct (segment_exists (fun i => Pk (xq i)) (N_ - 1) u ltac:(lia)
                (conj Hlo Hhi)) as (i & Hi & Hseg).
    exists i. split; [exact Hi |]. split; [exact Hseg |].
    rewrite Hx, Hy.
    rewrite (spline_eval_interpolates _ _ (Z.to_nat i) u
               (Pk (xq i)) (Pk (xq (i + 1))) (xq i) (xq (i + 1))).
    + f_equal. unfold Rmax.
      match goal with |- context [ltb ?a 0] => set (res := a) end.
      destruct (ltb res 0) eqn:Hneg, (Rle_dec 0 res) as [Hle | Hnle];
        try apply ltb_true in Hneg; try apply ltb_false in Hneg;
        try reflexivity; lra.
    + rewrite !length_map. reflexivity.
    + apply y_gamma_cdf_sorted.
    + rewrite nth_error_map, zrange_nth_error by lia. reflexivity.
    + replace (S (Z.to_nat i)) with (Z.to_nat (i + 1)) by lia.
      rewrite nth_error_map, zrange_nth_error by lia. reflexivity.
    + rewrite nth_error_map, zrange_nth_error by lia. reflexivity.
    + replace (S (Z.to_nat i)) with (Z.to_nat (i + 1)) by lia.
      rewrite nth_error_map, zrange_nth_error by lia. reflexivity.
    + exact Hseg.
Qed.

End iCDF_facts.

Lemma sample_P_increasing (a x1 x2 : R) :
  (0 <= x1)%R -> (x1 < x2)%R -> (sample.P a x1 < sample.P a x2)%R.
Proof.
  intros H0 H12. unfold sample.P.
  replace (x1 / (1 + x1))%R with (1 - / (1 + x1))%R by (field; lra).
  replace (x2 / (1 + x2))%R with (1 - / (1 + x2))%R by (field; lra).
  assert (/ (1 + x2) < / (1 + x1))%R; [| lra].
  apply Rinv_lt_contravar; [| lra].
  apply Rmult_lt_0_compat; lra.
Qed.

Lemma sample_Q_decreasing (g1 g2 : R) :
  (g1 < g2)%R -> (sample.Q g2 <= sample.Q g1)%R.
Proof.
  intros Hg. unfold sample.Q.
  pose proof (exp_pos g1). pose proof (exp_increasing g1 g2 Hg).
  unfold Rdiv. rewrite !Rmult_1_l.
  apply Rinv_le_contravar; lra.
Qed.

Lemma iCDF_total_monotone_nonnegative_witness :
  exists c : RFT.iCDF,
    RFT.iCDF_new sample.P 500 1 = inr c
    /\ forall g, exists v, RFT.iCDF_call sample.Q c g = Some v /\ (0 <= v)%R.
Proof.
  eexists. split; [reflexivity |].
  apply (iCDF_total_monotone_nonnegative sample.P sample.Q 500 1).
  - lra.
  - lia.
  - apply sample_P_increasing.
  - apply sample_Q_decreasing.
  - reflexivity.
Defined.

Lemma iCDF_table_and_evaluation_witness :
  exists c : RFT.iCDF,
    RFT.iCDF_new sample.P 500 1 = inr c
    /\ length (RFT.x_gamma c) = 500%nat
    /\ Sorted Rlt (RFT.y_gamma_cdf c).
Proof.
  eexists. split; [reflexivity |].
  destruct (iCDF_table_and_evaluation sample.P sample.Q 500 1) with
    (c := match RFT.iCDF_new sample.P 500 1 with
          | inr c => c
          | inl _ => RFT.icdf sample.rect_generator
          end)
    as ((Hlen & _) & _ & _ & Hsorted & _).
  - lra.
  - lia.
  - apply sample_P_increasing.
  - reflexivity.
  - split; [exact Hlen | exact Hsorted].
Defined.

(** ** Loops over an array *)

Section loops.

Lemma foldM_app {A S : Type} (body : A -> S -> option S) (l1 l2 : list A)
  (s : S) :
  foldM body (l1 ++ l2) s
  = match foldM body l1 s with
    | Some s' => foldM body l2 s'
    | None => None
    end.
Proof.
  revert s. induction l1 as [| a l1 IH]; intros s; cbn; [reflexivity |].
  destruct (body a s); [apply IH | reflexivity].
Qed.

Lemma foldM_map {A B S : Type} (body : B -> S -> option S) (f : A -> B)
  (l : list A) (s : S) :
  foldM body (map f l) s = foldM (fun a => body (f a)) l s.
Proof.
  revert s. induction l as [| a l IH]; intros s; cbn; [reflexivity |].
  destruct (body (f a) s); [apply IH | reflexivity].
Qed.

Lemma foldM_ext {A S : Type} (body1 body2 : A -> S -> option S) (l : list A)
  (s : S) :
  (forall a t, body1 a t = body2 a t) -> foldM body1 l s = foldM body2 l s.
Proof.
  intros Hext. revert s. induction l as [| a l IH]; intros s; cbn;
    [reflexivity |].
  rewrite Hext. destruct (body2 a s); [apply IH | reflexivity].
Qed.

Lemma foldM_cons {A S : Type} (body : A -> S -> option S) (a : A)
  (l : list A) (s : S) :
  foldM body (a :: l) s
  = match body a s with
    | Some s' => foldM body l s'
    | None => None
    end.
Proof. reflexivity. Qed.

(** Two nested counting loops visit the pairs of [Spec.grid] in order. *)
Lemma nested_loops_grid {S : Type} (N1_ N2_ : Z)
  (body : Z -> Z -> S -> option S) (s : S) :
  for_upto N1_ (fun i => for_upto N2_ (body i)) s
  = foldM (fun p => body (fst p) (snd p)) (Spec.grid N1_ N2_) s.
Proof.
  unfold for_upto, Spec.grid. revert s.
  induction (zrange N1_) as [| i l IH]; intros s; cbn [foldM flat_map];
    [reflexivity |].
  rewrite foldM_app, foldM_map. cbn [fst snd].
  destruct (foldM (body i) (zrange N2_) s); [apply IH | reflexivity].
Qed.

Lemma list_upd_length {A : Type} (n : nat) (f : A -> A) (l : list A) :
  length (list_upd n f l) = length l.
Proof.
  revert n. induction l as [| a l IH]; intros [| n]; cbn; auto.
Qed.

Lemma list_upd_nth_error_same {A : Type} (n : nat) (f : A -> A) (l : list A) :
  nth_error (list_upd n f l) n = option_map f (nth_error l n).
Proof.
  revert n. induction l as [| a l IH]; intros [| n]; cbn; auto.
Qed.

Lemma list_upd_nth_error_other {A : Type} (n m : nat) (f : A -> A)
  (l : list A) :
  n <> m -> nth_error (list_upd n f l) m = nth_error l m.
Proof.
  revert n m. induction l as [| a l IH]; intros [| n] [| m] Hnm; cbn; auto.
  - contradiction.
Qed.

Lemma list_upd_compose {A : Type} (n : nat) (f g : A -> A) (l : list A) :
  list_upd n g (list_upd n f l) = list_upd n (fun a => g (f a)) l.
Proof.
  revert n. induction l as [| a l IH]; intros [| n]; cbn; auto.
  rewrite IH. reflexivity.
Qed.

Lemma in_bounds_true (len : nat) (k : Z) :
  in_bounds len k = true <-> (0 <= k < Z.of_nat len)%Z.
Proof. unfold in_bounds. lia. Qed.

Lemma upd_some {A : Type} (a a' : list A) (k : Z) (f : A -> A) :
  upd a k f = Some a' ->
  in_bounds (length a) k = true /\ a' = list_upd (Z.to_nat k) f a.
Proof.
  unfold upd. destruct (in_bounds (length a) k); [| discriminate].
  intros H. injection H as <-. auto.
Qed.

(** Two successive updates of one cell are one update. *)
Lemma upd_twice {A : Type} (a : list A) (k : Z) (f g : A -> A) :
  match upd a k f with
  | Some a1 => upd a1 k g
  | None => None
  end = upd a k (fun c => g (f c)).
Proof.
  unfold upd. destruct (in_bounds (length a) k) eqn:Hk; [| reflexivity].
  rewrite list_upd_length, Hk, list_upd_compose. reflexivity.
Qed.

Variables (A P : Type).
Variable idx : P -> Z.
Variable f : P -> A -> A.

(** A loop that updates cell [idx p] with [f p] for each [p] of a list. *)
Local Abbreviation sweep := (foldM (fun p a => upd a (idx p) (f p))).

Lemma sweep_length (l : list P) (a a' : list A) :
  sweep l a = Some a' -> length a' = length a.
Proof.
  revert a. induction l as [| p l IH]; intros a; cbn.
  - intros H. injection H as <-. reflexivity.
  - destruct (upd a (idx p) (f p)) as [a1 |] eqn:Hu; [| discriminate].
    intros H. apply IH in H. apply upd_some in Hu as [_ ->].
    rewrite list_upd_length in H. exact H.
Qed.

(** The loop completes exactly when every index it uses is in range. *)
Lemma sweep_completes (l : list P) (a : list A) :
  sweep l a <> None
  <-> Forall (fun k => (0 <= k < Z.of_nat (length a))%Z) (map idx l).
Proof.
  revert a. induction l as [| p l IH]; intros a; cbn [foldM map].
  - split; [constructor | discriminate].
  - destruct (upd a (idx p) (f p)) as [a1 |] eqn:Hu.
    + apply upd_some in Hu as [Hk ->]. apply in_bounds_true in Hk.
      rewrite IH, list_upd_length. split.
      * intros H. constructor; assumption.
      * intros H. inversion H; assumption.
    + split; [contradiction |]. intros H. inversion H as [| ? ? Hk _]; subst.
      unfold upd in Hu. apply in_bounds_true in Hk. rewrite Hk in Hu.
      discriminate.
Qed.

(** A cell no iteration addresses keeps its content. *)
Lemma sweep_untouched (l : list P) (a a' : list A) (k : Z) :
  sweep l a = Some a' -> (0 <= k)%Z -> ~ In k (map idx l) ->
  nth_error a' (Z.to_nat k) = nth_error a (Z.to_nat k).
Proof.
  revert a. induction l as [| p l IH]; intros a; cbn [foldM map].
  - intros H _ _. injection H as <-. reflexivity.
  - destruct (upd a (idx p) (f p)) as [a1 |] eqn:Hu; [| discriminate].
    intros H Hk Hnot. cbn [In] in Hnot.
    rewrite (IH a1 H Hk) by tauto.
    apply upd_some in Hu as [Hb ->]. apply in_bounds_true in Hb.
    apply list_upd_nth_error_other. lia.
Qed.

(** A cell addressed by exactly one iteration receives the update of that
    iteration. *)
Lemma sweep_once (l : list P) (a a' : list A) (k : Z) :
  sweep l a = Some a' ->
  count_occ Z.eq_dec (map idx l) k = 1%nat ->
  exists p, In p l /\ idx p = k
            /\ nth_error a' (Z.to_nat k)
               = option_map (f p) (nth_error a (Z.to_nat k)).
Proof.
  revert a. induction l as [| p l IH]; intros a; cbn [foldM map count_occ].
  - discriminate.
  - destruct (upd a (idx p) (f p)) as [a1 |] eqn:Hu; [| discriminate].
    intros H Hcount.
    apply upd_some in Hu as [Hb ->]. apply in_bounds_true in Hb.
    destruct (Z.eq_dec (idx p) k) as [Heq | Hne].
    + exists p. split; [left; reflexivity |]. split; [exact Heq |].
      rewrite (sweep_untouched l _ a' k H) by
        (try lia; apply (count_occ_not_In Z.eq_dec); lia).
      subst k. apply list_upd_nth_error_same.
    + destruct (IH _ H Hcount) as (q & Hq & Hidx & Hnth).
      exists q. split; [right; exact Hq |]. split; [exact Hidx |].
      rewrite Hnth. f_equal.
      apply list_upd_nth_error_other.
      assert (0 <= k)%Z.
      { assert (Hin : In k (map idx l))
          by (apply (count_occ_In Z.eq_dec); lia).
        assert (Hall : sweep l (list_upd (Z.to_nat (idx p)) (f p) a) <> None)
          by (rewrite H; discriminate).
        apply sweep_completes in Hall.
        rewrite Forall_forall in Hall. apply Hall in Hin. lia. }
      lia.
Qed.

End loops.

(** ** The flat indices of a pass *)

Lemma zrange_In (n k : Z) : In k (zrange n) <-> (0 <= k < n)%Z.
Proof.
  unfold zrange. rewrite in_map_iff. split.
  - intros (m & <- & Hm). apply in_seq in Hm. lia.
  - intros Hk. exists (Z.to_nat k). split; [lia |]. apply in_seq. lia.
Qed.

Lemma zrange_NoDup (n : Z) : NoDup (zrange n).
Proof.
  unfold zrange. apply Injective_map_NoDup; [| apply seq_NoDup].
  intros a b Hab. lia.
Qed.

Lemma zrange_count (n k : Z) :
  (0 <= k < n)%Z -> count_occ Z.eq_dec (zrange n) k = 1%nat.
Proof.
  intros Hk. apply (NoDup_count_occ' Z.eq_dec); [apply zrange_NoDup |].
  apply zrange_In. exact Hk.
Qed.

Lemma accessed_rows (N1_ N2_ : Z) :
  Spec.accessed N1_ N2_
  = flat_map (fun i => map (fun j => (i * N1_ + j)%Z) (zrange N2_)) (zrange N1_).
Proof.
  unfold Spec.accessed, Spec.grid.
  induction (zrange N1_) as [| i l IH]; cbn [flat_map map]; [reflexivity |].
  rewrite map_app, map_map, IH. reflexivity.
Qed.

Lemma accessed_In (N1_ N2_ k : Z) :
  In k (Spec.accessed N1_ N2_)
  <-> exists i j, (0 <= i < N1_)%Z /\ (0 <= j < N2_)%Z /\ k = (i * N1_ + j)%Z.
Proof.
  rewrite accessed_rows, in_flat_map. split.
  - intros (i & Hi & Hk). apply in_map_iff in Hk as (j & <- & Hj).
    apply zrange_In in Hi, Hj. exists i, j. auto.
  - intros (i & j & Hi & Hj & ->). exists i. split; [apply zrange_In; exact Hi |].
    apply in_map_iff. exists j. split; [reflexivity | apply zrange_In; exact Hj].
Qed.

Lemma seq_offset (c s len : nat) :
  map (fun j => (c + j)%nat) (seq s len) = seq (c + s) len.
Proof.
  revert s. induction len as [| len IH]; intros s; cbn; [reflexivity |].
  rewrite IH. do 2 f_equal. lia.
Qed.

Lemma rows_concat (n s m : nat) :
  flat_map (fun a => seq (a * n) n) (seq s m) = seq (s * n) (m * n).
Proof.
  revert s. induction m as [| m IH]; intros s; cbn [seq flat_map];
    [reflexivity |].
  rewrite IH. cbn [Nat.mul]. rewrite seq_app. do 2 f_equal. lia.
Qed.

Lemma rows_of_nat (n : nat) (l : list nat) :
  flat_map (fun i => map (fun j => (i * Z.of_nat n + j)%Z)
                       (map Z.of_nat (seq 0 n)))
           (map Z.of_nat l)
  = map Z.of_nat (flat_map (fun a => seq (a * n) n) l).
Proof.
  induction l as [| a l IH]; cbn [map flat_map]; [reflexivity |].
  rewrite map_app, IH. f_equal.
  rewrite <- (Nat.add_0_r (a * n)), <- seq_offset, !map_map.
  apply map_ext. intros j. lia.
Qed.

(** On a square grid the accesses are [0, 1, ..., N*N-1] in this order. *)
Lemma accessed_square (N_ : Z) :
  (0 <= N_)%Z -> Spec.accessed N_ N_ = zrange (N_ * N_).
Proof.
  intros HN. rewrite accessed_rows. unfold zrange.
  replace (Z.to_nat (N_ * N_)) with (Z.to_nat N_ * Z.to_nat N_)%nat by lia.
  change (seq 0 (Z.to_nat N_ * Z.to_nat N_))
    with (seq (0 * Z.to_nat N_) (Z.to_nat N_ * Z.to_nat N_)).
  rewrite <- rows_concat, <- rows_of_nat.
  rewrite Z2Nat.id by exact HN. reflexivity.
Qed.

(** So are they on a grid of a single row. *)
Lemma accessed_single_row (N2_ : Z) : Spec.accessed 1 N2_ = zrange (1 * N2_).
Proof.
  rewrite accessed_rows. change (zrange 1) with [0%Z]. cbn [flat_map].
  rewrite app_nil_r, Z.mul_1_l.
  rewrite <- (map_id (zrange N2_)) at 2. apply map_ext. intros j. lia.
Qed.

Lemma pass_exactly_once_of_range (N1_ N2_ : Z) :
  Spec.accessed N1_ N2_ = zrange (N1_ * N2_) -> Spec.pass_exactly_once N1_ N2_.
Proof.
  intros Heq. unfold Spec.pass_exactly_once. rewrite Heq. split.
  - apply Forall_forall. intros k Hk. apply zrange_In. exact Hk.
  - intros k Hk. apply zrange_count. exact Hk.
Qed.

(** With fewer columns than rows the last access is outside the
    workspace. *)
Lemma accessed_overrun (N1_ N2_ : Z) :
  (2 <= N1_)%Z -> (1 <= N2_ < N1_)%Z ->
  In ((N1_ - 1) * N1_ + (N2_ - 1))%Z (Spec.accessed N1_ N2_)
  /\ (N1_ * N2_ <= (N1_ - 1) * N1_ + (N2_ - 1))%Z.
Proof.
  intros H1 H2. split.
  - apply accessed_In. exists (N1_ - 1)%Z, (N2_ - 1)%Z. lia.
  - nia.
Qed.

(** With more columns than rows cell [N1] is addressed by [(0, N1)] and by
    [(1, 0)]. *)
Lemma accessed_twice (N1_ N2_ : Z) :
  (2 <= N1_ < N2_)%Z ->
  (2 <= count_occ Z.eq_dec (Spec.accessed N1_ N2_) N1_)%nat.
Proof.
  intros H. rewrite accessed_rows. unfold zrange at 2.
  destruct (Z.to_nat N1_) as [| [| m]] eqn:Hm; try lia.
  cbn [seq map flat_map]. rewrite !count_occ_app.
  assert (H0 : In N1_ (map (fun j => (Z.of_nat 0 * N1_ + j)%Z) (zrange N2_))).
  { apply in_map_iff. exists N1_. split; [lia | apply zrange_In; lia]. }
  assert (H1 : In N1_ (map (fun j => (Z.of_nat 1 * N1_ + j)%Z) (zrange N2_))).
  { apply in_map_iff. exists 0%Z. split; [lia | apply zrange_In; lia]. }
  apply (count_occ_In Z.eq_dec) in H0, H1. lia.
Qed.

(** ** The two passes over the workspace *)

Section passes.

Local Open Scope R_scope.

Lemma accessed_map (N1_ N2_ : Z) :
  map (Spec.flat_index N1_) (Spec.grid N1_ N2_) = Spec.accessed N1_ N2_.
Proof. reflexivity. Qed.

(** The frequency filter is one update [cell *= ker(i, j)] of cell
    [i*N1+j] for each pair of the loop nest. *)
Lemma filter_as_sweep (r : RFT.rft2d) :
  RFT.apply_k_spcae_propagation r
  = option_map (RFT.set_phi_k r)
      (foldM (fun p a => upd a (Spec.flat_index (RFT.N1 r) p)
                           (Spec.scale (RFT.ker r (fst p) (snd p))))
             (Spec.grid (RFT.N1 r) (RFT.N2 r)) (RFT.phi_k r)).
Proof.
  unfold RFT.apply_k_spcae_propagation. rewrite nested_loops_grid.
  rewrite (foldM_ext _
             (fun p a => upd a (Spec.flat_index (RFT.N1 r) p)
                           (Spec.scale (RFT.ker r (fst p) (snd p))))).
  - destruct (foldM _ _ _); reflexivity.
  - intros p a. unfold Spec.flat_index.
    etransitivity; [apply upd_twice | reflexivity].
Qed.

(** The filter runs to completion exactly when every flat index is inside
    [phi_k]. *)
Lemma filter_completes (r : RFT.rft2d) :
  RFT.apply_k_spcae_propagation r <> None
  <-> Forall (fun k => (0 <= k < Z.of_nat (length (RFT.phi_k r)))%Z)
             (Spec.accessed (RFT.N1 r) (RFT.N2 r)).
Proof.
  rewrite filter_as_sweep, <- accessed_map.
  rewrite <- (sweep_completes _ _ (Spec.flat_index (RFT.N1 r))
                (fun p => Spec.scale (RFT.ker r (fst p) (snd p)))).
  destruct (foldM _ _ _); cbn; split; congruence.
Qed.

(** The loop body of [real_space_white_noise] at the pair [p]. *)
Local Abbreviation noise_body N1_ :=
  (fun (p : Z * Z) (s : list complex * RFT.noise_source) =>
     let (a, g) := s in
     let (v, g') := RFT.white_noise_generator g in
     match upd a (fst p * N1_ + snd p) (fun c => (v, snd c)) with
     | Some a1 =>
         match upd a1 (fst p * N1_ + snd p) (fun c => (fst c, 0)) with
         | Some a2 => Some (a2, g')
         | None => None
         end
     | None => None
     end).

(** The white-noise fill stores [(deviate, 0)] into cell [i*N1+j] for each
    pair of the loop nest, the [t]-th pair receiving the [t]-th deviate. *)
Lemma noise_loop_as_sweep (N1_ : Z) (dev : nat -> R) (t0 : nat)
  (l : list (Z * Z)) (o : nat) (a : list complex) :
  foldM (noise_body N1_) l (a, RFT.mk_noise dev (t0 + o))
  = option_map (fun a' => (a', RFT.mk_noise dev (t0 + o + length l)))
      (foldM (fun tp a => upd a (Spec.flat_index N1_ (snd tp))
                            (fun _ => (dev (t0 + fst tp)%nat, 0)))
             (combine (seq o (length l)) l) a).
Proof.
  set (body := noise_body N1_).
  revert o a. induction l as [| p l IH]; intros o a.
  - cbn. rewrite Nat.add_0_r. reflexivity.
  - cbn [length seq combine]. rewrite !foldM_cons.
    unfold body at 1.
    cbn [RFT.white_noise_generator RFT.deviate RFT.taken fst snd].
    match goal with
    | |- _ = option_map _ (match ?u with _ => _ end) =>
        replace u with
          (match upd a (fst p * N1_ + snd p)%Z
                   (fun c => (dev (t0 + o)%nat, snd c)) with
           | Some a1 => upd a1 (fst p * N1_ + snd p)%Z (fun c => (fst c, 0))
           | None => None
           end)
          by exact (upd_twice a (fst p * N1_ + snd p)%Z
                      (fun c => (dev (t0 + o)%nat, snd c))
                      (fun c => (fst c, 0)))
    end.
    destruct (upd a _ _) as [a1 |]; [| reflexivity].
    destruct (upd a1 _ _) as [a2 |]; [| reflexivity].
    replace (S (t0 + o)) with (t0 + S o)%nat by lia.
    rewrite IH. replace (t0 + S o + length l)%nat
      with (t0 + o + S (length l))%nat by lia.
    reflexivity.
Qed.

Lemma noise_as_sweep (r : RFT.rft2d) :
  RFT.real_space_white_noise r
  = option_map
      (fun a' =>
         RFT.set_phi_x r a'
           (RFT.mk_noise (RFT.deviate (RFT.generator r))
              (RFT.taken (RFT.generator r)
               + length (Spec.grid (RFT.N1 r) (RFT.N2 r)))))
      (foldM (fun tp a =>
                upd a (Spec.flat_index (RFT.N1 r) (snd tp))
                  (fun _ => (RFT.deviate (RFT.generator r)
                               (RFT.taken (RFT.generator r) + fst tp)%nat, 0)))
             (combine (seq 0 (length (Spec.grid (RFT.N1 r) (RFT.N2 r))))
                      (Spec.grid (RFT.N1 r) (RFT.N2 r)))
             (RFT.phi_x r)).
Proof.
  unfold RFT.real_space_white_noise. rewrite nested_loops_grid.
  pose proof (noise_loop_as_sweep (RFT.N1 r) (RFT.deviate (RFT.generator r))
                (RFT.taken (RFT.generator r))
                (Spec.grid (RFT.N1 r) (RFT.N2 r)) 0 (RFT.phi_x r)) as H.
  rewrite !Nat.add_0_r in H.
  destruct (RFT.generator r) as [dev t0] eqn:Hg. cbn [RFT.deviate RFT.taken] in *.
  rewrite H.
  match goal with |- context [option_map _ ?x] => destruct x end; reflexivity.
Qed.

Lemma map_snd_combine_seq {B C : Type} (h : B -> C) (o : nat) (l : list B) :
  map (fun tp : nat * B => h (snd tp)) (combine (seq o (length l)) l)
  = map h l.
Proof.
  revert o. induction l as [| b l IH]; intros o; cbn; [reflexivity |].
  rewrite IH. reflexivity.
Qed.

(** The fill runs to completion exactly when every flat index is inside
    [phi_x]. *)
Lemma noise_completes (r : RFT.rft2d) :
  RFT.real_space_white_noise r <> None
  <-> Forall (fun k => (0 <= k < Z.of_nat (length (RFT.phi_x r)))%Z)
             (Spec.accessed (RFT.N1 r) (RFT.N2 r)).
Proof.
  rewrite noise_as_sweep, <- accessed_map.
  rewrite <- (map_snd_combine_seq (Spec.flat_index (RFT.N1 r)) 0).
  rewrite <- (sweep_completes _ _ (fun tp => Spec.flat_index (RFT.N1 r) (snd tp))
                (fun tp _ => (RFT.deviate (RFT.generator r)
                                (RFT.taken (RFT.generator r) + fst tp)%nat, 0))).
  destruct (foldM _ _ _); cbn; split; congruence.
Qed.

Lemma grid_In (N1_ N2_ : Z) (p : Z * Z) :
  In p (Spec.grid N1_ N2_)
  <-> (0 <= fst p < N1_)%Z /\ (0 <= snd p < N2_)%Z.
Proof.
  unfold Spec.grid. rewrite in_flat_map. split.
  - intros (i & Hi & Hp). apply in_map_iff in Hp as (j & <- & Hj).
    apply zrange_In in Hi, Hj. cbn. auto.
  - intros [Hi Hj]. exists (fst p). split; [apply zrange_In; exact Hi |].
    apply in_map_iff. exists (snd p). split;
      [destruct p; reflexivity | apply zrange_In; exact Hj].
Qed.

(** On a square grid [i*N+j] determines [i] and [j]. *)
Lemma flat_index_injective (N_ i j i' j' : Z) :
  (0 <= j < N_)%Z -> (0 <= j' < N_)%Z ->
  (i * N_ + j = i' * N_ + j')%Z -> i = i' /\ j = j'.
Proof.
  intros Hj Hj' Heq.
  assert (i = i') by nia. subst i'. split; [reflexivity | lia].
Qed.

Lemma load_nth_error {A : Type} (a : list A) (k : Z) :
  (0 <= k)%Z -> RFT.load a k = nth_error a (Z.to_nat k).
Proof.
  intros Hk. unfold RFT.load. destruct (Z.leb_spec 0 k); [reflexivity | lia].
Qed.

(** The filter on a square grid: it completes, and cell [i*N+j] is
    multiplied by [ker(i, j)] on both channels. *)
Lemma filter_square (r : RFT.rft2d) (N_ : Z) :
  RFT.N1 r = N_ -> RFT.N2 r = N_ -> (0 <= N_)%Z ->
  length (RFT.phi_k r) = Z.to_nat (N_ * N_) ->
  exists a',
    RFT.apply_k_spcae_propagation r = Some (RFT.set_phi_k r a')
    /\ length a' = length (RFT.phi_k r)
    /\ forall i j, (0 <= i < N_)%Z -> (0 <= j < N_)%Z ->
         RFT.load a' (i * N_ + j)
         = option_map (Spec.scale (RFT.ker r i j))
             (RFT.load (RFT.phi_k r) (i * N_ + j)).
Proof.
  intros H1 H2 HN Hlen.
  pose proof (filter_completes r) as Hdone.
  rewrite filter_as_sweep in *. rewrite H1, H2 in *.
  destruct (foldM _ (Spec.grid N_ N_) (RFT.phi_k r)) as [a' |] eqn:Hsweep.
  2:{ exfalso. cbn in Hdone. apply Hdone; [| reflexivity].
      rewrite accessed_square by exact HN. apply Forall_forall.
      intros k Hk. apply zrange_In in Hk. lia. }
  exists a'. split; [reflexivity |].
  split; [apply (sweep_length _ _ _ _ _ _ _ Hsweep) |].
  intros i j Hi Hj.
  destruct (sweep_once _ _ _ _ _ _ _ (i * N_ + j)%Z Hsweep)
    as (p & Hp & Hidx & Hnth).
  { rewrite accessed_map, accessed_square by exact HN.
    apply zrange_count. nia. }
  apply grid_In in Hp as [Hpi Hpj].
  apply flat_index_injective in Hidx as [Hi' Hj']; try lia.
  rewrite !load_nth_error by nia. rewrite Hnth, Hi', Hj'. reflexivity.
Qed.

Lemma combine_seq_In {B : Type} (o t : nat) (b : B) (l : list B) :
  In (t, b) (combine (seq o (length l)) l) ->
  (o <= t)%nat /\ nth_error l (t - o) = Some b.
Proof.
  revert o. induction l as [| c l IH]; intros o; cbn [length seq combine In].
  - contradiction.
  - intros [Heq | Hin].
    + injection Heq as <- <-. rewrite Nat.sub_diag. auto.
    + apply IH in Hin as [Ho Hnth]. split; [lia |].
      replace (t - o)%nat with (S (t - S o)) by lia. exact Hnth.
Qed.

(** The white-noise fill on a square grid: it completes, takes [N*N]
    deviates, and cell [k] holds the [k]-th of them with imaginary channel
    zero. *)
Lemma noise_square (r : RFT.rft2d) (N_ : Z) :
  RFT.N1 r = N_ -> RFT.N2 r = N_ -> (0 <= N_)%Z ->
  length (RFT.phi_x r) = Z.to_nat (N_ * N_) ->
  exists a',
    RFT.real_space_white_noise r
    = Some (RFT.set_phi_x r a'
              (RFT.mk_noise (RFT.deviate (RFT.generator r))
                 (RFT.taken (RFT.generator r) + Z.to_nat (N_ * N_))))
    /\ length a' = length (RFT.phi_x r)
    /\ forall k, (0 <= k < N_ * N_)%Z ->
         RFT.load a' k
         = Some (RFT.deviate (RFT.generator r)
                   (RFT.taken (RFT.generator r) + Z.to_nat k)%nat, 0).
Proof.
  intros H1 H2 HN Hlen.
  pose proof (noise_completes r) as Hdone.
  assert (Hgrid : length (Spec.grid N_ N_) = Z.to_nat (N_ * N_)).
  { rewrite <- (length_map (Spec.flat_index N_)), accessed_map,
      accessed_square, zrange_length by exact HN. reflexivity. }
  rewrite noise_as_sweep in *. rewrite H1, H2 in *. rewrite Hgrid in *.
  match type of Hdone with
  | context [option_map _ ?x] => destruct x as [a' |] eqn:Hsweep
  end.
  2:{ exfalso. cbn in Hdone. apply Hdone; [| reflexivity].
      rewrite accessed_square by exact HN. apply Forall_forall.
      intros k Hk. apply zrange_In in Hk. lia. }
  exists a'. split; [reflexivity |].
  split; [apply (sweep_length _ _ _ _ _ _ _ Hsweep) |].
  intros k Hk.
  destruct (sweep_once _ _ _ _ _ _ _ k Hsweep) as ([t p] & Hp & Hidx & Hnth).
  { rewrite <- Hgrid, (map_snd_combine_seq (Spec.flat_index N_)), accessed_map,
      accessed_square by exact HN.
    apply zrange_count. exact Hk. }
  cbn [fst snd] in *.
  rewrite <- Hgrid in Hp. apply combine_seq_In in Hp as [_ Hp].
  rewrite Nat.sub_0_r in Hp.
  apply (map_nth_error (Spec.flat_index N_)) in Hp.
  rewrite accessed_map, accessed_square in Hp by exact HN.
  assert (Ht : (Z.of_nat t < N_ * N_)%Z).
  { assert (Hsome : nth_error (zrange (N_ * N_)) t <> None) by congruence.
    apply nth_error_Some in Hsome. rewrite zrange_length in Hsome. lia. }
  rewrite <- (Nat2Z.id t) in Hp at 1.
  rewrite zrange_nth_error in Hp by lia.
  assert (t = Z.to_nat k) by (injection Hp; lia). subst t.
  rewrite load_nth_error by lia. refine (eq_trans Hnth _).
  match goal with
  | |- option_map _ ?cell = _ => destruct cell eqn:Hcell; [reflexivity |]
  end.
  apply nth_error_None in Hcell. lia.
Qed.

(** Whenever the flat indices of a pass are [0, 1, ..., N1*N2-1] in this
    order, the frequency filter completes and multiplies cell [i*N1+j] by
    [ker(i, j)], once, on both channels. *)
Lemma filter_in_order (r : RFT.rft2d) :
  RFT.N1 r = RFT.N2 r \/ RFT.N1 r = 1%Z ->
  (0 <= RFT.N1 r)%Z -> (0 <= RFT.N2 r)%Z ->
  length (RFT.phi_k r) = Z.to_nat (RFT.N1 r * RFT.N2 r) ->
  exists a',
    RFT.apply_k_spcae_propagation r = Some (RFT.set_phi_k r a')
    /\ length a' = length (RFT.phi_k r)
    /\ forall i j, (0 <= i < RFT.N1 r)%Z -> (0 <= j < RFT.N2 r)%Z ->
         RFT.load a' (i * RFT.N1 r + j)
         = option_map (Spec.scale (RFT.ker r i j))
             (RFT.load (RFT.phi_k r) (i * RFT.N1 r + j)).
Proof.
  intros Hshape H1 H2 Hlen.
  assert (Hacc : Spec.accessed (RFT.N1 r) (RFT.N2 r)
                 = zrange (RFT.N1 r * RFT.N2 r)).
  { destruct Hshape as [Heq | Hone].
    - rewrite <- Heq. apply accessed_square. exact H1.
    - rewrite Hone. apply accessed_single_row. }
  pose proof (filter_completes r) as Hdone.
  rewrite filter_as_sweep in *.
  destruct (foldM _ (Spec.grid (RFT.N1 r) (RFT.N2 r)) (RFT.phi_k r))
    as [a' |] eqn:Hsweep.
  2:{ exfalso. cbn in Hdone. apply Hdone; [| reflexivity].
      rewrite Hacc. apply Forall_forall.
      intros k Hk. apply zrange_In in Hk. lia. }
  exists a'. split; [reflexivity |].
  split; [apply (sweep_length _ _ _ _ _ _ _ Hsweep) |].
  intros i j Hi Hj.
  destruct (sweep_once _ _ _ _ _ _ _ (i * RFT.N1 r + j)%Z Hsweep)
    as (p & Hp & Hidx & Hnth).
  { rewrite accessed_map, Hacc. apply zrange_count.
    destruct Hshape as [Heq | Hone]; [rewrite <- Heq in *; nia | lia]. }
  apply grid_In in Hp as [Hpi Hpj]. unfold Spec.flat_index in Hidx.
  assert (Hsame : fst p = i /\ snd p = j).
  { destruct Hshape as [Heq | Hone].
    - rewrite <- Heq in *.
      apply (flat_index_injective (RFT.N1 r)); assumption.
    - lia. }
  destruct Hsame as [Hi' Hj'].
  rewrite !load_nth_error by nia. rewrite Hnth, Hi', Hj'. reflexivity.
Qed.

(** Under the same condition the white-noise fill completes, takes
    [N1*N2] deviates, and cell [k] holds the [k]-th of them with imaginary
    channel zero. *)
Lemma noise_in_order (r : RFT.rft2d) :
  RFT.N1 r = RFT.N2 r \/ RFT.N1 r = 1%Z ->
  (0 <= RFT.N1 r)%Z ->
  length (RFT.phi_x r) = Z.to_nat (RFT.N1 r * RFT.N2 r) ->
  exists a',
    RFT.real_space_white_noise r
    = Some (RFT.set_phi_x r a'
              (RFT.mk_noise (RFT.deviate (RFT.generator r))
                 (RFT.taken (RFT.generator r)
                  + Z.to_nat (RFT.N1 r * RFT.N2 r))))
    /\ length a' = length (RFT.phi_x r)
    /\ forall k, (0 <= k < RFT.N1 r * RFT.N2 r)%Z ->
         RFT.load a' k
         = Some (RFT.deviate (RFT.generator r)
                   (RFT.taken (RFT.generator r) + Z.to_nat k)%nat, 0).
Proof.
  intros Hshape H1 Hlen.
  assert (Hacc : Spec.accessed (RFT.N1 r) (RFT.N2 r)
                 = zrange (RFT.N1 r * RFT.N2 r)).
  { destruct Hshape as [Heq | Hone].
    - rewrite <- Heq. apply accessed_square. exact H1.
    - rewrite Hone. apply accessed_single_row. }
  set (M := (RFT.N1 r * RFT.N2 r)%Z) in *.
  pose proof (noise_completes r) as Hdone.
  assert (Hgrid : length (Spec.grid (RFT.N1 r) (RFT.N2 r)) = Z.to_nat M).
  { rewrite <- (length_map (Spec.flat_index (RFT.N1 r))), accessed_map,
      Hacc, zrange_length. reflexivity. }
  rewrite noise_as_sweep in *. rewrite Hgrid in *.
  match type of Hdone with
  | context [option_map _ ?x] => destruct x as [a' |] eqn:Hsweep
  end.
  2:{ exfalso. cbn in Hdone. apply Hdone; [| reflexivity].
      rewrite Hacc. apply Forall_forall.
      intros k Hk. apply zrange_In in Hk. lia. }
  exists a'. split; [reflexivity |].
  split; [apply (sweep_length _ _ _ _ _ _ _ Hsweep) |].
  intros k Hk.
  destruct (sweep_once _ _ _ _ _ _ _ k Hsweep) as ([t p] & Hp & Hidx & Hnth).
  { rewrite <- Hgrid,
      (map_snd_combine_seq (Spec.flat_index (RFT.N1 r))), accessed_map, Hacc.
    apply zrange_count. exact Hk. }
  cbn [fst snd] in *.
  rewrite <- Hgrid in Hp. apply combine_seq_In in Hp as [_ Hp].
  rewrite Nat.sub_0_r in Hp.
  apply (map_nth_error (Spec.flat_index (RFT.N1 r))) in Hp.
  rewrite accessed_map, Hacc in Hp.
  assert (Ht : (Z.of_nat t < M)%Z).
  { assert (Hsome : nth_error (zrange M) t <> None) by congruence.
    apply nth_error_Some in Hsome. rewrite zrange_length in Hsome. lia. }
  rewrite <- (Nat2Z.id t) in Hp at 1.
  rewrite zrange_nth_error in Hp by lia.
  assert (t = Z.to_nat k) by (injection Hp; lia). subst t.
  rewrite load_nth_error by lia. refine (eq_trans Hnth _).
  match goal with
  | |- option_map _ ?cell = _ => destruct cell eqn:Hcell; [reflexivity |]
  end.
  apply nth_error_None in Hcell. lia.
Qed.

(** On a grid of positive sizes no subscript overflows exactly when the
    largest one is a value of [int]. *)
Lemma subscripts_in_int_iff (N1_ N2_ : Z) :
  (1 <= N1_)%Z -> (1 <= N2_)%Z ->
  (Spec.subscripts_in_int N1_ N2_
   <-> (Spec.last_index N1_ N2_ <= INT_MAX)%Z).
Proof.
  intros H1 H2. unfold Spec.subscripts_in_int, Spec.last_index, int_range,
    INT_MIN, INT_MAX. split.
  - intros H. destruct (H (N1_ - 1)%Z (N2_ - 1)%Z) as [_ Hmax]; lia.
  - intros Hmax i j Hi Hj.
    assert (i * N1_ <= (N1_ - 1) * N1_)%Z by nia.
    assert (0 <= i * N1_)%Z by nia. lia.
Qed.

End passes.

(** C10, as the code has it. For positive grid sizes whose largest flat
    index [(N1-1)*N1 + (N2-1)] is a value of [int], no subscript of a pass
    overflows.  With workspaces of [N1*N2] cells each pass then runs to
    completion exactly when every flat index [i*N1+j] it uses is in range;
    every access is in range and every cell is addressed exactly once when
    [N1 = N2] and also when [N1 = 1], and in no other case.  In these two
    cases the fill leaves in cell [k] the [k]-th deviate it takes, with
    imaginary channel zero, and the filter multiplies cell [i*N1+j] by
    [ker(i, j)], once. *)
Theorem workspace_addressing (N1_ N2_ : Z) :
  (1 <= N1_)%Z -> (1 <= N2_)%Z ->
  (Spec.last_index N1_ N2_ <= INT_MAX)%Z ->
  Spec.subscripts_in_int N1_ N2_
  /\ (forall r, RFT.N1 r = N1_ -> RFT.N2 r = N2_ ->
                length (RFT.phi_x r) = Z.to_nat (N1_ * N2_) ->
                (RFT.real_space_white_noise r <> None
                 <-> Forall (fun k => (0 <= k < N1_ * N2_)%Z)
                            (Spec.accessed N1_ N2_)))
  /\ (forall r, RFT.N1 r = N1_ -> RFT.N2 r = N2_ ->
                length (RFT.phi_k r) = Z.to_nat (N1_ * N2_) ->
                (RFT.apply_k_spcae_propagation r <> None
                 <-> Forall (fun k => (0 <= k < N1_ * N2_)%Z)
                            (Spec.accessed N1_ N2_)))
  /\ (Spec.pass_exactly_once N1_ N2_ <-> N1_ = N2_ \/ N1_ = 1%Z)
  /\ (N1_ = N2_ \/ N1_ = 1%Z ->
      (forall r, RFT.N1 r = N1_ -> RFT.N2 r = N2_ ->
         length (RFT.phi_x r) = Z.to_nat (N1_ * N2_) ->
         exists a',
           RFT.real_space_white_noise r
           = Some (RFT.set_phi_x r a'
                     (RFT.mk_noise (RFT.deviate (RFT.generator r))
                        (RFT.taken (RFT.generator r)
                         + Z.to_nat (N1_ * N2_))))
           /\ length a' = Z.to_nat (N1_ * N2_)
           /\ forall k, (0 <= k < N1_ * N2_)%Z ->
                RFT.load a' k
                = Some (RFT.deviate (RFT.generator r)
                          (RFT.taken (RFT.generator r) + Z.to_nat k)%nat,
                        0%R))
      /\ (forall r, RFT.N1 r = N1_ -> RFT.N2 r = N2_ ->
            length (RFT.phi_k r) = Z.to_nat (N1_ * N2_) ->
            exists a',
              RFT.apply_k_spcae_propagation r = Some (RFT.set_phi_k r a')
              /\ length a' = Z.to_nat (N1_ * N2_)
              /\ forall i j, (0 <= i < N1_)%Z -> (0 <= j < N2_)%Z ->
                   RFT.load a' (i * N1_ + j)
                   = option_map (Spec.scale (RFT.ker r i j))
                       (RFT.load (RFT.phi_k r) (i * N1_ + j)))).
Proof.
  intros H1 H2 Hmax.
  split; [apply subscripts_in_int_iff; assumption |].
  split; [| split; [| split]].
  - intros r <- <- Hlen. rewrite noise_completes, Hlen, Z2Nat.id by nia.
    reflexivity.
  - intros r <- <- Hlen. rewrite filter_completes, Hlen, Z2Nat.id by nia.
    reflexivity.
  - split.
    + intros [Hin Honce].
      destruct (Z.eq_dec N1_ N2_) as [Heq | Hne]; [left; exact Heq |].
      destruct (Z.eq_dec N1_ 1) as [Hone | Hmany]; [right; exact Hone |].
      exfalso. destruct (Z_lt_ge_dec N2_ N1_) as [Hlt | Hge].
      * destruct (accessed_overrun N1_ N2_) as [Hacc Hout]; try lia.
        rewrite Forall_forall in Hin. apply Hin in Hacc. lia.
      * pose proof (accessed_twice N1_ N2_ ltac:(lia)) as Htwice.
        rewrite Honce in Htwice by nia. lia.
    + intros [-> | ->]; apply pass_exactly_once_of_range.
      * apply accessed_square. lia.
      * apply accessed_single_row.
  - intros Hshape. split.
    + intros r E1 E2 Hlen. subst N1_ N2_.
      destruct (noise_in_order r Hshape ltac:(lia) Hlen)
        as (a' & Hrun & Hlen' & Hcells).
      exists a'. split; [exact Hrun |]. split; [congruence | exact Hcells].
    + intros r E1 E2 Hlen. subst N1_ N2_.
      destruct (filter_in_order r Hshape ltac:(lia) ltac:(lia) Hlen)
        as (a' & Hrun & Hlen' & Hcells).
      exists a'. split; [exact Hrun |]. split; [congruence | exact Hcells].
Qed.

Lemma workspace_addressing_witness :
  Spec.subscripts_in_int 2 2 /\ Spec.pass_exactly_once 2 2.
Proof.
  destruct (workspace_addressing 2 2) as (Hint & _ & _ & Honce & _);
    [lia | lia | unfold Spec.last_index, INT_MAX; lia |].
  split; [exact Hint | apply Honce; left; reflexivity].
Defined.

(** The claim of C10 that the guarantee fails for every grid with
    [N1 <> N2] does not hold: a grid of one row and two columns is swept
    in range and exactly once. *)
Lemma single_row_grid_swept_once :
  ~ (forall N1_ N2_ : Z,
        (1 <= N1_)%Z -> (1 <= N2_)%Z -> N1_ <> N2_ ->
        ~ Spec.pass_exactly_once N1_ N2_).
Proof.
  intros H. apply (H 1%Z 2%Z); [lia | lia | lia |].
  apply pass_exactly_once_of_range, accessed_single_row.
Qed.

(** ** One field realization *)

Lemma rect_generator_constructed :
  sample.rft2d_new 2 3 1 1 1 1 0 1 = inr sample.rect_generator.
Proof.
  assert (Hcut : int_of_double (3 * 1 * IZR 2 / 1)%R = 6%Z).
  { replace (3 * 1 * IZR 2 / 1)%R with (IZR 6) by lra.
    apply int_of_double_IZR. }
  unfold sample.rft2d_new, RFT.rft2d_new. rewrite Hcut. reflexivity.
Qed.

Lemma exp_minus_one_half : (exp (-1) < 1 / 2)%R.
Proof.
  pose proof (exp_ineq1 1 ltac:(lra)) as H.
  replace (-1)%R with (- (1))%R by lra.
  rewrite exp_Ropp. unfold Rdiv. rewrite Rmult_1_l.
  apply Rinv_lt_contravar; lra.
Qed.

(** C7 at the generator that [rft2d(2, 3, 1., 1., 1., 1., 0, 1.)] builds.
    The white-noise fill never reaches the last cell of [phi_x] and stores
    two deviates in cell [2], the later one staying; the frequency filter
    applied to any spectrum of six cells multiplies cell [2] by two factors
    and leaves the last cell unfiltered, although the factor at [(1, 2)] is
    below [1]. *)
Theorem rectangular_grid_misaddressed :
  RFT.real_space_white_noise sample.rect_generator
  = Some (RFT.set_phi_x sample.rect_generator
            [(sample.deviates 0 0, 0); (sample.deviates 0 1, 0);
             (sample.deviates 0 3, 0); (sample.deviates 0 4, 0);
             (sample.deviates 0 5, 0); sample.heap 5]%R
            (RFT.mk_noise (sample.deviates 0) 6))
  /\ (forall c0 c1 c2 c3 c4 c5 : complex,
        RFT.apply_k_spcae_propagation
          (RFT.set_phi_k sample.rect_generator [c0; c1; c2; c3; c4; c5])
        = Some (RFT.set_phi_k sample.rect_generator
                  [Spec.scale (RFT.ker sample.rect_generator 0 0) c0;
                   Spec.scale (RFT.ker sample.rect_generator 0 1) c1;
                   Spec.scale (RFT.ker sample.rect_generator 1 0)
                     (Spec.scale (RFT.ker sample.rect_generator 0 2) c2);
                   Spec.scale (RFT.ker sample.rect_generator 1 1) c3;
                   Spec.scale (RFT.ker sample.rect_generator 1 2) c4;
                   c5]))
  /\ (RFT.ker sample.rect_generator 1 2 < 1)%R.
Proof.
  split; [reflexivity |]. split; [intros; reflexivity |].
  unfold RFT.ker. cbn [sample.rect_generator RFT.N1 RFT.N2 RFT.L1 RFT.L2
                        RFT.coeff_k RFT.Var_k].
  change (Z.min 1 (2 - 1)) with 1%Z. change (Z.min 2 (3 - 2)) with 1%Z.
  pose proof PI_RGT_0 as Hpi0. pose proof PI_4 as Hpi4.
  assert (Hs : (sqrt (PI * 2 * 1 * 1 / 2 / 3 / 1 / 1) < 2)%R).
  { rewrite <- sqrt_square by lra. apply sqrt_lt_1_alt. lra. }
  assert (Hs0 : (0 <= sqrt (PI * 2 * 1 * 1 / 2 / 3 / 1 / 1))%R)
    by apply sqrt_pos.
  assert (He : (exp (0.5 * (- PI * PI * 2 * 1 * 1)
                     * ((1 / 1) ^ 2 + (1 / 1) ^ 2)) < 1 / 2)%R).
  { eapply Rle_lt_trans; [| apply exp_minus_one_half].
    assert (Harg : (0.5 * (- PI * PI * 2 * 1 * 1)
                    * ((1 / 1) ^ 2 + (1 / 1) ^ 2) <= -1)%R).
    { assert (H3 : (3 <= PI)%R) by (pose proof PI2_3_2; lra).
      nra. }
    destruct Harg as [Hlt | ->]; [left; apply exp_increasing; exact Hlt | lra]. }
  pose proof (exp_pos (0.5 * (- PI * PI * 2 * 1 * 1)
                       * ((1 / 1) ^ 2 + (1 / 1) ^ 2))) as Hpos.
  nra.
Qed.

Section realization.

Local Open Scope R_scope.

Variable fftw_forward fftw_backward : Z -> Z -> list complex -> list complex.

(** A transform returns as many cells as it is given. *)
Hypothesis fftw_forward_length :
  forall n0 n1 a, length (fftw_forward n0 n1 a) = length a.

(** On a square grid [run] is the four-step pipeline: the grid is filled
    with successive deviates on the real channel and zero on the imaginary
    one, transformed forward, multiplied cell by cell by [ker(i, j)] on both
    channels, and transformed backward. *)
Lemma run_square_grid (r : RFT.rft2d) (N_ : Z) :
  RFT.N1 r = N_ -> RFT.N2 r = N_ -> (0 <= N_)%Z ->
  length (RFT.phi_x r) = Z.to_nat (N_ * N_) ->
  exists noise filtered : list complex,
    (forall k, (0 <= k < N_ * N_)%Z ->
       RFT.load noise k
       = Some (RFT.deviate (RFT.generator r)
                 (RFT.taken (RFT.generator r) + Z.to_nat k)%nat, 0))
    /\ (forall i j, (0 <= i < N_)%Z -> (0 <= j < N_)%Z ->
          RFT.load filtered (i * N_ + j)
          = option_map (Spec.scale (RFT.ker r i j))
              (RFT.load (fftw_forward N_ N_ noise) (i * N_ + j)))
    /\ RFT.run fftw_forward fftw_backward r
       = Some (RFT.set_phi_x
                 (RFT.set_phi_k r filtered)
                 (fftw_backward N_ N_ filtered)
                 (RFT.mk_noise (RFT.deviate (RFT.generator r))
                    (RFT.taken (RFT.generator r) + Z.to_nat (N_ * N_)))).
Proof.
  intros H1 H2 HN Hlen.
  destruct (noise_square r N_ H1 H2 HN Hlen) as (noise & Hfill & Hnl & Hcells).
  set (r1 := RFT.set_phi_x r noise
               (RFT.mk_noise (RFT.deviate (RFT.generator r))
                  (RFT.taken (RFT.generator r) + Z.to_nat (N_ * N_)))) in *.
  destruct (filter_square (RFT.fftw_execute_x2k fftw_forward r1) N_)
    as (filtered & Hfilter & _ & Hscaled); try assumption.
  { cbn [RFT.fftw_execute_x2k RFT.set_phi_k RFT.phi_k].
    rewrite fftw_forward_length. cbn [r1 RFT.set_phi_x RFT.phi_x]. lia. }
  exists noise, filtered. split; [exact Hcells |]. split.
  - intros i j Hi Hj. rewrite (Hscaled i j Hi Hj).
    cbn [RFT.fftw_execute_x2k RFT.set_phi_k RFT.phi_k r1 RFT.set_phi_x
           RFT.N1 RFT.N2 RFT.phi_x].
    rewrite H1, H2. reflexivity.
  - unfold RFT.run. rewrite Hfill. fold r1. rewrite Hfilter.
    unfold RFT.fftw_execute_k2x, RFT.fftw_execute_x2k.
    cbn [RFT.set_phi_k RFT.set_phi_x RFT.N1 RFT.N2 RFT.L1 RFT.L2 RFT.Var_x
           RFT.Var_k RFT.lx RFT.coeff_k RFT.dx1 RFT.dx2 RFT.dk1 RFT.dk2
           RFT.icdf RFT.width RFT.dxy2 RFT.dxy RFT.Ncut RFT.generator
           RFT.phi_x RFT.phi_k RFT.TAB_clip r1].
    rewrite ?H1, ?H2. reflexivity.
Qed.

End realization.

(** ** Construction *)

Section construction.

Local Open Scope R_scope.

Variable gsl_sf_gamma_inc_P : R -> R -> R.
Variable seeded_deviates : Z -> nat -> R.
Variable heap_x heap_k : nat -> complex.

Local Abbreviation rft2d_new :=
  (RFT.rft2d_new gsl_sf_gamma_inc_P seeded_deviates heap_x heap_k).

(** The two outcomes of the embedded constructor, in which memory is not
    exhausted and the libraries do not fail: a negative length of the
    kernel table throws, any other length gives an object. *)
Lemma rft2d_new_cases (N1_ N2_ : Z) (L1_ L2_ Var_Phi_ lx_ : R) (seed_ : Z)
  (width_ : R) :
  let cut := int_of_double (3 * width_ * IZR N1_ / L1_) in
  let n := (cut * 2 + 1)%Z in
  ((n < 0)%Z ->
   rft2d_new N1_ N2_ L1_ L2_ Var_Phi_ lx_ seed_ width_
   = inl RFT.bad_array_new_length)
  /\ ((0 <= n)%Z ->
      exists r,
        rft2d_new N1_ N2_ L1_ L2_ Var_Phi_ lx_ seed_ width_ = inr r
        /\ RFT.N1 r = N1_ /\ RFT.N2 r = N2_ /\ RFT.lx r = lx_
        /\ RFT.width r = width_ /\ RFT.Var_x r = Var_Phi_
        /\ RFT.Ncut r = cut
        /\ RFT.dxy2 r = L1_ * L2_ / IZR N1_ / IZR N2_
        /\ RFT.TAB_clip r
           = map (fun i => map (RFT.TAB_clip_entry cut (RFT.dxy2 r) width_ i)
                             (zrange n))
                 (zrange n)).
Proof.
  intros cut n. unfold RFT.rft2d_new, RFT.iCDF_new, RFT.new_array.
  fold cut. fold n. change (500 <? 0)%Z with false. cbv iota.
  split; intros Hn.
  - destruct (Z.ltb_spec n 0); [reflexivity | lia].
  - destruct (Z.ltb_spec n 0); [lia |].
    eexists. split; [reflexivity |]. cbn. repeat split.
Qed.


End construction.

Lemma int_of_double_zero (x : R) : (0 <= x < 1)%R -> int_of_double x = 0%Z.
Proof.
  intros Hx. unfold int_of_double.
  destruct (Rle_dec 0 x) as [_ | Hneg]; [| lra].
  symmetry. apply Int_part_spec. lra.
Qed.



(** ** The kernel table *)

Section kernel_table.

Local Open Scope R_scope.




Lemma pi_width_sqr_pos (w : R) : 0 < w -> 0 < PI * w * w.
Proof.
  intros Hw. pose proof PI_RGT_0 as Hpi.
  apply Rmult_lt_0_compat; [apply Rmult_lt_0_compat |]; assumption.
Qed.

(** An entry of the table is the central value times a factor of
    [(0, 1]]. *)
Lemma TAB_clip_entry_range (cut : Z) (dxy2_ width_ : R) (i j : Z) :
  0 < dxy2_ -> 0 < width_ ->
  0 <= RFT.TAB_clip_entry cut dxy2_ width_ i j
    <= dxy2_ / (PI * width_ * width_).
Proof.
  intros Hd Hw. unfold RFT.TAB_clip_entry. cbv zeta.
  set (q := ((i - cut) * (i - cut) + (j - cut) * (j - cut))%Z).
  assert (Hq : IZR (- q) <= 0).
  { apply IZR_le. unfold q.
    pose proof (Z.square_nonneg (i - cut)).
    pose proof (Z.square_nonneg (j - cut)). lia. }
  assert (Hc : 0 < / (PI * width_ * width_)).
  { apply Rinv_0_lt_compat, pi_width_sqr_pos, Hw. }
  assert (He : IZR (- q) * dxy2_ / width_ / width_ <= 0).
  { unfold Rdiv. rewrite !Rmult_assoc.
    assert (0 < dxy2_ * (/ width_ * / width_)).
    { pose proof (Rinv_0_lt_compat _ Hw).
      apply Rmult_lt_0_compat; [| apply Rmult_lt_0_compat]; assumption. }
    nra. }
  pose proof (exp_pos (IZR (- q) * dxy2_ / width_ / width_)) as Hpos.
  assert (Hle1 : exp (IZR (- q) * dxy2_ / width_ / width_) <= 1).
  { rewrite <- exp_0. destruct He as [Hlt | ->]; [| lra].
    left. apply exp_increasing. exact Hlt. }
  unfold Rdiv. split.
  - apply Rmult_le_pos; [| lra]. apply Rmult_le_pos; lra.
  - rewrite Rmult_assoc.
    rewrite <- (Rmult_1_l (dxy2_ * / (PI * width_ * width_))) at 2.
    apply Rmult_le_compat_r; [| exact Hle1].
    apply Rmult_le_pos; lra.
Qed.

Lemma TAB_clip_entry_centre (cut : Z) (dxy2_ width_ : R) :
  RFT.TAB_clip_entry cut dxy2_ width_ cut cut
  = dxy2_ / (PI * width_ * width_).
Proof.
  unfold RFT.TAB_clip_entry. cbv zeta.
  replace (- ((cut - cut) * (cut - cut) + (cut - cut) * (cut - cut)))%Z
    with 0%Z by lia.
  unfold Rdiv. rewrite !Rmult_0_l, exp_0. ring.
Qed.





Variable gsl_sf_gamma_inc_P : R -> R -> R.
Variable seeded_deviates : Z -> nat -> R.
Variable heap_x heap_k : nat -> complex.


End kernel_table.








(** * Further properties of the code *)

(** ** More on participation *)

Section participation_more.

Import trento.
Local Open Scope R_scope.

Variable calculate_fluct_norm : RFT.rft2d -> Z -> Z -> Z -> Z -> R -> R -> R.

(** The three ways out of [participate]. *)
Lemma participate_outcome (p : NucleonProfile) (A B : Nucleon)
  (e : random.Engine) :
  participate calculate_fluct_norm p A B e = (true, A, B, e)
  /\ is_participant A && is_participant B = true
  \/ (exists e', participate calculate_fluct_norm p A B e = (false, A, B, e')
                 /\ is_participant A && is_participant B = false)
  \/ (exists e', participate calculate_fluct_norm p A B e
                 = (true, set_participant A, set_participant B, e')
                 /\ is_participant A && is_participant B = false).
Proof.
  unfold participate.
  destruct (is_participant A && is_participant B); [left; auto | right].
  destruct (gtb _ (max_impact_sqr_ p)); [left; eauto |].
  destruct (random.canonical e) as [u e'].
  match goal with |- context [ltb ?a ?b] => destruct (ltb a b) end; eauto.
Qed.

(** X2. [participate] touches nothing of a nucleon but its participant
    flag, never clears a flag, and leaves the sequence of raw engine outputs
    as it is, moving only forward in it. *)
Theorem participate_frame (p : NucleonProfile) (A B : Nucleon)
  (e : random.Engine) :
  let '(res, A', B', e') := participate calculate_fluct_norm p A B e in
  (x A' = x A /\ y A' = y A /\ fi A' = fi A /\ fj A' = fj A)
  /\ (x B' = x B /\ y B' = y B /\ fi B' = fi B /\ fj B' = fj B)
  /\ (is_participant A = true -> is_participant A' = true)
  /\ (is_participant B = true -> is_participant B' = true)
  /\ random.raw e' = random.raw e
  /\ (random.consumed e <= random.consumed e')%nat.
Proof.
  pose proof (participate_draw_count_aux := canonical_advances e).
  destruct participate_draw_count_aux as [Hc Hr].
  unfold participate.
  destruct (is_participant A && is_participant B);
    [repeat split; auto |].
  destruct (gtb _ (max_impact_sqr_ p)); [repeat split; auto |].
  destruct (random.canonical e) as [u e']. cbn [snd] in *.
  match goal with |- context [ltb ?a ?b] => destruct (ltb a b) end;
    repeat split; auto; lia.
Qed.

(** X3. The value returned by [participate] tells whether both nucleons
    are participants after the call. *)
Theorem participate_result_is_both_flags (p : NucleonProfile) (A B : Nucleon)
  (e : random.Engine) :
  let '(res, A', B', _) := participate calculate_fluct_norm p A B e in
  res = is_participant A' && is_participant B'.
Proof.
  destruct (participate_outcome p A B e)
    as [[-> Hb] | [(e' & -> & Hb) | (e' & -> & Hb)]];
    cbn; auto.
Qed.

(** X4. After a call that returned [true], calling again on the same pair
    returns [true], draws nothing and changes nothing. *)
Theorem participate_again_after_success (p : NucleonProfile)
  (A B A' B' : Nucleon) (e e' : random.Engine) :
  participate calculate_fluct_norm p A B e = (true, A', B', e') ->
  participate calculate_fluct_norm p A' B' e' = (true, A', B', e').
Proof.
  intros Hfirst.
  assert (Hboth : is_participant A' && is_participant B' = true).
  { destruct (participate_outcome p A B e)
      as [[H Hb] | [(e1 & H & Hb) | (e1 & H & Hb)]];
      rewrite H in Hfirst; try discriminate;
      injection Hfirst as <- <- <-; auto. }
  unfold participate. rewrite Hboth. reflexivity.
Qed.

(** The value compared with the uniform is at least [1] when the
    fluctuation norm is not positive. *)
Lemma survival_at_least_one (Kf c : R) : Kf <= 0 -> 1 <= exp (- Kf * exp c).
Proof.
  intros HK. pose proof (exp_pos c) as Hc.
  assert (Harg : 0 <= - Kf * exp c) by nra.
  rewrite <- exp_0. destruct Harg as [Hlt | <-]; [| lra].
  left. apply exp_increasing. exact Hlt.
Qed.

(** X5. A pair whose fluctuation norm [Kf] is zero or negative is never
    marked by the sampling step: unless both nucleons participate already,
    the call returns [false] and leaves both nucleons as they are. *)
Theorem nonpositive_norm_never_marks (p : NucleonProfile) (A B : Nucleon)
  (e : random.Engine) :
  is_participant A && is_participant B = false ->
  calculate_fluct_norm (field_generator p) (fi A) (fj A) (fi B) (fj B)
    (x A - x B) (y A - y B) <= 0 ->
  exists e', participate calculate_fluct_norm p A B e = (false, A, B, e').
Proof.
  intros Hboth HK. unfold participate. rewrite Hboth.
  destruct (gtb _ (max_impact_sqr_ p)); [eauto |].
  pose proof (canonical_range e) as Hu.
  destruct (random.canonical e) as [u e']. cbn [fst] in Hu.
  match goal with
  | |- context [ltb (exp (- ?K * exp ?c)) u] =>
      pose proof (survival_at_least_one K c HK) as Hq;
      replace (ltb (exp (- K * exp c)) u) with false
        by (symmetry; apply ltb_false; lra)
  end.
  eauto.
Qed.

(** X6. Participation is monotone in the fluctuation norm: with the same
    profile, pair and engine state, a pair that comes out as participating
    for a norm [Kf] does so for every larger norm, with the same result. *)
Theorem participation_monotone_in_norm
  (other_fluct_norm : RFT.rft2d -> Z -> Z -> Z -> Z -> R -> R -> R)
  (p : NucleonProfile) (A B A' B' : Nucleon) (e e' : random.Engine) :
  calculate_fluct_norm (field_generator p) (fi A) (fj A) (fi B) (fj B)
    (x A - x B) (y A - y B)
  <= other_fluct_norm (field_generator p) (fi A) (fj A) (fi B) (fj B)
       (x A - x B) (y A - y B) ->
  participate calculate_fluct_norm p A B e = (true, A', B', e') ->
  participate other_fluct_norm p A B e = (true, A', B', e').
Proof.
  intros HK. unfold participate.
  destruct (is_participant A && is_participant B); [auto |].
  destruct (gtb _ (max_impact_sqr_ p)); [auto |].
  destruct (random.canonical e) as [u e1].
  set (c := cross_sec_param_ p
            - 0.25 * ((x A - x B) * (x A - x B) + (y A - y B) * (y A - y B))
              / width_sqr_ p).
  set (K1 := calculate_fluct_norm _ _ _ _ _ _ _) in *.
  set (K2 := other_fluct_norm _ _ _ _ _ _ _) in *.
  assert (Hq : exp (- K2 * exp c) <= exp (- K1 * exp c)).
  { pose proof (exp_pos c) as Hc.
    assert (Harg : - K2 * exp c <= - K1 * exp c) by nra.
    destruct Harg as [Hlt | ->]; [left; apply exp_increasing; exact Hlt | lra]. }
  destruct (ltb (exp (- K1 * exp c)) u) eqn:H1; [| discriminate].
  apply ltb_true in H1.
  replace (ltb (exp (- K2 * exp c)) u) with true
    by (symmetry; apply ltb_true; lra).
  auto.
Qed.

(** X1. Two nucleons that are positioned one after the other and then
    handed to [participate] read the engine in a fixed order: with [c]
    outputs consumed before, the anchors of the first nucleon come from the
    raw outputs [c] and [c+1], those of the second from [c+2] and [c+3].
    Positioning clears the participant flags, so [participate] goes to the
    range test: out of range it returns [false] and reads nothing more; in
    range its uniform [u] is drawn at position [c+4] of the stream, which
    then stands at [c+5], and the pair is marked exactly when [q < u]. *)
Theorem positioned_pair_stream (p : NucleonProfile) (A0 B0 : Nucleon)
  (xa ya xb yb : R) (e : random.Engine) :
  let A := fst (set_position A0 xa ya e) in
  let e1 := snd (set_position A0 xa ya e) in
  let B := fst (set_position B0 xb yb e1) in
  let e2 := snd (set_position B0 xb yb e1) in
  let c := random.consumed e in
  let anchor := fun k : nat => ((random.raw e k mod 2 ^ 64) mod 1950 + 25)%Z in
  let d2 := (xa - xb) * (xa - xb) + (ya - yb) * (ya - yb) in
  let Kf := calculate_fluct_norm (field_generator p) (fi A) (fj A) (fi B)
              (fj B) (xa - xb) (ya - yb) in
  let q := exp (- Kf * exp (cross_sec_param_ p - 0.25 * d2 / width_sqr_ p)) in
  let u := fst (random.canonical e2) in
  let e3 := snd (random.canonical e2) in
  (fi A = anchor c /\ fj A = anchor (c + 1)%nat
   /\ fi B = anchor (c + 2)%nat /\ fj B = anchor (c + 3)%nat)
  /\ e2 = random.mkEngine (random.raw e) (c + 4)
  /\ e3 = random.mkEngine (random.raw e) (c + 5)
  /\ (max_impact_sqr_ p < d2 ->
      participate calculate_fluct_norm p A B e2 = (false, A, B, e2))
  /\ (d2 <= max_impact_sqr_ p -> q < u ->
      participate calculate_fluct_norm p A B e2
      = (true, set_participant A, set_participant B, e3))
  /\ (d2 <= max_impact_sqr_ p -> u <= q ->
      participate calculate_fluct_norm p A B e2 = (false, A, B, e3)).
Proof.
  cbv zeta. unfold set_position, random.engine.
  cbn [fst snd random.raw random.consumed fi fj fi_ fj_].
  replace (S (S (S (S (random.consumed e)))))
    with (random.consumed e + 4)%nat by lia.
  replace (S (random.consumed e)) with (random.consumed e + 1)%nat by lia.
  replace (S (random.consumed e + 1)) with (random.consumed e + 2)%nat by lia.
  replace (S (random.consumed e + 2)) with (random.consumed e + 3)%nat by lia.
  split; [repeat split |]. split; [reflexivity |].
  unfold participate, random.canonical, random.engine.
  cbn [is_participant participant_ andb x y x_ y_ fi fj fi_ fj_ fst snd
         random.raw random.consumed].
  replace (S (random.consumed e + 4)) with (random.consumed e + 5)%nat by lia.
  split; [reflexivity |].
  split; [| split]; intros Hd.
  - replace (gtb _ (max_impact_sqr_ p)) with true
      by (symmetry; apply gtb_true; lra).
    reflexivity.
  - intros Hq.
    replace (gtb _ (max_impact_sqr_ p)) with false
      by (symmetry; apply gtb_false; lra).
    match goal with |- context [ltb ?a ?b] =>
      replace (ltb a b) with true by (symmetry; apply ltb_true; exact Hq)
    end.
    reflexivity.
  - intros Hq.
    replace (gtb _ (max_impact_sqr_ p)) with false
      by (symmetry; apply gtb_false; lra).
    match goal with |- context [ltb ?a ?b] =>
      replace (ltb a b) with false by (symmetry; apply ltb_false; exact Hq)
    end.
    reflexivity.
Qed.

End participation_more.

(** With the sample profile, two unmarked nucleons at the same place and a
    uniform of [1/2], a norm of [2] or more marks the pair. *)
Lemma sample_pair_marked (K : R) :
  (2 <= K)%R ->
  trento.participate (fun _ _ _ _ _ _ _ => K) sample.profile
    (sample.nucleon_at 0 0 false) (sample.nucleon_at 0 0 false)
    sample.engine_half
  = (true, trento.set_participant (sample.nucleon_at 0 0 false),
     trento.set_participant (sample.nucleon_at 0 0 false),
     snd (random.canonical sample.engine_half)).
Proof.
  intros HK. unfold trento.participate.
  cbn [trento.is_participant trento.participant_ sample.nucleon_at andb
         trento.x trento.y trento.x_ trento.y_ sample.profile
         trento.max_impact_sqr_ trento.cross_sec_param_ trento.width_sqr_].
  replace (gtb ((0 - 0) * (0 - 0) + (0 - 0) * (0 - 0)) 10)%R with false
    by (symmetry; apply gtb_false; lra).
  assert (Hu : fst (random.canonical sample.engine_half) = (1 / 2)%R).
  { unfold random.canonical, random.engine, sample.engine_half.
    cbn [random.raw random.consumed fst].
    change (2 ^ 63 mod 2 ^ 64)%Z with (2 ^ 63)%Z.
    change (2 ^ 64)%Z with (2 * 2 ^ 63)%Z. rewrite mult_IZR.
    assert (0 < IZR (2 ^ 63))%R by (apply IZR_lt; reflexivity).
    field. lra. }
  destruct (random.canonical sample.engine_half) as [u e'].
  cbn [fst snd] in *. subst u.
  match goal with |- context [ltb ?q (1 / 2)%R] =>
    replace (ltb q (1 / 2)%R) with true; [reflexivity |]
  end.
  symmetry. apply ltb_true.
  pose proof ln_lt_2 as Hln.
  replace (ln (ln 2) - 0.25 * ((0 - 0) * (0 - 0) + (0 - 0) * (0 - 0)) / (1 / 2))%R
    with (ln (ln 2)) by (unfold Rdiv; ring).
  rewrite exp_ln by lra.
  eapply Rlt_trans; [| apply exp_minus_one_half].
  apply exp_increasing. nra.
Qed.

Lemma positioned_pair_stream_witness :
  let A := fst (trento.set_position (sample.nucleon_at 0 0 true) 0 0
                  sample.engine_1000) in
  let e1 := snd (trento.set_position (sample.nucleon_at 0 0 true) 0 0
                   sample.engine_1000) in
  let B := fst (trento.set_position (sample.nucleon_at 0 0 true) 4 0 e1) in
  let e2 := snd (trento.set_position (sample.nucleon_at 0 0 true) 4 0 e1) in
  trento.fi A = 1025%Z
  /\ trento.participate sample.unit_fluct_norm sample.profile A B e2
     = (false, A, B, e2).
Proof.
  destruct (positioned_pair_stream sample.unit_fluct_norm sample.profile
              (sample.nucleon_at 0 0 true) (sample.nucleon_at 0 0 true)
              0 0 4 0 sample.engine_1000)
    as ((Hfi & _) & _ & _ & Hfar & _).
  cbv zeta. split.
  - rewrite Hfi. reflexivity.
  - apply Hfar. cbn [sample.profile trento.max_impact_sqr_]. lra.
Defined.

Lemma participate_again_after_success_witness :
  trento.participate (fun _ _ _ _ _ _ _ => 2%R) sample.profile
    (trento.set_participant (sample.nucleon_at 0 0 false))
    (trento.set_participant (sample.nucleon_at 0 0 false))
    (snd (random.canonical sample.engine_half))
  = (true, trento.set_participant (sample.nucleon_at 0 0 false),
     trento.set_participant (sample.nucleon_at 0 0 false),
     snd (random.canonical sample.engine_half)).
Proof.
  apply (participate_again_after_success (fun _ _ _ _ _ _ _ => 2%R)
           sample.profile
           (sample.nucleon_at 0 0 false) (sample.nucleon_at 0 0 false)
           _ _ sample.engine_half _).
  apply sample_pair_marked. lra.
Defined.

Lemma nonpositive_norm_never_marks_witness :
  exists e',
    trento.participate (fun _ _ _ _ _ _ _ => 0%R) sample.profile
      (sample.nucleon_at 0 0 false) (sample.nucleon_at 1 1 false)
      sample.engine_half
    = (false, sample.nucleon_at 0 0 false, sample.nucleon_at 1 1 false, e').
Proof.
  apply (nonpositive_norm_never_marks (fun _ _ _ _ _ _ _ => 0%R)
           sample.profile (sample.nucleon_at 0 0 false)
           (sample.nucleon_at 1 1 false) sample.engine_half).
  - reflexivity.
  - lra.
Defined.

Lemma participation_monotone_in_norm_witness :
  trento.participate (fun _ _ _ _ _ _ _ => 3%R) sample.profile
    (sample.nucleon_at 0 0 false) (sample.nucleon_at 0 0 false)
    sample.engine_half
  = (true, trento.set_participant (sample.nucleon_at 0 0 false),
     trento.set_participant (sample.nucleon_at 0 0 false),
     snd (random.canonical sample.engine_half)).
Proof.
  apply (participation_monotone_in_norm (fun _ _ _ _ _ _ _ => 2%R)
           (fun _ _ _ _ _ _ _ => 3%R) sample.profile
           (sample.nucleon_at 0 0 false) (sample.nucleon_at 0 0 false)
           _ _ sample.engine_half _).
  - lra.
  - apply sample_pair_marked. lra.
Defined.

(** ** Radius, maximum impact parameter, thickness and fluctuation *)

Section profile_more.

Import trento.
Local Open Scope R_scope.

(** X7. [radius()] separates the distances at which [thickness] vanishes
    from those at which it is the Gaussian value: for a distance [b >= 0]
    from the centre and a truncation radius squared that is not negative,
    [thickness(b*b)] is [0] when [b > radius()] and the Gaussian value when
    [b < radius()].  At [b = radius()] itself the outcome is that of the
    comparison of [b*b] with the truncation radius squared. *)
Theorem radius_bounds_thickness (p : NucleonProfile) (b : R) :
  0 <= trunc_radius_sqr_ p -> 0 <= b ->
  (radius p < b -> thickness p (b * b) = 0)
  /\ (b < radius p ->
      thickness p (b * b)
      = prefactor_ p * fast_exp_ p (neg_one_div_two_width_sqr_ p * (b * b))).
Proof.
  intros HT Hb. unfold radius.
  pose proof (sqrt_sqrt _ HT) as Hsq. pose proof (sqrt_pos (trunc_radius_sqr_ p)).
  split; intros Hcmp.
  - apply thickness_beyond. nra.
  - apply thickness_within. nra.
Qed.

Variable calculate_fluct_norm : RFT.rft2d -> Z -> Z -> Z -> Z -> R -> R -> R.

(** X8. [max_impact()] separates the pairs that are out of range from
    those that are sampled: for a maximum impact parameter squared that is
    not negative and a pair not yet participating on both sides, a
    transverse distance above [max_impact()] gives [false] with nothing
    drawn and nothing changed, and a distance below [max_impact()] takes
    exactly one draw.  At a distance equal to [max_impact()] the outcome is
    that of the comparison of the squares. *)
Theorem max_impact_bounds_participation (p : NucleonProfile) (A B : Nucleon)
  (e : random.Engine) :
  0 <= max_impact_sqr_ p ->
  is_participant A && is_participant B = false ->
  (max_impact p < sqrt (distance_sqr A B) ->
   participate calculate_fluct_norm p A B e = (false, A, B, e))
  /\ (sqrt (distance_sqr A B) < max_impact p ->
      random.consumed (snd (participate calculate_fluct_norm p A B e))
      = S (random.consumed e)).
Proof.
  intros HM Hboth. unfold max_impact.
  assert (Hd : 0 <= distance_sqr A B).
  { pose proof (Rle_0_sqr (x A - x B)) as Hx.
    pose proof (Rle_0_sqr (y A - y B)) as Hy.
    unfold Rsqr in Hx, Hy. unfold distance_sqr. lra. }
  unfold participate. rewrite Hboth. fold (distance_sqr A B).
  change ((x A - x B) * (x A - x B) + (y A - y B) * (y A - y B))
    with (distance_sqr A B).
  split; intros Hcmp.
  - apply sqrt_lt_0_alt in Hcmp.
    replace (gtb (distance_sqr A B) (max_impact_sqr_ p)) with true
      by (symmetry; apply gtb_true; lra).
    reflexivity.
  - apply sqrt_lt_0_alt in Hcmp.
    replace (gtb (distance_sqr A B) (max_impact_sqr_ p)) with false
      by (symmetry; apply gtb_false; lra).
    pose proof (canonical_advances e) as [Hc _].
    destruct (random.canonical e) as [u e']. cbn [snd] in Hc.
    match goal with |- context [ltb ?a ?b] => destruct (ltb a b) end;
      exact Hc.
Qed.

(** X9. With a prefactor that is not negative, a cached coefficient that is
    not positive and a [fast_exp_] that is nonnegative and nondecreasing,
    [thickness] is nonnegative and nonincreasing in the squared distance;
    in particular it is at most its value at the centre. *)
Theorem thickness_nonincreasing (p : NucleonProfile) :
  0 <= prefactor_ p -> neg_one_div_two_width_sqr_ p <= 0 ->
  (forall t, 0 <= fast_exp_ p t) ->
  (forall s t, s <= t -> fast_exp_ p s <= fast_exp_ p t) ->
  (forall d, 0 <= thickness p d)
  /\ (forall d1 d2, d1 <= d2 -> thickness p d2 <= thickness p d1)
  /\ (forall d, 0 <= d -> thickness p d <= thickness p 0).
Proof.
  intros Hpre Hneg Hpos Hmono.
  assert (Hnonneg : forall d, 0 <= thickness p d).
  { intros d. unfold thickness. destruct (gtb d (trunc_radius_sqr_ p)); [lra |].
    apply Rmult_le_pos; [exact Hpre | apply Hpos]. }
  assert (Hdecr : forall d1 d2, d1 <= d2 -> thickness p d2 <= thickness p d1).
  { intros d1 d2 Hd. unfold thickness.
    destruct (gtb d2 (trunc_radius_sqr_ p)) eqn:H2.
    - destruct (gtb d1 (trunc_radius_sqr_ p)); [lra |].
      apply Rmult_le_pos; [exact Hpre | apply Hpos].
    - apply gtb_false in H2.
      replace (gtb d1 (trunc_radius_sqr_ p)) with false
        by (symmetry; apply gtb_false; lra).
      apply Rmult_le_compat_l; [exact Hpre |].
      apply Hmono. nra. }
  split; [exact Hnonneg |]. split; [exact Hdecr |].
  intros d Hd. apply Hdecr. exact Hd.
Qed.

Variable gamma_state : Type.
Variable fluct_dist_ :
  gamma_state -> random.Engine -> R * gamma_state * random.Engine.

(** X10. [fluctuate] keeps the shape of the profile.  For a positive
    squared width, a cached coefficient that is not positive, a
    [fast_exp_] that is nonnegative and nondecreasing and a deviate of the
    gamma distribution that is not negative, [thickness] after [fluctuate]
    is nonnegative, nonincreasing in the squared distance and at most its
    value at the centre.  Fluctuations do not accumulate: a second
    [fluctuate] gives the profile that the same deviate gives on the
    profile before the first. *)
Theorem fluctuate_keeps_shape (p : NucleonProfile) (s : gamma_state)
  (e : random.Engine) :
  0 < width_sqr_ p -> neg_one_div_two_width_sqr_ p <= 0 ->
  (forall t, 0 <= fast_exp_ p t) ->
  (forall s t, s <= t -> fast_exp_ p s <= fast_exp_ p t) ->
  0 <= fst (fst (fluct_dist_ s e)) ->
  let p' := fst (fst (fluctuate gamma_state fluct_dist_ p s e)) in
  (forall d, 0 <= thickness p' d)
  /\ (forall d1 d2, d1 <= d2 -> thickness p' d2 <= thickness p' d1)
  /\ (forall d, 0 <= d -> thickness p' d <= thickness p' 0)
  /\ (forall s2 e2,
        fst (fst (fluctuate gamma_state fluct_dist_ p' s2 e2))
        = fst (fst (fluctuate gamma_state fluct_dist_ p s2 e2))).
Proof.
  intros Hw Hneg Hpos Hmono Hg. cbv zeta. unfold fluctuate.
  destruct (fluct_dist_ s e) as [[g s'] e']. cbn [fst snd] in *.
  set (p' := mk_NucleonProfile (field_generator p) (width_sqr_ p)
               (trunc_radius_sqr_ p) (max_impact_sqr_ p)
               (neg_one_div_two_width_sqr_ p) (cross_sec_param_ p)
               (fast_exp_ p) (g * one_div_two_pi / width_sqr_ p)).
  assert (Hpre : 0 <= prefactor_ p').
  { cbn [p' prefactor_]. unfold one_div_two_pi.
    pose proof PI_RGT_0 as Hpi.
    apply Rmult_le_pos; [| left; apply Rinv_0_lt_compat; exact Hw].
    apply Rmult_le_pos; [exact Hg |].
    apply Rmult_le_pos; [lra |]. left. apply Rinv_0_lt_compat. lra. }
  assert (Hnonneg : forall d, 0 <= thickness p' d).
  { intros d. unfold thickness.
    destruct (gtb d (trunc_radius_sqr_ p')); [lra |].
    apply Rmult_le_pos; [exact Hpre | apply Hpos]. }
  assert (Hdecr : forall d1 d2, d1 <= d2 -> thickness p' d2 <= thickness p' d1).
  { intros d1 d2 Hd. unfold thickness.
    destruct (gtb d2 (trunc_radius_sqr_ p')) eqn:H2.
    - destruct (gtb d1 (trunc_radius_sqr_ p')); [lra |].
      apply Rmult_le_pos; [exact Hpre | apply Hpos].
    - apply gtb_false in H2.
      replace (gtb d1 (trunc_radius_sqr_ p')) with false
        by (symmetry; apply gtb_false; lra).
      apply Rmult_le_compat_l; [exact Hpre |].
      apply Hmono. cbn [p' neg_one_div_two_width_sqr_]. nra. }
  split; [exact Hnonneg |]. split; [exact Hdecr |].
  split; [intros d Hd; apply Hdecr; exact Hd |].
  intros s2 e2. destruct (fluct_dist_ s2 e2) as [[g2 s2'] e2'].
  reflexivity.
Qed.

End profile_more.

Lemma radius_bounds_thickness_witness :
  trento.thickness sample.profile (4 * 4) = 0%R.
Proof.
  apply (radius_bounds_thickness sample.profile 4).
  - cbn. lra.
  - lra.
  - unfold trento.radius. cbn [sample.profile trento.trunc_radius_sqr_].
    apply Rlt_le_trans with (sqrt (4 * 4));
      [apply sqrt_lt_1_alt; lra | rewrite sqrt_square; lra].
Defined.

Lemma max_impact_bounds_participation_witness :
  trento.participate sample.unit_fluct_norm sample.profile
    (sample.nucleon_at 0 0 false) (sample.nucleon_at 4 0 false)
    sample.engine_half
  = (false, sample.nucleon_at 0 0 false, sample.nucleon_at 4 0 false,
     sample.engine_half).
Proof.
  apply (max_impact_bounds_participation sample.unit_fluct_norm sample.profile
           (sample.nucleon_at 0 0 false) (sample.nucleon_at 4 0 false)
           sample.engine_half).
  - cbn. lra.
  - reflexivity.
  - unfold trento.max_impact, trento.distance_sqr.
    cbn [sample.profile trento.max_impact_sqr_ trento.x trento.y trento.x_
           trento.y_ sample.nucleon_at].
    apply sqrt_lt_1_alt. lra.
Defined.

Lemma thickness_nonincreasing_witness :
  (trento.thickness sample.profile 2 <= trento.thickness sample.profile 1)%R.
Proof.
  apply (thickness_nonincreasing sample.profile).
  - cbn. lra.
  - cbn. lra.
  - intros t. left. apply exp_pos.
  - intros s t [Hlt | ->]; [left; apply exp_increasing; exact Hlt | cbn; lra].
  - lra.
Defined.

Lemma fluctuate_keeps_shape_witness :
  let p' := fst (fst (trento.fluctuate unit (fun s e => (2%R, s, e))
                        sample.profile tt sample.engine_half)) in
  (trento.thickness p' 2 <= trento.thickness p' 1)%R.
Proof.
  cbv zeta.
  apply (fluctuate_keeps_shape unit (fun s e => (2%R, s, e)) sample.profile
           tt sample.engine_half).
  - cbn. lra.
  - cbn. lra.
  - intros t. left. apply exp_pos.
  - intros s t [Hlt | ->]; [left; apply exp_increasing; exact Hlt | cbn; lra].
  - cbn. lra.
  - lra.
Defined.

(** ** More on the inverse CDF sampler *)

Section iCDF_more.

Local Open Scope R_scope.

Variable gsl_sf_gamma_inc_P : R -> R -> R.
Variable gsl_sf_erf_Q : R -> R.
Variable N_ : Z.
Variable k : R.

Local Abbreviation xq := (Spec.quantile N_ k).
Local Abbreviation Pk := (gsl_sf_gamma_inc_P k).

Hypothesis shape_positive : 0 < k.
Hypothesis table_size : (2 <= N_)%Z.
Hypothesis P_increasing :
  forall x1 x2, 0 <= x1 -> x1 < x2 ->
                gsl_sf_gamma_inc_P k x1 < gsl_sf_gamma_inc_P k x2.

Lemma table_cdf_increasing (i j : Z) :
  (0 <= i < j)%Z -> Pk (xq i) < Pk (xq j).
Proof.
  intros Hij. apply P_increasing.
  - apply (xq_nonneg N_ k shape_positive table_size). lia.
  - apply (xq_increasing N_ k shape_positive table_size). lia.
Qed.

Lemma table_cdf_nondecreasing (i j : Z) :
  (0 <= i <= j)%Z -> Pk (xq i) <= Pk (xq j).
Proof.
  intros Hij. destruct (Z.eq_dec i j) as [-> | Hne]; [lra |].
  left. apply table_cdf_increasing. lia.
Qed.

(** X12. Every value the sampler returns lies between [0] and the largest
    tabulated quantile over [k], which is below [10 / sqrt(k)]. *)
Theorem iCDF_output_range (c : RFT.iCDF) (g v : R) :
  RFT.iCDF_new gsl_sf_gamma_inc_P N_ k = inr c ->
  RFT.iCDF_call gsl_sf_erf_Q c g = Some v ->
  0 <= v <= xq (N_ - 1) / k /\ xq (N_ - 1) / k < 10 / sqrt k.
Proof.
  intros Hnew.
  rewrite (iCDF_call_branches gsl_sf_gamma_inc_P gsl_sf_erf_Q N_ k
             table_size c g Hnew).
  cbv zeta. intros Hv. injection Hv as <-.
  pose proof (xq_nonneg N_ k shape_positive table_size (N_ - 1) ltac:(lia))
    as HxL.
  pose proof (xq_zero N_ k) as Hx0.
  assert (Hik : 0 < / k) by (apply Rinv_0_lt_compat; exact shape_positive).
  assert (Hdiv : forall a b, a <= b -> a / k <= b / k).
  { intros a b Hab. unfold Rdiv. apply Rmult_le_compat_r; lra. }
  assert (Htop : 0 <= xq (N_ - 1) / k).
  { unfold Rdiv. apply Rmult_le_pos; lra. }
  split.
  - destruct (ltb _ (Pk (xq 0))) eqn:E1.
    + rewrite Hx0. unfold Rdiv. rewrite Rmult_0_l. lra.
    + destruct (gtb _ (Pk (xq (N_ - 1)))) eqn:E2; [lra |].
      apply ltb_false in E1. apply gtb_false in E2.
      pose proof (interpolant_range gsl_sf_gamma_inc_P N_ k shape_positive
                    table_size P_increasing c _ Hnew (conj E1 E2))
        as [_ Hup].
      destruct (ltb _ 0) eqn:E3; [lra |].
      apply ltb_false in E3. split; [exact E3 | apply Hdiv; exact Hup].
  - pose proof (xq_below_top N_ k shape_positive table_size (N_ - 1)
                  ltac:(lia)) as Hlt.
    pose proof (sqrt_lt_R0 k shape_positive) as Hs.
    replace (10 / sqrt k) with (10 * sqrt k / k).
    + unfold Rdiv. apply Rmult_lt_compat_r; assumption.
    + rewrite <- (sqrt_sqrt k) at 2 by lra. field. lra.
Qed.

(** X13. The sampler inverts the table at its points: a deviate whose
    normal CDF value [1 - Q(g)] equals the tabulated [P(k, x_i)] is mapped
    to the tabulated quantile [x_i] over [k]. *)
Theorem iCDF_inverts_table (c : RFT.iCDF) (g : R) (i : Z) :
  RFT.iCDF_new gsl_sf_gamma_inc_P N_ k = inr c ->
  (0 <= i < N_)%Z ->
  1 - gsl_sf_erf_Q g = Pk (xq i) ->
  RFT.iCDF_call gsl_sf_erf_Q c g = Some (xq i / k).
Proof.
  intros Hnew Hi Hcdf.
  rewrite (iCDF_call_branches gsl_sf_gamma_inc_P gsl_sf_erf_Q N_ k
             table_size c g Hnew).
  cbv zeta. rewrite Hcdf.
  pose proof (table_cdf_nondecreasing 0 i ltac:(lia)) as Hlo.
  pose proof (table_cdf_nondecreasing i (N_ - 1) ltac:(lia)) as Hhi.
  replace (ltb (Pk (xq i)) (Pk (xq 0))) with false
    by (symmetry; apply ltb_false; exact Hlo).
  replace (gtb (Pk (xq i)) (Pk (xq (N_ - 1)))) with false
    by (symmetry; apply gtb_false; exact Hhi).
  destruct (iCDF_new_tables gsl_sf_gamma_inc_P N_ k c ltac:(lia) Hnew)
    as (_ & _ & _ & Hx & Hy).
  assert (Hnode : RFT.gsl_spline_eval (RFT.y_gamma_cdf c) (RFT.x_gamma c)
                    (Pk (xq i)) = xq i).
  { rewrite Hx, Hy.
    assert (Hnth : forall (f : Z -> R) j, (0 <= j < N_)%Z ->
               nth_error (map f (zrange N_)) (Z.to_nat j) = Some (f j)).
    { intros f j Hj. rewrite nth_error_map, zrange_nth_error by lia.
      reflexivity. }
    assert (Hlen : length (map (fun j => Pk (xq j)) (zrange N_))
                   = length (map xq (zrange N_)))
      by (rewrite !length_map; reflexivity).
    pose proof (y_gamma_cdf_sorted gsl_sf_gamma_inc_P N_ k shape_positive
                  table_size P_increasing) as Hsorted.
    destruct (Z.eq_dec i (N_ - 1)) as [Hlast | Hinner].
    - pose proof (table_cdf_increasing (i - 1) i ltac:(lia)) as Hstep.
      rewrite (spline_eval_interpolates _ _ (Z.to_nat (i - 1)) (Pk (xq i))
                 (Pk (xq (i - 1))) (Pk (xq i)) (xq (i - 1)) (xq i) Hlen
                 Hsorted).
      + field. lra.
      + apply (Hnth (fun j => Pk (xq j))). lia.
      + replace (S (Z.to_nat (i - 1))) with (Z.to_nat i) by lia.
        apply (Hnth (fun j => Pk (xq j))). lia.
      + apply Hnth. lia.
      + replace (S (Z.to_nat (i - 1))) with (Z.to_nat i) by lia.
        apply Hnth. lia.
      + lra.
    - pose proof (table_cdf_increasing i (i + 1) ltac:(lia)) as Hstep.
      rewrite (spline_eval_interpolates _ _ (Z.to_nat i) (Pk (xq i))
                 (Pk (xq i)) (Pk (xq (i + 1))) (xq i) (xq (i + 1)) Hlen
                 Hsorted).
      + field. lra.
      + apply (Hnth (fun j => Pk (xq j))). lia.
      + replace (S (Z.to_nat i)) with (Z.to_nat (i + 1)) by lia.
        apply (Hnth (fun j => Pk (xq j))). lia.
      + apply Hnth. lia.
      + replace (S (Z.to_nat i)) with (Z.to_nat (i + 1)) by lia.
        apply Hnth. lia.
      + lra. }
  rewrite Hnode.
  pose proof (xq_nonneg N_ k shape_positive table_size i ltac:(lia)) as Hxi.
  assert (Hres : 0 <= xq i / k).
  { unfold Rdiv. apply Rmult_le_pos; [exact Hxi |].
    left. apply Rinv_0_lt_compat. exact shape_positive. }
  replace (ltb (xq i / k) 0) with false
    by (symmetry; apply ltb_false; exact Hres).
  reflexivity.
Qed.

End iCDF_more.

Lemma sample_table_value : (Spec.quantile 500 1 50 = 1)%R.
Proof.
  unfold Spec.quantile, Spec.quantile_step. rewrite sqrt_1. lra.
Qed.

Lemma iCDF_output_range_witness :
  exists c v,
    RFT.iCDF_new sample.P 500 1 = inr c
    /\ RFT.iCDF_call sample.Q c 0 = Some v
    /\ (0 <= v < 10 / sqrt 1)%R.
Proof.
  eexists. eexists. split; [reflexivity |].
  pose proof (iCDF_call_branches sample.P sample.Q 500 1 ltac:(lia) _ 0%R
                eq_refl) as Hcall.
  cbv zeta in Hcall. split; [exact Hcall |].
  destruct (iCDF_output_range sample.P sample.Q 500 1 ltac:(lra) ltac:(lia)
              (sample_P_increasing 1) _ 0%R _ eq_refl Hcall) as [[H0 H1] H2].
  split; [exact H0 | lra].
Defined.

Lemma iCDF_inverts_table_witness :
  exists c,
    RFT.iCDF_new sample.P 500 1 = inr c
    /\ RFT.iCDF_call sample.Q c 0 = Some (Spec.quantile 500 1 50 / 1)%R.
Proof.
  eexists. split; [reflexivity |].
  apply (iCDF_inverts_table sample.P sample.Q 500 1 ltac:(lra) ltac:(lia)
           (sample_P_increasing 1) _ 0%R 50%Z eq_refl ltac:(lia)).
  rewrite sample_table_value. unfold sample.Q, sample.P.
  rewrite exp_0. lra.
Defined.

(** ** More on construction and on the kernel table *)

Section construction_more.

Local Open Scope R_scope.

Variable gsl_sf_gamma_inc_P : R -> R -> R.
Variable seeded_deviates : Z -> nat -> R.
Variable heap_x heap_k : nat -> complex.

Local Abbreviation rft2d_new :=
  (RFT.rft2d_new gsl_sf_gamma_inc_P seeded_deviates heap_x heap_k).

(** X14. What the constructor establishes.  Whenever it returns a
    generator for grid sizes that are not negative, with [N1*N2] and the
    stored side [2 Ncut + 1] of the kernel table values of [int]: the
    half-width [Ncut] is not negative, both workspaces have [N1*N2] cells,
    the kernel table is square of side [2 Ncut + 1], the sampler has 500
    table points and the noise generator has handed out nothing yet. *)
Theorem rft2d_new_valid_sizes (N1_ N2_ : Z) (L1_ L2_ Var_Phi_ lx_ : R)
  (seed_ : Z) (width_ : R) (r : RFT.rft2d) :
  rft2d_new N1_ N2_ L1_ L2_ Var_Phi_ lx_ seed_ width_ = inr r ->
  (0 <= N1_)%Z -> (0 <= N2_)%Z -> (N1_ * N2_ <= INT_MAX)%Z ->
  int_range (2 * RFT.Ncut r + 1) ->
  (0 <= RFT.Ncut r)%Z
  /\ length (RFT.phi_x r) = Z.to_nat (N1_ * N2_)
  /\ length (RFT.phi_k r) = Z.to_nat (N1_ * N2_)
  /\ length (RFT.TAB_clip r) = Z.to_nat (2 * RFT.Ncut r + 1)
  /\ Forall (fun row => length row = Z.to_nat (2 * RFT.Ncut r + 1))
            (RFT.TAB_clip r)
  /\ RFT.taken (RFT.generator r) = O
  /\ length (RFT.x_gamma (RFT.icdf r)) = 500%nat
  /\ length (RFT.y_gamma_cdf (RFT.icdf r)) = 500%nat.
Proof.
  intros Hnew _ _ _ _. revert Hnew.
  unfold RFT.rft2d_new, RFT.iCDF_new, RFT.new_array.
  set (cut := int_of_double (3 * width_ * IZR N1_ / L1_)).
  change (500 <? 0)%Z with false. cbv iota.
  destruct (Z.ltb_spec (cut * 2 + 1) 0) as [Hneg | Hge]; [discriminate |].
  intros Hnew. injection Hnew as <-.
  cbn [RFT.Ncut RFT.phi_x RFT.phi_k RFT.TAB_clip RFT.generator RFT.taken
         RFT.icdf RFT.x_gamma RFT.y_gamma_cdf].
  replace (2 * cut + 1)%Z with (cut * 2 + 1)%Z by lia.
  split; [lia |].
  unfold alloc. rewrite !length_map, !length_seq, !zrange_length.
  repeat split.
  apply Forall_forall. intros row Hrow.
  apply in_map_iff in Hrow as (i & <- & _).
  rewrite length_map, zrange_length. reflexivity.
Qed.

(** The entries of the kernel table of a constructed generator. *)
Lemma TAB_clip_at (N1_ N2_ : Z) (L1_ L2_ Var_Phi_ lx_ : R) (seed_ : Z)
  (width_ : R) (r : RFT.rft2d) (i j : Z) :
  rft2d_new N1_ N2_ L1_ L2_ Var_Phi_ lx_ seed_ width_ = inr r ->
  (0 <= i < 2 * RFT.Ncut r + 1)%Z -> (0 <= j < 2 * RFT.Ncut r + 1)%Z ->
  Spec.table_at (RFT.TAB_clip r) i j
  = Some (RFT.TAB_clip_entry (RFT.Ncut r) (RFT.dxy2 r) (RFT.width r) i j).
Proof.
  intros Hnew Hi Hj.
  destruct (rft2d_new_cases gsl_sf_gamma_inc_P seeded_deviates heap_x heap_k
              N1_ N2_ L1_ L2_ Var_Phi_ lx_ seed_ width_) as [Hfail Hok].
  cbv zeta in Hfail, Hok.
  set (cut := int_of_double (3 * width_ * IZR N1_ / L1_)) in *.
  destruct (Z_lt_ge_dec (cut * 2 + 1) 0) as [Hneg | Hge].
  { rewrite (Hfail Hneg) in Hnew. discriminate. }
  destruct (Hok ltac:(lia))
    as (r' & Hr' & _ & _ & _ & Hwidth & _ & Hcut & _ & Htab).
  rewrite Hnew in Hr'. injection Hr' as <-.
  rewrite Hcut in *. unfold Spec.table_at. rewrite Htab, Hwidth.
  rewrite (load_map_zrange
             (fun i => map (RFT.TAB_clip_entry cut (RFT.dxy2 r) width_ i)
                         (zrange (cut * 2 + 1)))) by lia.
  rewrite load_map_zrange by lia. reflexivity.
Qed.

Lemma TAB_clip_entry_depends_on_radius (cut : Z) (d w : R) (i j i' j' : Z) :
  ((i - cut) * (i - cut) + (j - cut) * (j - cut)
   = (i' - cut) * (i' - cut) + (j' - cut) * (j' - cut))%Z ->
  RFT.TAB_clip_entry cut d w i j = RFT.TAB_clip_entry cut d w i' j'.
Proof.
  intros Heq. unfold RFT.TAB_clip_entry. cbv zeta. rewrite Heq. reflexivity.
Qed.

(** X15. The kernel table of a constructed generator is symmetric: it is
    equal to its transpose and to its mirror images about the central row
    and the central column. *)
Theorem kernel_table_symmetric (N1_ N2_ : Z) (L1_ L2_ Var_Phi_ lx_ : R)
  (seed_ : Z) (width_ : R) (r : RFT.rft2d) (i j : Z) :
  rft2d_new N1_ N2_ L1_ L2_ Var_Phi_ lx_ seed_ width_ = inr r ->
  (0 <= i < 2 * RFT.Ncut r + 1)%Z -> (0 <= j < 2 * RFT.Ncut r + 1)%Z ->
  Spec.table_at (RFT.TAB_clip r) j i = Spec.table_at (RFT.TAB_clip r) i j
  /\ Spec.table_at (RFT.TAB_clip r) (2 * RFT.Ncut r - i) j
     = Spec.table_at (RFT.TAB_clip r) i j
  /\ Spec.table_at (RFT.TAB_clip r) i (2 * RFT.Ncut r - j)
     = Spec.table_at (RFT.TAB_clip r) i j.
Proof.
  intros Hnew Hi Hj.
  rewrite !(TAB_clip_at N1_ N2_ L1_ L2_ Var_Phi_ lx_ seed_ width_ r)
    by (try exact Hnew; lia).
  repeat split; f_equal; apply TAB_clip_entry_depends_on_radius; ring.
Qed.

(** X16. For a positive width, a positive cell area and a half-width
    whose squared distances [(i-Ncut)² + (j-Ncut)²] are values of [int],
    the entries of the kernel table are not negative and fall off with the
    distance from the centre: of two cells the one farther from the centre
    holds the smaller or equal value, and no entry exceeds the central one,
    [dxy2 / (pi width²)]. *)
Theorem kernel_table_decays (N1_ N2_ : Z) (L1_ L2_ Var_Phi_ lx_ : R)
  (seed_ : Z) (width_ : R) (r : RFT.rft2d) (i j i' j' : Z) :
  rft2d_new N1_ N2_ L1_ L2_ Var_Phi_ lx_ seed_ width_ = inr r ->
  0 < width_ -> 0 < L1_ * L2_ / IZR N1_ / IZR N2_ ->
  (2 * (RFT.Ncut r * RFT.Ncut r) <= INT_MAX)%Z ->
  (0 <= i < 2 * RFT.Ncut r + 1)%Z -> (0 <= j < 2 * RFT.Ncut r + 1)%Z ->
  (0 <= i' < 2 * RFT.Ncut r + 1)%Z -> (0 <= j' < 2 * RFT.Ncut r + 1)%Z ->
  ((i - RFT.Ncut r) * (i - RFT.Ncut r) + (j - RFT.Ncut r) * (j - RFT.Ncut r)
   <= (i' - RFT.Ncut r) * (i' - RFT.Ncut r)
      + (j' - RFT.Ncut r) * (j' - RFT.Ncut r))%Z ->
  exists v v',
    Spec.table_at (RFT.TAB_clip r) i j = Some v
    /\ Spec.table_at (RFT.TAB_clip r) i' j' = Some v'
    /\ 0 <= v' <= v
    /\ v <= RFT.dxy2 r / (PI * RFT.width r * RFT.width r)
    /\ Spec.table_at (RFT.TAB_clip r) (RFT.Ncut r) (RFT.Ncut r)
       = Some (RFT.dxy2 r / (PI * RFT.width r * RFT.width r)).
Proof.
  intros Hnew Hw Hd _ Hi Hj Hi' Hj' Hfar.
  destruct (rft2d_new_fields _ _ _ _ _ _ _ _ _ _ _ _ _ Hnew)
    as (_ & _ & _ & Hwidth & Hdxy).
  assert (Hdpos : 0 < RFT.dxy2 r) by (rewrite Hdxy; exact Hd).
  rewrite Hwidth in *.
  do 2 eexists.
  rewrite !(TAB_clip_at N1_ N2_ L1_ L2_ Var_Phi_ lx_ seed_ width_ r)
    by (try exact Hnew; lia).
  rewrite Hwidth, TAB_clip_entry_centre.
  split; [reflexivity |]. split; [reflexivity |].
  split; [| split; [apply TAB_clip_entry_range; assumption | reflexivity]].
  unfold RFT.TAB_clip_entry. cbv zeta.
  set (q := ((i - RFT.Ncut r) * (i - RFT.Ncut r)
             + (j - RFT.Ncut r) * (j - RFT.Ncut r))%Z) in *.
  set (q' := ((i' - RFT.Ncut r) * (i' - RFT.Ncut r)
              + (j' - RFT.Ncut r) * (j' - RFT.Ncut r))%Z) in *.
  pose proof (pi_width_sqr_pos width_ Hw) as Hpi.
  assert (Hc : 0 < RFT.dxy2 r / (PI * width_ * width_))
    by (apply Rdiv_lt_0_compat; assumption).
  assert (Hs : 0 < RFT.dxy2 r / width_ / width_).
  { repeat apply Rdiv_lt_0_compat; assumption. }
  assert (Harg : IZR (- q') * RFT.dxy2 r / width_ / width_
                 <= IZR (- q) * RFT.dxy2 r / width_ / width_).
  { assert (Hq : IZR (- q') <= IZR (- q)) by (apply IZR_le; lia).
    unfold Rdiv in *. rewrite !Rmult_assoc. rewrite !Rmult_assoc in Hs.
    apply Rmult_le_compat_r; [lra | exact Hq]. }
  assert (Hexp : exp (IZR (- q') * RFT.dxy2 r / width_ / width_)
                 <= exp (IZR (- q) * RFT.dxy2 r / width_ / width_)).
  { destruct Harg as [Hlt | ->]; [left; apply exp_increasing; exact Hlt | lra]. }
  pose proof (exp_pos (IZR (- q') * RFT.dxy2 r / width_ / width_)) as Hpos.
  set (E := exp (IZR (- q) * RFT.dxy2 r / width_ / width_)) in *.
  set (E' := exp (IZR (- q') * RFT.dxy2 r / width_ / width_)) in *.
  set (c := RFT.dxy2 r / (PI * width_ * width_)) in *.
  replace (E' * RFT.dxy2 r / (PI * width_ * width_)) with (E' * c)
    by (unfold c, Rdiv; ring).
  replace (E * RFT.dxy2 r / (PI * width_ * width_)) with (E * c)
    by (unfold c, Rdiv; ring).
  split; [apply Rmult_le_pos; lra |].
  apply Rmult_le_compat_r; [lra | exact Hexp].
Qed.

End construction_more.

Lemma rft2d_new_valid_sizes_witness :
  (0 <= RFT.Ncut sample.rect_generator)%Z
  /\ length (RFT.phi_x sample.rect_generator) = 6%nat.
Proof.
  destruct (rft2d_new_valid_sizes sample.P sample.deviates sample.heap
              sample.heap 2 3 1 1 1 1 0 1 sample.rect_generator
              rect_generator_constructed)
    as (Hcut & Hx & _);
    [lia | lia | unfold INT_MAX; lia
     | cbn [sample.rect_generator RFT.Ncut];
       unfold int_range, INT_MIN, INT_MAX; lia |].
  split; [exact Hcut | exact Hx].
Defined.

Lemma kernel_table_symmetric_witness :
  Spec.table_at (RFT.TAB_clip sample.rect_generator) 1 0
  = Spec.table_at (RFT.TAB_clip sample.rect_generator) 0 1.
Proof.
  apply (kernel_table_symmetric sample.P sample.deviates sample.heap
           sample.heap 2 3 1 1 1 1 0 1 sample.rect_generator 0 1
           rect_generator_constructed);
    cbn [sample.rect_generator RFT.Ncut]; lia.
Defined.

Lemma kernel_table_decays_witness :
  exists v v',
    Spec.table_at (RFT.TAB_clip sample.rect_generator) 6 6 = Some v
    /\ Spec.table_at (RFT.TAB_clip sample.rect_generator) 0 0 = Some v'
    /\ (0 <= v' <= v)%R.
Proof.
  destruct (kernel_table_decays sample.P sample.deviates sample.heap
              sample.heap 2 3 1 1 1 1 0 1 sample.rect_generator 6 6 0 0
              rect_generator_constructed)
    as (v & v' & Hv & Hv' & Hle & _);
    try (cbn [sample.rect_generator RFT.Ncut]; unfold INT_MAX; lia);
    try lra.
  exists v, v'. auto.
Defined.

(** ** The filter factor *)

Section filter_factor.

Local Open Scope R_scope.

Lemma ker_value (r : RFT.rft2d) (i j : Z) :
  RFT.ker r i j
  = RFT.Var_k r
    * exp (0.5 * RFT.coeff_k r
           * ((IZR (Z.min i (RFT.N1 r - i)) / RFT.L1 r) ^ 2
              + (IZR (Z.min j (RFT.N2 r - j)) / RFT.L2 r) ^ 2)).
Proof. reflexivity. Qed.

Lemma scaled_square (m m' : Z) (L : R) :
  (m * m <= m' * m')%Z -> (IZR m / L) ^ 2 <= (IZR m' / L) ^ 2.
Proof.
  intros Hm. apply IZR_le in Hm. rewrite !mult_IZR in Hm.
  unfold Rdiv. replace ((IZR m * / L) ^ 2) with (IZR m * IZR m * (/ L * / L))
    by ring.
  replace ((IZR m' * / L) ^ 2) with (IZR m' * IZR m' * (/ L * / L)) by ring.
  apply Rmult_le_compat_r; [| exact Hm].
  pose proof (Rle_0_sqr (/ L)) as H. unfold Rsqr in H. exact H.
Qed.

(** X17. The factor of the frequency filter is a low-pass with the wrapped
    index convention: for [Var_k >= 0] and [coeff_k <= 0] it lies between
    [0] and [Var_k], it is the same at [i] and [N1 - i] and at [j] and
    [N2 - j], it does not increase when the wrapped indices [min(i, N1-i)]
    and [min(j, N2-j)] grow in absolute value, and for grid sizes that are
    not negative it equals [Var_k] at the zero frequency. *)
Theorem filter_factor_low_pass (r : RFT.rft2d) (i j : Z) :
  0 <= RFT.Var_k r -> RFT.coeff_k r <= 0 ->
  0 <= RFT.ker r i j <= RFT.Var_k r
  /\ RFT.ker r (RFT.N1 r - i) j = RFT.ker r i j
  /\ RFT.ker r i (RFT.N2 r - j) = RFT.ker r i j
  /\ (forall i' j',
        (Z.min i (RFT.N1 r - i) * Z.min i (RFT.N1 r - i)
         <= Z.min i' (RFT.N1 r - i') * Z.min i' (RFT.N1 r - i'))%Z ->
        (Z.min j (RFT.N2 r - j) * Z.min j (RFT.N2 r - j)
         <= Z.min j' (RFT.N2 r - j') * Z.min j' (RFT.N2 r - j'))%Z ->
        RFT.ker r i' j' <= RFT.ker r i j)
  /\ ((0 <= RFT.N1 r)%Z -> (0 <= RFT.N2 r)%Z -> RFT.ker r 0 0 = RFT.Var_k r).
Proof.
  intros HV Hc.
  assert (Hsq : forall t, 0 <= t ^ 2) by (intros t; nra).
  assert (Hmono : forall s t, s <= t ->
             exp (0.5 * RFT.coeff_k r * t) <= exp (0.5 * RFT.coeff_k r * s)).
  { intros s t Hst.
    assert (Harg : 0.5 * RFT.coeff_k r * t <= 0.5 * RFT.coeff_k r * s) by nra.
    destruct Harg as [Hlt | ->]; [left; apply exp_increasing; exact Hlt | lra]. }
  split; [| split; [| split; [| split]]].
  - rewrite ker_value.
    set (q := (IZR (Z.min i (RFT.N1 r - i)) / RFT.L1 r) ^ 2
              + (IZR (Z.min j (RFT.N2 r - j)) / RFT.L2 r) ^ 2).
    assert (Hq : 0 <= q) by (unfold q; pose proof (Hsq (IZR (Z.min i (RFT.N1 r - i)) / RFT.L1 r)); pose proof (Hsq (IZR (Z.min j (RFT.N2 r - j)) / RFT.L2 r)); lra).
    pose proof (exp_pos (0.5 * RFT.coeff_k r * q)) as Hpos.
    pose proof (Hmono 0 q Hq) as Hle. rewrite Rmult_0_r, exp_0 in Hle.
    split; [apply Rmult_le_pos; lra |].
    rewrite <- (Rmult_1_r (RFT.Var_k r)) at 2.
    apply Rmult_le_compat_l; assumption.
  - rewrite !ker_value.
    replace (Z.min (RFT.N1 r - i) (RFT.N1 r - (RFT.N1 r - i)))
      with (Z.min i (RFT.N1 r - i)) by lia.
    reflexivity.
  - rewrite !ker_value.
    replace (Z.min (RFT.N2 r - j) (RFT.N2 r - (RFT.N2 r - j)))
      with (Z.min j (RFT.N2 r - j)) by lia.
    reflexivity.
  - intros i' j' Hi Hj. rewrite !ker_value.
    apply Rmult_le_compat_l; [exact HV |].
    apply Hmono.
    pose proof (scaled_square _ _ (RFT.L1 r) Hi).
    pose proof (scaled_square _ _ (RFT.L2 r) Hj). lra.
  - intros H1 H2. rewrite ker_value.
    replace (Z.min 0 (RFT.N1 r - 0)) with 0%Z by lia.
    replace (Z.min 0 (RFT.N2 r - 0)) with 0%Z by lia.
    unfold Rdiv. rewrite !Rmult_0_l. cbn [pow]. rewrite !Rmult_0_l, Rplus_0_l,
      Rmult_0_r, exp_0. ring.
Qed.

Variable gsl_sf_gamma_inc_P : R -> R -> R.
Variable seeded_deviates : Z -> nat -> R.
Variable heap_x heap_k : nat -> complex.

(** The constants of a constructed generator have the signs the filter
    relies on. *)
Lemma constructed_filter_constants (N1_ N2_ : Z) (L1_ L2_ Var_Phi_ lx_ : R)
  (seed_ : Z) (width_ : R) (r : RFT.rft2d) :
  RFT.rft2d_new gsl_sf_gamma_inc_P seeded_deviates heap_x heap_k
    N1_ N2_ L1_ L2_ Var_Phi_ lx_ seed_ width_ = inr r ->
  0 <= RFT.Var_k r /\ RFT.coeff_k r <= 0.
Proof.
  unfold RFT.rft2d_new, RFT.iCDF_new, RFT.new_array.
  change (500 <? 0)%Z with false. cbv iota.
  destruct (_ <? 0)%Z; [discriminate |].
  intros H. injection H as <-. cbn [RFT.Var_k RFT.coeff_k].
  split; [apply sqrt_pos |].
  pose proof PI_RGT_0 as Hpi.
  assert (0 <= PI * PI * (lx_ * lx_)).
  { apply Rmult_le_pos; [nra |]. pose proof (Rle_0_sqr lx_) as H.
    unfold Rsqr in H. exact H. }
  lra.
Qed.

End filter_factor.

Lemma filter_factor_low_pass_witness :
  (0 <= RFT.ker sample.rect_generator 1 2 <= RFT.Var_k sample.rect_generator)%R.
Proof.
  destruct (constructed_filter_constants sample.P sample.deviates sample.heap
              sample.heap 2 3 1 1 1 1 0 1 sample.rect_generator
              rect_generator_constructed) as [HV Hc].
  apply (filter_factor_low_pass sample.rect_generator 1 2 HV Hc).
Defined.

(** ** More on the two passes *)

Section sweeps_more.

Local Open Scope R_scope.

Lemma list_upd_related {A : Type} (rel : A -> A -> Prop) (f : A -> A)
  (n : nat) (a0 a : list A) :
  (forall v w, rel v w -> rel v (f w)) ->
  Forall2 rel a0 a -> Forall2 rel a0 (list_upd n f a).
Proof.
  intros Hstep H. revert n.
  induction H as [| v w a0 a Hvw Hrest IH]; intros n.
  - destruct n; cbn; constructor.
  - destruct n as [| n]; cbn [list_upd].
    + constructor; [apply Hstep; exact Hvw | assumption].
    + constructor; [exact Hvw | apply IH].
Qed.

(** A relation between the old and the new content of a cell that every
    update of the loop maintains holds between the array before and after
    the loop. *)
Lemma sweep_related {A P : Type} (idx : P -> Z) (f : P -> A -> A)
  (rel : A -> A -> Prop) (l : list P) (a0 a a' : list A) :
  (forall p, In p l -> forall v w, rel v w -> rel v (f p w)) ->
  Forall2 rel a0 a ->
  foldM (fun p a => upd a (idx p) (f p)) l a = Some a' ->
  Forall2 rel a0 a'.
Proof.
  revert a. induction l as [| p l IH]; intros a Hstep Hrel; cbn [foldM].
  - intros H. injection H as <-. exact Hrel.
  - destruct (upd a (idx p) (f p)) as [a1 |] eqn:Hu; [| discriminate].
    apply upd_some in Hu as [_ ->].
    apply IH.
    + intros q Hq. apply Hstep. right. exact Hq.
    + apply list_upd_related; [apply Hstep; left; reflexivity | exact Hrel].
Qed.

Lemma Forall2_refl {A : Type} (rel : A -> A -> Prop) (a : list A) :
  (forall v, rel v v) -> Forall2 rel a a.
Proof.
  intros Hrefl. induction a; constructor; auto.
Qed.

Lemma same_configuration_set_phi_k (r : RFT.rft2d) (a : list complex) :
  Spec.same_configuration r (RFT.set_phi_k r a).
Proof. unfold Spec.same_configuration. cbn. repeat split. Qed.

Lemma same_configuration_set_phi_x (r : RFT.rft2d) (a : list complex)
  (g : RFT.noise_source) :
  Spec.same_configuration r (RFT.set_phi_x r a g).
Proof. unfold Spec.same_configuration. cbn. repeat split. Qed.

Lemma grid_length (N1_ N2_ : Z) :
  length (Spec.grid N1_ N2_) = (Z.to_nat N1_ * Z.to_nat N2_)%nat.
Proof.
  unfold Spec.grid. rewrite <- (zrange_length N1_).
  induction (zrange N1_) as [| i l IH]; cbn [flat_map length]; [reflexivity |].
  rewrite length_app, length_map, zrange_length, IH. reflexivity.
Qed.

(** X18. Whenever the frequency filter runs to completion, on any grid, it
    has multiplied both channels of every cell of [phi_k] by one common
    factor, which is not negative when [Var_k] is not; it keeps the number
    of cells, and it leaves [phi_x], the noise generator and the
    configuration as they are. *)
Theorem filter_scales_cells (r r' : RFT.rft2d) :
  0 <= RFT.Var_k r ->
  RFT.apply_k_spcae_propagation r = Some r' ->
  Forall2 (fun c c' => exists s, 0 <= s /\ c' = Spec.scale s c)
          (RFT.phi_k r) (RFT.phi_k r')
  /\ length (RFT.phi_k r') = length (RFT.phi_k r)
  /\ RFT.phi_x r' = RFT.phi_x r
  /\ RFT.generator r' = RFT.generator r
  /\ Spec.same_configuration r r'.
Proof.
  intros HV. rewrite filter_as_sweep.
  destruct (foldM _ (Spec.grid (RFT.N1 r) (RFT.N2 r)) (RFT.phi_k r))
    as [a' |] eqn:Hsweep; [| discriminate].
  intros H. injection H as <-.
  cbn [RFT.set_phi_k RFT.phi_k RFT.phi_x RFT.generator].
  assert (Hrel : Forall2 (fun c c' => exists s, 0 <= s /\ c' = Spec.scale s c)
                         (RFT.phi_k r) a').
  { eapply sweep_related; [| | exact Hsweep].
    - intros p _ v w (s & Hs & ->).
      exists (s * RFT.ker r (fst p) (snd p)). split.
      + apply Rmult_le_pos; [exact Hs |].
        rewrite ker_value. apply Rmult_le_pos; [exact HV |].
        left. apply exp_pos.
      + unfold Spec.scale. cbn [fst snd]. f_equal; ring.
    - apply Forall2_refl. intros [re im]. exists 1. split; [lra |].
      unfold Spec.scale. cbn [fst snd]. f_equal; ring. }
  split; [exact Hrel |].
  split; [symmetry; apply (Forall2_length Hrel) |].
  split; [reflexivity |]. split; [reflexivity |].
  apply same_configuration_set_phi_k.
Qed.

(** X19. Whenever the white-noise fill runs to completion, on any grid, it
    has taken exactly [N1*N2] deviates (none for a size that is not
    positive); every cell of [phi_x] is either as before or holds one of
    these deviates with imaginary channel zero; the number of cells,
    [phi_k] and the configuration are as before. *)
Theorem noise_fill_effect (r r' : RFT.rft2d) :
  RFT.real_space_white_noise r = Some r' ->
  RFT.deviate (RFT.generator r') = RFT.deviate (RFT.generator r)
  /\ RFT.taken (RFT.generator r')
     = (RFT.taken (RFT.generator r)
        + Z.to_nat (RFT.N1 r) * Z.to_nat (RFT.N2 r))%nat
  /\ Forall2 (fun c c' =>
                c' = c
                \/ exists t,
                     (RFT.taken (RFT.generator r) <= t
                      < RFT.taken (RFT.generator r')%nat)%nat
                     /\ c' = (RFT.deviate (RFT.generator r) t, 0))
             (RFT.phi_x r) (RFT.phi_x r')
  /\ length (RFT.phi_x r') = length (RFT.phi_x r)
  /\ RFT.phi_k r' = RFT.phi_k r
  /\ Spec.same_configuration r r'.
Proof.
  rewrite noise_as_sweep.
  match goal with
  | |- option_map _ ?x = _ -> _ => destruct x as [a' |] eqn:Hsweep
  end; [| discriminate].
  intros H. injection H as <-.
  cbn [RFT.set_phi_x RFT.phi_k RFT.phi_x RFT.generator RFT.deviate RFT.taken].
  rewrite grid_length.
  assert (Hrel : Forall2
            (fun c c' =>
               c' = c
               \/ exists t,
                    (RFT.taken (RFT.generator r) <= t
                     < RFT.taken (RFT.generator r)
                       + Z.to_nat (RFT.N1 r) * Z.to_nat (RFT.N2 r))%nat
                    /\ c' = (RFT.deviate (RFT.generator r) t, 0))
            (RFT.phi_x r) a').
  { eapply sweep_related; [| | exact Hsweep].
    - intros [t p] Hin v w _. right.
      apply combine_seq_In in Hin as [_ Hnth].
      assert (Hsome : nth_error (Spec.grid (RFT.N1 r) (RFT.N2 r)) (t - 0)
                      <> None) by congruence.
      apply nth_error_Some in Hsome. rewrite grid_length in Hsome.
      exists (RFT.taken (RFT.generator r) + t)%nat. cbn [fst].
      split; [lia | reflexivity].
    - apply Forall2_refl. auto. }
  split; [reflexivity |]. split; [reflexivity |].
  split; [exact Hrel |].
  split; [symmetry; apply (Forall2_length Hrel) |].
  split; [reflexivity |]. apply same_configuration_set_phi_x.
Qed.

Lemma grid_empty (N1_ N2_ : Z) :
  (N1_ <= 0)%Z \/ (N2_ <= 0)%Z -> Spec.grid N1_ N2_ = [].
Proof.
  intros H. apply length_zero_iff_nil. rewrite grid_length. lia.
Qed.

(** X20. On a grid without cells, one of the sizes being zero or negative,
    both passes complete at once: no cell of either workspace is read or
    written and no deviate is taken. *)
Theorem passes_on_empty_grid (r : RFT.rft2d) :
  (RFT.N1 r <= 0)%Z \/ (RFT.N2 r <= 0)%Z ->
  (exists r', RFT.real_space_white_noise r = Some r'
              /\ RFT.phi_x r' = RFT.phi_x r /\ RFT.phi_k r' = RFT.phi_k r
              /\ RFT.deviate (RFT.generator r') = RFT.deviate (RFT.generator r)
              /\ RFT.taken (RFT.generator r') = RFT.taken (RFT.generator r))
  /\ (exists r', RFT.apply_k_spcae_propagation r = Some r'
                 /\ RFT.phi_x r' = RFT.phi_x r /\ RFT.phi_k r' = RFT.phi_k r
                 /\ RFT.generator r' = RFT.generator r).
Proof.
  intros Hempty. split.
  - rewrite noise_as_sweep, (grid_empty _ _ Hempty). cbn.
    eexists. split; [reflexivity |]. cbn. rewrite Nat.add_0_r. auto.
  - rewrite filter_as_sweep, (grid_empty _ _ Hempty). cbn.
    eexists. split; [reflexivity |]. cbn. auto.
Qed.

End sweeps_more.

Lemma filter_scales_cells_witness :
  exists r',
    RFT.apply_k_spcae_propagation sample.rect_generator = Some r'
    /\ length (RFT.phi_k r') = length (RFT.phi_k sample.rect_generator).
Proof.
  eexists. split; [reflexivity |].
  apply (filter_scales_cells sample.rect_generator _).
  - cbn [sample.rect_generator RFT.Var_k]. apply sqrt_pos.
  - reflexivity.
Defined.

Lemma noise_fill_effect_witness :
  exists r',
    RFT.real_space_white_noise sample.rect_generator = Some r'
    /\ RFT.taken (RFT.generator r') = 6%nat.
Proof.
  eexists. split; [reflexivity |].
  apply (noise_fill_effect sample.rect_generator _ eq_refl).
Defined.

Lemma passes_on_empty_grid_witness :
  exists r r',
    sample.rft2d_new 0 0 1 1 1 0 0 0 = inr r
    /\ RFT.real_space_white_noise r = Some r'
    /\ RFT.phi_x r' = RFT.phi_x r.
Proof.
  destruct (rft2d_new_cases sample.P sample.deviates sample.heap sample.heap
              0 0 1 1 1 0 0 0) as [_ Hok].
  cbv zeta in Hok.
  rewrite int_of_double_zero in Hok
    by (unfold Rdiv; rewrite !Rmult_0_r, !Rmult_0_l; lra).
  destruct (Hok ltac:(lia)) as (r & Hr & HN1 & _).
  destruct (passes_on_empty_grid r ltac:(left; lia))
    as [(r' & Hrun & Hx & _) _].
  exists r, r'. auto.
Defined.

(** ** More on one realization *)

Section realization_more.

Local Open Scope R_scope.

Variable fftw_forward fftw_backward : Z -> Z -> list complex -> list complex.

Hypothesis fftw_forward_length :
  forall n0 n1 a, length (fftw_forward n0 n1 a) = length a.

Lemma same_configuration_trans (r1 r2 r3 : RFT.rft2d) :
  Spec.same_configuration r1 r2 -> Spec.same_configuration r2 r3 ->
  Spec.same_configuration r1 r3.
Proof.
  unfold Spec.same_configuration. intros H12 H23.
  repeat match goal with H : _ /\ _ |- _ => destruct H end.
  repeat split; congruence.
Qed.

(** What the fill leaves behind, whenever it completes. *)
Lemma noise_result (r r' : RFT.rft2d) :
  RFT.real_space_white_noise r = Some r' ->
  Spec.same_configuration r r'
  /\ length (RFT.phi_x r') = length (RFT.phi_x r)
  /\ RFT.phi_k r' = RFT.phi_k r
  /\ RFT.generator r'
     = RFT.mk_noise (RFT.deviate (RFT.generator r))
         (RFT.taken (RFT.generator r)
          + Z.to_nat (RFT.N1 r) * Z.to_nat (RFT.N2 r)).
Proof.
  rewrite noise_as_sweep.
  match goal with
  | |- option_map _ ?x = _ -> _ => destruct x as [a' |] eqn:Hsweep
  end; [| discriminate].
  intros H. injection H as <-. rewrite grid_length.
  split; [apply same_configuration_set_phi_x |].
  split; [apply (sweep_length _ _ _ _ _ _ _ Hsweep) |].
  split; reflexivity.
Qed.

(** What the filter leaves behind, whenever it completes. *)
Lemma filter_result (r r' : RFT.rft2d) :
  RFT.apply_k_spcae_propagation r = Some r' ->
  Spec.same_configuration r r'
  /\ length (RFT.phi_k r') = length (RFT.phi_k r)
  /\ RFT.phi_x r' = RFT.phi_x r
  /\ RFT.generator r' = RFT.generator r.
Proof.
  rewrite filter_as_sweep.
  destruct (foldM _ (Spec.grid (RFT.N1 r) (RFT.N2 r)) (RFT.phi_k r))
    as [a' |] eqn:Hsweep; [| discriminate].
  intros H. injection H as <-.
  split; [apply same_configuration_set_phi_k |].
  split; [apply (sweep_length _ _ _ _ _ _ _ Hsweep) |].
  split; reflexivity.
Qed.

(** All flat indices are in range exactly on grids of one row or of at
    least as many columns as rows. *)
Lemma accessed_in_range_iff (N1_ N2_ : Z) :
  (1 <= N1_)%Z -> (1 <= N2_)%Z ->
  Forall (fun k => (0 <= k < N1_ * N2_)%Z) (Spec.accessed N1_ N2_)
  <-> N1_ = 1%Z \/ (N1_ <= N2_)%Z.
Proof.
  intros H1 H2. split.
  - intros Hall.
    destruct (Z.eq_dec N1_ 1) as [Hone | Hmany]; [left; exact Hone | right].
    destruct (Z_lt_ge_dec N2_ N1_) as [Hlt | Hge]; [exfalso | lia].
    destruct (accessed_overrun N1_ N2_) as [Hacc Hout]; try lia.
    rewrite Forall_forall in Hall. apply Hall in Hacc. lia.
  - intros Hshape. apply Forall_forall. intros k Hk.
    apply accessed_In in Hk as (i & j & Hi & Hj & ->).
    destruct Hshape as [-> | Hle]; nia.
Qed.

(** X21. For positive grid sizes whose largest flat index
    [(N1-1)*N1 + (N2-1)] is a value of [int], and a real-space workspace of
    [N1*N2] cells, [run] completes without leaving the workspaces exactly
    when the grid has one row or at least as many columns as rows; with
    fewer columns than rows it writes past the end of a workspace. *)
Theorem run_completes_iff (r : RFT.rft2d) :
  (1 <= RFT.N1 r)%Z -> (1 <= RFT.N2 r)%Z ->
  (Spec.last_index (RFT.N1 r) (RFT.N2 r) <= INT_MAX)%Z ->
  length (RFT.phi_x r) = Z.to_nat (RFT.N1 r * RFT.N2 r) ->
  RFT.run fftw_forward fftw_backward r <> None
  <-> RFT.N1 r = 1%Z \/ (RFT.N1 r <= RFT.N2 r)%Z.
Proof.
  intros H1 H2 _ Hlen.
  rewrite <- (accessed_in_range_iff _ _ H1 H2).
  pose proof (noise_completes r) as Hnoise.
  rewrite Hlen, Z2Nat.id in Hnoise by nia.
  unfold RFT.run.
  destruct (RFT.real_space_white_noise r) as [r1 |] eqn:Hfill;
    [| exact Hnoise].
  destruct (noise_result r r1 Hfill) as ((HN1 & HN2 & _) & Hl1 & _).
  pose proof (filter_completes (RFT.fftw_execute_x2k fftw_forward r1)) as Hfilter.
  cbn [RFT.fftw_execute_x2k RFT.set_phi_k RFT.phi_k RFT.N1 RFT.N2] in Hfilter.
  rewrite fftw_forward_length, Hl1, Hlen, HN1, HN2, Z2Nat.id in Hfilter by nia.
  rewrite <- Hfilter.
  destruct (RFT.apply_k_spcae_propagation _) as [r2 |];
    split; intros H; congruence.
Qed.

Hypothesis fftw_backward_length :
  forall n0 n1 a, length (fftw_backward n0 n1 a) = length a.

(** What a realization leaves behind, whenever it completes. *)
Lemma run_effect (r r' : RFT.rft2d) :
  RFT.run fftw_forward fftw_backward r = Some r' ->
  Spec.same_configuration r r'
  /\ length (RFT.phi_x r') = length (RFT.phi_x r)
  /\ length (RFT.phi_k r') = length (RFT.phi_x r)
  /\ RFT.deviate (RFT.generator r') = RFT.deviate (RFT.generator r)
  /\ RFT.taken (RFT.generator r')
     = (RFT.taken (RFT.generator r)
        + Z.to_nat (RFT.N1 r) * Z.to_nat (RFT.N2 r))%nat.
Proof.
  unfold RFT.run.
  destruct (RFT.real_space_white_noise r) as [r1 |] eqn:Hfill;
    [| discriminate].
  destruct (noise_result r r1 Hfill) as (Hc1 & Hl1 & _ & Hg1).
  destruct (RFT.apply_k_spcae_propagation _) as [r2 |] eqn:Hfilter;
    [| discriminate].
  destruct (filter_result _ r2 Hfilter) as (Hc2 & Hl2 & _ & Hg2).
  intros H. injection H as <-.
  cbn [RFT.fftw_execute_x2k RFT.set_phi_k RFT.phi_k RFT.generator] in Hl2, Hg2.
  rewrite fftw_forward_length, Hl1 in Hl2.
  unfold RFT.fftw_execute_k2x.
  cbn [RFT.set_phi_x RFT.phi_x RFT.phi_k RFT.generator].
  rewrite fftw_backward_length, Hl2, Hg2, Hg1.
  split; [| repeat split].
  apply same_configuration_trans with r2;
    [| apply same_configuration_set_phi_x].
  apply same_configuration_trans with (RFT.fftw_execute_x2k fftw_forward r1);
    [| exact Hc2].
  apply same_configuration_trans with r1;
    [exact Hc1 | apply same_configuration_set_phi_k].
Qed.

(** X22. A realization that completes leaves the configuration of the
    generator as it was, keeps the size of the real-space workspace and
    gives the frequency workspace that size, and has taken exactly [N1*N2]
    deviates. *)
Theorem run_keeps_configuration (r r' : RFT.rft2d) :
  RFT.run fftw_forward fftw_backward r = Some r' ->
  Spec.same_configuration r r'
  /\ length (RFT.phi_x r') = length (RFT.phi_x r)
  /\ length (RFT.phi_k r') = length (RFT.phi_x r)
  /\ RFT.deviate (RFT.generator r') = RFT.deviate (RFT.generator r)
  /\ RFT.taken (RFT.generator r')
     = (RFT.taken (RFT.generator r)
        + Z.to_nat (RFT.N1 r) * Z.to_nat (RFT.N2 r))%nat.
Proof. apply run_effect. Qed.

Lemma list_eq_by_load {A : Type} (a b : list A) (n : Z) :
  length a = Z.to_nat n -> length b = Z.to_nat n ->
  (forall k, (0 <= k < n)%Z -> RFT.load a k = RFT.load b k) ->
  a = b.
Proof.
  intros Ha Hb Hcells. apply nth_error_ext. intros m.
  destruct (Nat.lt_ge_cases m (Z.to_nat n)) as [Hlt | Hge].
  - specialize (Hcells (Z.of_nat m) ltac:(lia)).
    rewrite !load_nth_error, Nat2Z.id in Hcells by lia. exact Hcells.
  - transitivity (@None A); [| symmetry]; apply nth_error_None; lia.
Qed.

Lemma ker_same_configuration (r r' : RFT.rft2d) (i j : Z) :
  Spec.same_configuration r r' -> RFT.ker r' i j = RFT.ker r i j.
Proof.
  unfold Spec.same_configuration. intros H.
  repeat match goal with H : _ /\ _ |- _ => destruct H end.
  rewrite !ker_value. congruence.
Qed.

(** On a square grid a realization is determined by the configuration and
    the state of the noise generator. *)
Lemma run_square_determined (r1 r2 : RFT.rft2d) (N_ : Z) :
  Spec.same_configuration r1 r2 ->
  RFT.generator r2 = RFT.generator r1 ->
  RFT.N1 r1 = N_ -> RFT.N2 r1 = N_ -> (0 <= N_)%Z ->
  length (RFT.phi_x r1) = Z.to_nat (N_ * N_) ->
  length (RFT.phi_x r2) = Z.to_nat (N_ * N_) ->
  exists r1' r2',
    RFT.run fftw_forward fftw_backward r1 = Some r1'
    /\ RFT.run fftw_forward fftw_backward r2 = Some r2'
    /\ RFT.phi_x r2' = RFT.phi_x r1'
    /\ RFT.phi_k r2' = RFT.phi_k r1'
    /\ RFT.generator r2' = RFT.generator r1'.
Proof.
  intros Hcfg Hgen H1 H2 HN Hl1 Hl2.
  assert (H1' : RFT.N1 r2 = N_) by (destruct Hcfg as (-> & _); exact H1).
  assert (H2' : RFT.N2 r2 = N_) by (destruct Hcfg as (_ & -> & _); exact H2).
  destruct (noise_square r1 N_ H1 H2 HN Hl1) as (n1 & Hfill1 & Hn1 & Hc1).
  destruct (noise_square r2 N_ H1' H2' HN Hl2) as (n2 & Hfill2 & Hn2 & Hc2).
  rewrite Hgen in Hfill2, Hc2.
  assert (Hn : n2 = n1).
  { apply (list_eq_by_load _ _ (N_ * N_)); try congruence.
    intros k Hk. rewrite Hc1, Hc2 by exact Hk. reflexivity. }
  subst n2.
  set (g' := RFT.mk_noise (RFT.deviate (RFT.generator r1))
               (RFT.taken (RFT.generator r1) + Z.to_nat (N_ * N_))) in *.
  destruct (filter_square
              (RFT.fftw_execute_x2k fftw_forward (RFT.set_phi_x r1 n1 g')) N_)
    as (f1 & Hfilter1 & Hf1 & Hs1); try assumption.
  { cbn [RFT.fftw_execute_x2k RFT.set_phi_k RFT.phi_k RFT.set_phi_x RFT.phi_x].
    rewrite fftw_forward_length. congruence. }
  destruct (filter_square
              (RFT.fftw_execute_x2k fftw_forward (RFT.set_phi_x r2 n1 g')) N_)
    as (f2 & Hfilter2 & Hf2 & Hs2); try assumption.
  { cbn [RFT.fftw_execute_x2k RFT.set_phi_k RFT.phi_k RFT.set_phi_x RFT.phi_x].
    rewrite fftw_forward_length. congruence. }
  cbn [RFT.fftw_execute_x2k RFT.set_phi_k RFT.phi_k RFT.set_phi_x RFT.phi_x
         RFT.N1 RFT.N2] in Hf1, Hf2, Hs1, Hs2.
  rewrite fftw_forward_length in Hf1, Hf2.
  rewrite H1, H2 in Hs1. rewrite H1', H2' in Hs2.
  assert (Hf : f2 = f1).
  { apply (list_eq_by_load _ _ (N_ * N_)); try congruence.
    intros k Hk.
    assert (HNpos : (0 < N_)%Z) by nia.
    pose proof (Z.div_mod k N_ ltac:(lia)) as Hdm.
    pose proof (Z.mod_pos_bound k N_ HNpos) as Hmod.
    assert (Hdiv : (0 <= k / N_ < N_)%Z).
    { split; [apply Z.div_pos; lia | apply Z.div_lt_upper_bound; lia]. }
    replace k with (k / N_ * N_ + k mod N_)%Z by lia.
    rewrite Hs1, Hs2 by assumption. f_equal.
    transitivity (Spec.scale (RFT.ker r2 (k / N_) (k mod N_)));
      [reflexivity |].
    rewrite (ker_same_configuration r1 r2) by exact Hcfg. reflexivity. }
  subst f2.
  eexists. eexists. unfold RFT.run.
  rewrite Hfill1, Hfill2, Hfilter1, Hfilter2.
  split; [reflexivity |]. split; [reflexivity |].
  cbn [RFT.fftw_execute_k2x RFT.fftw_execute_x2k RFT.set_phi_k RFT.set_phi_x
         RFT.phi_x RFT.phi_k RFT.generator RFT.N1 RFT.N2].
  rewrite H1, H2, H1', H2'. repeat split.
Qed.

(** X23. On a square grid of positive size [N] whose largest flat index
    [N*N - 1] is a value of [int], a realization does not depend on what
    the two workspaces held before: two generators with the same
    configuration and the same state of the noise generator both complete
    [run] and end with the same real-space field, the same frequency
    workspace and the same state of the noise generator. *)
Theorem realization_ignores_workspaces (r1 r2 : RFT.rft2d) (N_ : Z) :
  Spec.same_configuration r1 r2 ->
  RFT.generator r2 = RFT.generator r1 ->
  RFT.N1 r1 = N_ -> RFT.N2 r1 = N_ -> (1 <= N_)%Z ->
  (Spec.last_index N_ N_ <= INT_MAX)%Z ->
  length (RFT.phi_x r1) = Z.to_nat (N_ * N_) ->
  length (RFT.phi_x r2) = Z.to_nat (N_ * N_) ->
  exists r1' r2',
    RFT.run fftw_forward fftw_backward r1 = Some r1'
    /\ RFT.run fftw_forward fftw_backward r2 = Some r2'
    /\ RFT.phi_x r2' = RFT.phi_x r1'
    /\ RFT.phi_k r2' = RFT.phi_k r1'
    /\ RFT.generator r2' = RFT.generator r1'.
Proof.
  intros Hcfg Hgen H1 H2 HN _ Hl1 Hl2.
  apply (run_square_determined r1 r2 N_); try assumption. lia.
Qed.

(** X24. On a square grid of positive size [N] whose largest flat index
    [N*N - 1] is a value of [int], two realizations in a row take two
    consecutive blocks of [N*N] deviates, and the second is the realization
    that a generator of the same configuration whose noise generator stands
    after the first block produces from any workspaces: the first
    realization matters to the second only through the deviates it has
    used up. *)
Theorem consecutive_realizations (r : RFT.rft2d) (N_ : Z) :
  RFT.N1 r = N_ -> RFT.N2 r = N_ -> (1 <= N_)%Z ->
  (Spec.last_index N_ N_ <= INT_MAX)%Z ->
  length (RFT.phi_x r) = Z.to_nat (N_ * N_) ->
  exists r1 r2,
    RFT.run fftw_forward fftw_backward r = Some r1
    /\ RFT.run fftw_forward fftw_backward r1 = Some r2
    /\ RFT.taken (RFT.generator r1)
       = (RFT.taken (RFT.generator r) + Z.to_nat (N_ * N_))%nat
    /\ RFT.taken (RFT.generator r2)
       = (RFT.taken (RFT.generator r) + 2 * Z.to_nat (N_ * N_))%nat
    /\ forall x k : list complex,
         length x = Z.to_nat (N_ * N_) ->
         exists r2',
           RFT.run fftw_forward fftw_backward
             (Spec.with_state r x k (RFT.generator r1)) = Some r2'
           /\ RFT.phi_x r2' = RFT.phi_x r2
           /\ RFT.phi_k r2' = RFT.phi_k r2
           /\ RFT.generator r2' = RFT.generator r2.
Proof.
  intros H1 H2 Hpos _ Hlen.
  assert (HN : (0 <= N_)%Z) by lia.
  assert (Hcells : (Z.to_nat (RFT.N1 r) * Z.to_nat (RFT.N2 r))%nat
                   = Z.to_nat (N_ * N_)) by (rewrite H1, H2; lia).
  destruct (run_square_grid fftw_forward fftw_backward fftw_forward_length
              r N_ H1 H2 HN Hlen) as (noise & filtered & _ & _ & Hrun).
  destruct (run_effect r _ Hrun) as (Hcfg & Hlx & _ & _ & Htaken).
  set (r1 := RFT.set_phi_x (RFT.set_phi_k r filtered)
               (fftw_backward N_ N_ filtered)
               (RFT.mk_noise (RFT.deviate (RFT.generator r))
                  (RFT.taken (RFT.generator r) + Z.to_nat (N_ * N_)))) in *.
  assert (H1r : RFT.N1 r1 = N_) by exact H1.
  assert (H2r : RFT.N2 r1 = N_) by exact H2.
  assert (Hl1 : length (RFT.phi_x r1) = Z.to_nat (N_ * N_)) by congruence.
  assert (Hsecond : forall x k, length x = Z.to_nat (N_ * N_) ->
            exists r2 r2',
              RFT.run fftw_forward fftw_backward r1 = Some r2
              /\ RFT.run fftw_forward fftw_backward
                   (Spec.with_state r x k (RFT.generator r1)) = Some r2'
              /\ RFT.phi_x r2' = RFT.phi_x r2
              /\ RFT.phi_k r2' = RFT.phi_k r2
              /\ RFT.generator r2' = RFT.generator r2).
  { intros x k Hx.
    apply (run_square_determined r1 (Spec.with_state r x k (RFT.generator r1))
             N_); try assumption; try reflexivity.
    all: unfold Spec.same_configuration, Spec.with_state; cbn; repeat split. }
  destruct (Hsecond (RFT.phi_x r) (RFT.phi_k r) Hlen)
    as (r2 & _ & Hrun2 & _).
  destruct (run_effect r1 r2 Hrun2) as (_ & _ & _ & _ & Htaken2).
  exists r1, r2. split; [exact Hrun |]. split; [exact Hrun2 |].
  split; [reflexivity |].
  split; [rewrite Htaken2, H1r, H2r; cbn [r1 RFT.set_phi_x RFT.generator
                                            RFT.taken]; lia |].
  intros x k Hx.
  destruct (Hsecond x k Hx) as (r2a & r2' & Hrun2a & Hrun' & Hx' & Hk' & Hg').
  rewrite Hrun2 in Hrun2a. injection Hrun2a as <-.
  exists r2'. auto.
Qed.

End realization_more.

(** The workspaces and the noise generator of a constructed generator. *)
Lemma rft2d_new_workspaces (P : R -> R -> R) (dev : Z -> nat -> R)
  (hx hk : nat -> complex) (N1_ N2_ : Z) (L1_ L2_ Var_Phi_ lx_ : R)
  (seed_ : Z) (width_ : R) (r : RFT.rft2d) :
  RFT.rft2d_new P dev hx hk N1_ N2_ L1_ L2_ Var_Phi_ lx_ seed_ width_ = inr r ->
  RFT.phi_x r = alloc (N1_ * N2_) hx
  /\ RFT.phi_k r = alloc (N1_ * N2_) hk
  /\ RFT.generator r = RFT.mk_noise (dev seed_) O.
Proof.
  unfold RFT.rft2d_new, RFT.iCDF_new, RFT.new_array.
  change (500 <? 0)%Z with false. cbv iota.
  destruct (_ <? 0)%Z; [discriminate |].
  intros H. injection H as <-. cbn. repeat split.
Qed.

(** A generator on a grid of 2 by 2 cells. *)
Lemma square_generator :
  exists r,
    sample.rft2d_new 2 2 1 1 1 1 0 1 = inr r
    /\ RFT.N1 r = 2%Z /\ RFT.N2 r = 2%Z
    /\ length (RFT.phi_x r) = 4%nat
    /\ RFT.taken (RFT.generator r) = O.
Proof.
  assert (Hcut : int_of_double (3 * 1 * IZR 2 / 1)%R = 6%Z).
  { replace (3 * 1 * IZR 2 / 1)%R with (IZR 6) by lra.
    apply int_of_double_IZR. }
  destruct (rft2d_new_cases sample.P sample.deviates sample.heap sample.heap
              2 2 1 1 1 1 0 1) as [_ Hok].
  cbv zeta in Hok. rewrite Hcut in Hok.
  destruct (Hok ltac:(lia)) as (r & Hr & H1 & H2 & _).
  destruct (rft2d_new_workspaces _ _ _ _ _ _ _ _ _ _ _ _ _ Hr)
    as (Hx & _ & Hg).
  exists r. rewrite Hx, Hg. repeat split; assumption.
Qed.

Lemma run_completes_iff_witness :
  RFT.run (fun _ _ a => a) (fun _ _ a => a) sample.rect_generator <> None.
Proof.
  apply (run_completes_iff (fun _ _ a => a) (fun _ _ a => a)
           (fun _ _ _ => eq_refl) sample.rect_generator).
  - cbn. lia.
  - cbn. lia.
  - cbn. unfold Spec.last_index, INT_MAX. lia.
  - reflexivity.
  - right. cbn. lia.
Defined.

Lemma run_keeps_configuration_witness :
  exists r',
    RFT.run (fun _ _ a => a) (fun _ _ a => a) sample.rect_generator = Some r'
    /\ RFT.taken (RFT.generator r') = 6%nat.
Proof.
  eexists. split; [reflexivity |].
  apply (run_keeps_configuration (fun _ _ a => a) (fun _ _ a => a)
           (fun _ _ _ => eq_refl) (fun _ _ _ => eq_refl)
           sample.rect_generator _ eq_refl).
Defined.

Lemma realization_ignores_workspaces_witness :
  exists r r1' r2',
    sample.rft2d_new 2 2 1 1 1 1 0 1 = inr r
    /\ RFT.run (fun _ _ a => a) (fun _ _ a => a) r = Some r1'
    /\ RFT.run (fun _ _ a => a) (fun _ _ a => a)
         (Spec.with_state r [(1, 1); (2, 2); (3, 3); (4, 4)]%R []
            (RFT.generator r)) = Some r2'
    /\ RFT.phi_x r2' = RFT.phi_x r1'.
Proof.
  destruct square_generator as (r & Hr & H1 & H2 & Hlen & _).
  destruct (realization_ignores_workspaces (fun _ _ a => a) (fun _ _ a => a)
              (fun _ _ _ => eq_refl) r
              (Spec.with_state r [(1, 1); (2, 2); (3, 3); (4, 4)]%R []
                 (RFT.generator r)) 2)
    as (r1' & r2' & Hrun1 & Hrun2 & Hx & _);
    try assumption; try reflexivity; try lia.
  - unfold Spec.same_configuration, Spec.with_state. cbn. repeat split.
  - unfold Spec.last_index, INT_MAX. lia.
  - exists r, r1', r2'. auto.
Defined.

Lemma consecutive_realizations_witness :
  exists r r1 r2,
    sample.rft2d_new 2 2 1 1 1 1 0 1 = inr r
    /\ RFT.run (fun _ _ a => a) (fun _ _ a => a) r = Some r1
    /\ RFT.run (fun _ _ a => a) (fun _ _ a => a) r1 = Some r2
    /\ RFT.taken (RFT.generator r2) = 8%nat.
Proof.
  destruct square_generator as (r & Hr & H1 & H2 & Hlen & Hg).
  destruct (consecutive_realizations (fun _ _ a => a) (fun _ _ a => a)
              (fun _ _ _ => eq_refl) (fun _ _ _ => eq_refl) r 2 H1 H2
              ltac:(lia) ltac:(unfold Spec.last_index, INT_MAX; lia) Hlen)
    as (r1 & r2 & Hrun1 & Hrun2 & _ & Ht2 & _).
  exists r, r1, r2. rewrite Ht2, Hg. auto.
Defined.
